(** * Repo_JD: repository scoring and candidate evaluation

    A shallow embedding of the core of [app.py]: [calculate_repo_score],
    [evaluate_candidate] and the response handling of
    [analyze_repo_and_jd_match], together with the part of the Python
    runtime these functions rely on: exceptions, dictionaries, [len],
    [str.lower], [str.strip], [str.find], [str.rfind], slicing, [float],
    binary64 arithmetic, true division and [round].

    - A Python computation returns a value or raises: [Py.result].
    - Python floats are IEEE-754 binary64 numbers.  They are the Standard
      Library's [spec_float] at precision 53 and maximal exponent 1024, with
      its operations [SFmul], [SFadd], [SFdiv] and [SFcompare].
    - Python strings are [string]; a character with code [n] is read as the
      code point U+00nn, so the model covers the Latin-1 part of Unicode.
    - Dictionaries are finite maps from keys to values, [gmap string value].
    - The prompt template, the language model and [json.loads] are
      parameters of the analyzer: functions that return or raise.
    - The rest of the program, from [initialize_api] to the analysis in
      [main], runs against the outside: GitHub, the model and the page.  A
      computation takes a state of the world and gives what it returns or
      raises, the state after it and the list of the events it produced
      (requests, calls of the model, messages, progress, pauses).

    The file has the definitions first: the runtime, the application, the
    scoring rule in the words of the specification, the notions the proofs
    use, and the program with its effects.  Then come a theory of rounding
    to nearest even on [spec_float] (every operation is one rounding of the
    exact result, and rounding is monotone), the properties of the scoring
    and of the evaluation, and the properties of the pipeline. *)

From Stdlib Require Import ZArith String Ascii List Bool Lia.
From Stdlib Require Import Floats.SpecFloat DecimalString Sorting.Sorted.
From stdpp Require Import base option list gmap strings.

#[local] Set Warnings "-register-all".
#[local] Open Scope Z_scope.

(** ** Exceptions and results *)

Module Py.

Inductive exn : Type :=
| KeyError
| TypeError
| AttributeError
| ValueError
| OverflowError
| ZeroDivisionError
| ExternalError.

Inductive result (A : Type) : Type :=
| Ok (a : A)
| Raise (e : exn).
Arguments Ok {A} a.
Arguments Raise {A} e.

#[global] Instance result_ret : MRet result := @Ok.
#[global] Instance result_bind : MBind result :=
  fun A B f m => match m with Ok a => f a | Raise e => Raise e end.

Definition raises {A} (m : result A) : Prop := exists e, m = Raise e.
Definition returns {A} (m : result A) : Prop := exists a, m = Ok a.

(** ** binary64 *)

Definition prec : Z := 53.
Definition emax : Z := 1024.

Abbreviation float := spec_float.

Definition fmul : float -> float -> float := SFmul prec emax.
Definition fadd : float -> float -> float := SFadd prec emax.
Definition fdiv : float -> float -> float := SFdiv prec emax.
Definition fleb : float -> float -> bool := SFleb.
Definition fltb : float -> float -> bool := SFltb.

Definition is_float64 (f : float) : Prop := valid_binary prec emax f = true.

(** The correctly rounded quotient of two positive integers, with the sign
    [neg]: the integer quotient at the working exponent, the position of the
    remainder, and one rounding to nearest even. *)
Definition round_quotient (neg : bool) (a b : Z) : float :=
  let '(q, e, l) := SFdiv_core_binary prec emax a 0 b 0 in
  binary_round_aux prec emax neg q e l.

(** [m * 10^k] rounded once to binary64, as the decimal-to-binary conversion
    behind float literals and [float(str)] does. *)
Definition float_of_decimal (neg : bool) (m k : Z) : float :=
  if m =? 0 then S754_zero neg
  else if 0 <=? k then binary_normalize prec emax (cond_Zopp neg (m * 10 ^ k)) 0 neg
  else round_quotient neg m (10 ^ (- k)).

(** The literals [0.6] and [0.4] of the source. *)
Definition c0_6 : float := Eval vm_compute in float_of_decimal false 6 (-1).
Definition c0_4 : float := Eval vm_compute in float_of_decimal false 4 (-1).

(** [float(n)] for an int: rounded to nearest even, [OverflowError] when the
    result does not fit. *)
Definition float_of_int (n : Z) : result float :=
  match binary_normalize prec emax n 0 false with
  | S754_infinity _ => Raise OverflowError
  | f => Ok f
  end.

(** [a / b] on ints: the correctly rounded quotient. *)
Definition int_truediv (a b : Z) : result float :=
  if b =? 0 then Raise ZeroDivisionError
  else
    let neg := xorb (a <? 0) (b <? 0) in
    if a =? 0 then Ok (S754_zero neg)
    else match round_quotient neg (Z.abs a) (Z.abs b) with
         | S754_infinity _ => Raise OverflowError
         | f => Ok f
         end.

(** [x / y] on floats. *)
Definition float_truediv (x y : float) : result float :=
  match y with
  | S754_zero _ => Raise ZeroDivisionError
  | _ => Ok (fdiv x y)
  end.

(** The integer nearest to [m * 2^e], ties to the even one. *)
Definition rne_shift (m e : Z) : Z :=
  if 0 <=? e then m * 2 ^ e
  else
    let n := - e in
    let q := m / 2 ^ n in
    let r := m mod 2 ^ n in
    let half := 2 ^ (n - 1) in
    if r <? half then q
    else if half <? r then q + 1
    else if Z.even q then q else q + 1.

(** [round(x)] with one argument. *)
Definition round (x : float) : result Z :=
  match x with
  | S754_nan => Raise ValueError
  | S754_infinity _ => Raise OverflowError
  | S754_zero _ => Ok 0
  | S754_finite s m e => Ok (cond_Zopp s (rne_shift (Zpos m) e))
  end.

(** ** Strings *)

Definition code (c : ascii) : N := N_of_ascii c.

Definition is_upper (c : ascii) : bool :=
  let n := code c in
  (((65 <=? n) && (n <=? 90)) || ((192 <=? n) && (n <=? 222) && negb (n =? 215)))%N.

Definition lower_char (c : ascii) : ascii :=
  if is_upper c then ascii_of_N (code c + 32) else c.

(** [s.lower()] *)
Fixpoint lower (s : string) : string :=
  match s with
  | EmptyString => EmptyString
  | String c s' => String (lower_char c) (lower s')
  end.

(** Whitespace as [str.isspace] and [str.strip] see it. *)
Definition is_space (c : ascii) : bool :=
  let n := code c in
  (((9 <=? n) && (n <=? 13)) || ((28 <=? n) && (n <=? 32)) || (n =? 133) || (n =? 160))%N.

(** Whitespace as [float] sees it at the two ends of its argument: the
    separators 28 to 31 are not part of it. *)
Definition is_float_space (c : ascii) : bool :=
  let n := code c in
  (((9 <=? n) && (n <=? 13)) || (n =? 32) || (n =? 133) || (n =? 160))%N.

Fixpoint lstrip_by (sp : ascii -> bool) (s : string) : string :=
  match s with
  | EmptyString => EmptyString
  | String c s' => if sp c then lstrip_by sp s' else s
  end.

Fixpoint rev_append (s acc : string) : string :=
  match s with
  | EmptyString => acc
  | String c s' => rev_append s' (String c acc)
  end.

Definition rev (s : string) : string := rev_append s EmptyString.

Definition strip_by (sp : ascii -> bool) (s : string) : string :=
  rev (lstrip_by sp (rev (lstrip_by sp s))).

(** [s.strip()] *)
Definition strip (s : string) : string := strip_by is_space s.

(** [s.find(c)] for a one-character [c]: the first index, or -1. *)
Fixpoint find (s : string) (c : ascii) : Z :=
  match s with
  | EmptyString => -1
  | String d s' =>
      if Ascii.eqb d c then 0
      else let i := find s' c in if i <? 0 then -1 else i + 1
  end.

(** [s.rfind(c)] for a one-character [c]: the last index, or -1. *)
Fixpoint rfind (s : string) (c : ascii) : Z :=
  match s with
  | EmptyString => -1
  | String d s' =>
      let i := rfind s' c in
      if 0 <=? i then i + 1
      else if Ascii.eqb d c then 0 else -1
  end.

Definition len_str (s : string) : Z := Z.of_nat (String.length s).

(** A slice bound as Python clips it: a negative bound counts from the end,
    and the result is brought into [0, len]. *)
Definition clip (len i : Z) : Z :=
  if i <? 0 then Z.max (i + len) 0 else Z.min i len.

(** [s[i:j]] *)
Definition slice (s : string) (i j : Z) : string :=
  let a := clip (len_str s) i in
  let b := clip (len_str s) j in
  String.substring (Z.to_nat a) (Z.to_nat (b - a)) s.

(** ** [float(s)] for a string

    The text is stripped of the whitespace around it; underscores may stand
    between two digits; then come an optional sign and either one of
    [inf], [infinity], [nan] (in any case) or a decimal numeral with an
    optional fraction and an optional exponent.  Anything else is a
    [ValueError]. *)

Definition is_digit (c : ascii) : bool :=
  let n := code c in ((48 <=? n) && (n <=? 57))%N.

Definition digit_val (c : ascii) : Z := Z.of_N (code c) - 48.

Definition starts_with_digit (s : string) : bool :=
  match s with
  | String d _ => is_digit d
  | EmptyString => false
  end.

Fixpoint drop_underscores (prev_digit : bool) (s : string) : option string :=
  match s with
  | EmptyString => Some EmptyString
  | String c s' =>
      if Ascii.eqb c "_"%char then
        if prev_digit && starts_with_digit s' then drop_underscores false s'
        else None
      else
        match drop_underscores (is_digit c) s' with
        | Some t => Some (String c t)
        | None => None
        end
  end.

(** The digits at the head of [s]: their value on top of [acc], how many
    there are, and the rest of the text. *)
Fixpoint take_digits (s : string) (acc n : Z) : Z * Z * string :=
  match s with
  | String c s' =>
      if is_digit c then take_digits s' (10 * acc + digit_val c) (n + 1)
      else (acc, n, s)
  | EmptyString => (acc, n, s)
  end.

Definition take_sign (s : string) : bool * string :=
  match s with
  | String "-" s' => (true, s')
  | String "+" s' => (false, s')
  | _ => (false, s)
  end.

(** The exponent part, when the whole rest of the text is one. *)
Definition parse_exponent (s : string) : option Z :=
  match s with
  | EmptyString => Some 0
  | String c s' =>
      if Ascii.eqb (lower_char c) "e"%char then
        let '(neg, s'') := take_sign s' in
        match take_digits s'' 0 0 with
        | (v, n, EmptyString) => if 0 <? n then Some (cond_Zopp neg v) else None
        | _ => None
        end
      else None
  end.

(** A decimal numeral without its sign: the digits read as one integer [m]
    and the power of ten [k] that goes with it. *)
Definition parse_decimal (s : string) : option (Z * Z) :=
  let '(ip, ni, r1) := take_digits s 0 0 in
  let '(m, nf, r2) :=
    match r1 with
    | String "." r => take_digits r ip 0
    | _ => (ip, 0, r1)
    end in
  if 0 <? ni + nf then
    match parse_exponent r2 with
    | Some ev => Some (m, ev - nf)
    | None => None
    end
  else None.

Definition parse_special (neg : bool) (s : string) : option float :=
  let t := lower s in
  if String.eqb t "inf" || String.eqb t "infinity" then Some (S754_infinity neg)
  else if String.eqb t "nan" then Some S754_nan
  else None.

Definition float_of_string (s : string) : result float :=
  match drop_underscores false (strip_by is_float_space s) with
  | None => Raise ValueError
  | Some t =>
      let '(neg, u) := take_sign t in
      match parse_special neg u with
      | Some f => Ok f
      | None =>
          match parse_decimal u with
          | Some (m, k) => Ok (float_of_decimal neg m k)
          | None => Raise ValueError
          end
      end
  end.

(** ** Values *)

#[local] Unset Elimination Schemes.
Inductive value : Type :=
| VNone
| VBool (b : bool)
| VInt (n : Z)
| VFloat (f : float)
| VStr (s : string)
| VList (l : list value)
| VDict (d : gmap string value).
#[local] Set Elimination Schemes.

(** [d[k]] *)
Definition getitem (v : value) (k : string) : result value :=
  match v with
  | VDict d => match d !! k with Some x => Ok x | None => Raise KeyError end
  | _ => Raise TypeError
  end.

(** [d.get(k, dflt)] *)
Definition dict_get (v : value) (k : string) (dflt : value) : result value :=
  match v with
  | VDict d => Ok (default dflt (d !! k))
  | _ => Raise AttributeError
  end.

(** [len(v)] *)
Definition len (v : value) : result Z :=
  match v with
  | VList l => Ok (Z.of_nat (length l))
  | VStr s => Ok (len_str s)
  | VDict d => Ok (Z.of_nat (size d))
  | _ => Raise TypeError
  end.

(** [v.lower()] *)
Definition str_lower (v : value) : result string :=
  match v with
  | VStr s => Ok (lower s)
  | _ => Raise AttributeError
  end.

(** [float(v)] *)
Definition to_float (v : value) : result float :=
  match v with
  | VFloat f => Ok f
  | VInt n => float_of_int n
  | VBool b => float_of_int (if b then 1 else 0)
  | VStr s => float_of_string s
  | _ => Raise TypeError
  end.

(** [n * x] for an int [n] and a float [x] *)
Definition int_mul_float (n : Z) (x : float) : result float :=
  y ← float_of_int n; Ok (fmul y x).

(** [x >= n] for a float [x] and an int [n] that binary64 holds exactly *)
Definition float_ge_int (x : float) (n : Z) : bool :=
  fleb (binary_normalize prec emax n 0 false) x.

End Py.

(** ** The application: [app.py] *)

Import Py.

(** The seven keys of an analysis record. *)
Definition k_languages : string := "languages".
Definition k_tech_stack : string := "tech_stack".
Definition k_algorithms : string := "algorithms".
Definition k_complexity : string := "complexity".
Definition k_commit_activity : string := "commit_activity".
Definition k_jd_match_score : string := "jd_match_score".
Definition k_jd_match_reasons : string := "jd_match_reasons".

Definition complexity_scores : gmap string Z :=
  <["low" := 10]> (<["medium" := 20]> (<["high" := 30]> (<["unknown" := 0]> ∅))).

Definition activity_scores : gmap string Z :=
  <["inactive" := 10]> (<["moderate" := 20]> (<["active" := 30]> (<["unknown" := 0]> ∅))).

(** [calculate_repo_score(analysis_data)], statement by statement. *)
Definition calculate_repo_score (analysis_data : value) : result Z :=
  let base_score := 0 in
  languages ← getitem analysis_data k_languages;
  n_languages ← len languages;
  let base_score := base_score + Z.min (n_languages * 2) 10 in
  tech_stack ← getitem analysis_data k_tech_stack;
  n_tech_stack ← len tech_stack;
  let base_score := base_score + Z.min (n_tech_stack * 3) 15 in
  algorithms ← getitem analysis_data k_algorithms;
  n_algorithms ← len algorithms;
  let base_score := base_score + Z.min (n_algorithms * 3) 15 in
  complexity ← getitem analysis_data k_complexity;
  complexity_key ← str_lower complexity;
  let base_score := base_score + default 0 (complexity_scores !! complexity_key) in
  commit_activity ← getitem analysis_data k_commit_activity;
  activity_key ← str_lower commit_activity;
  let base_score := base_score + default 0 (activity_scores !! activity_key) in
  jd ← dict_get analysis_data k_jd_match_score (VInt 0);
  jd_match_score ← to_float jd;
  weighted_base ← int_mul_float base_score c0_6;
  let final_score := fadd weighted_base (fmul jd_match_score c0_4) in
  round final_score.

(** The total handed to [evaluate_candidate] is a sum of scores, an int; the
    function itself takes any number. *)
Inductive number : Type :=
| NInt (n : Z)
| NFloat (f : float).

(** [total_score / num_repos] *)
Definition truediv (total_score : number) (num_repos : Z) : result float :=
  match total_score with
  | NInt n => int_truediv n num_repos
  | NFloat x => y ← float_of_int num_repos; float_truediv x y
  end.

Definition unable_to_evaluate : string := "Unable to evaluate - no repositories found".
Definition highly_suitable : string := "Highly Suitable".
Definition moderately_suitable : string := "Moderately Suitable".
Definition potentially_suitable : string := "Potentially Suitable".
Definition not_suitable : string := "Not Suitable".

(** [evaluate_candidate(total_score, num_repos)] *)
Definition evaluate_candidate (total_score : number) (num_repos : Z) : result string :=
  if num_repos =? 0 then Ok unable_to_evaluate
  else
    avg_score ← truediv total_score num_repos;
    if float_ge_int avg_score 75 then Ok highly_suitable
    else if float_ge_int avg_score 50 then Ok moderately_suitable
    else if float_ge_int avg_score 25 then Ok potentially_suitable
    else Ok not_suitable.

(** The record the [except] branch of [analyze_repo_and_jd_match] returns. *)
Definition default_analysis : value :=
  VDict (<[k_languages := VList []]>
        (<[k_tech_stack := VList []]>
        (<[k_algorithms := VList []]>
        (<[k_complexity := VStr "unknown"]>
        (<[k_commit_activity := VStr "unknown"]>
        (<[k_jd_match_score := VInt 0]>
        (<[k_jd_match_reasons := VList []]> ∅))))))).

(** [sep.join(l)] *)
Fixpoint join (sep : string) (l : list string) : string :=
  match l with
  | [] => EmptyString
  | [x] => x
  | x :: l' => x +:+ sep +:+ join sep l'
  end.

Section Analyzer.

(** The collaborators of the analyzer: the prompt template's [format], the
    model's [invoke] and [json.loads].  Each returns or raises. *)
Variable prompt_format : string -> string -> string -> string -> string -> result string.
Variable json_loads : string -> result value.

(** The text handed to [json.loads]: [response[json_start:json_end].strip()]. *)
Definition json_text (response : string) : string :=
  let json_start := find response "{" in
  let json_end := rfind response "}" + 1 in
  strip (slice response json_start json_end).

(** The body of the [try] block. *)
Definition analyze_try (readme : string) (file_structure commits languages : list string)
    (jd : string) (llm : string -> result string) : result value :=
  prompt ← prompt_format readme (join ", " file_structure) (join ", " commits)
                         (join ", " languages) jd;
  response ← llm prompt;
  json_loads (json_text response).

(** [analyze_repo_and_jd_match]: the value returned, and the exception
    reported through [st.error] when there was one. *)
Definition analyze_repo_and_jd_match (readme : string)
    (file_structure commits languages : list string)
    (jd : string) (llm : string -> result string) : value * option exn :=
  match analyze_try readme file_structure commits languages jd llm with
  | Ok json_data => (json_data, None)
  | Raise e => (default_analysis, Some e)
  end.

End Analyzer.

(** ** The scoring rule in the words of the specification *)

Module Spec.

(** The letters that come in two cases, place by place. *)
Definition capitals : string := "ABCDEFGHIJKLMNOPQRSTUVWXYZ".
Definition small_letters : string := "abcdefghijklmnopqrstuvwxyz".

(** The small letter of [c] when [c] is one of the capitals, and else [c]. *)
Fixpoint small_of (c : ascii) (caps smalls : string) : ascii :=
  match caps, smalls with
  | String u caps', String l smalls' =>
      if Ascii.eqb c u then l else small_of c caps' smalls'
  | _, _ => c
  end.

(** The same character, or the same letter in its two cases. *)
Definition same_letter (x y : ascii) : bool :=
  Ascii.eqb (small_of x capitals small_letters) (small_of y capitals small_letters).

(** Equality of two texts up to the case of their letters: the same length
    and, place by place, the same letter. *)
Fixpoint eq_ignoring_case (a b : string) : bool :=
  match a, b with
  | EmptyString, EmptyString => true
  | String x a', String y b' => same_letter x y && eq_ignoring_case a' b'
  | _, _ => false
  end.

(** low gives 10, medium 20, high 30, anything else 0 *)
Definition complexity_points (tier : string) : Z :=
  if eq_ignoring_case tier "low" then 10
  else if eq_ignoring_case tier "medium" then 20
  else if eq_ignoring_case tier "high" then 30
  else 0.

(** inactive gives 10, moderate 20, active 30, anything else 0 *)
Definition activity_points (tier : string) : Z :=
  if eq_ignoring_case tier "inactive" then 10
  else if eq_ignoring_case tier "moderate" then 20
  else if eq_ignoring_case tier "active" then 30
  else 0.

Definition count {A} (l : list A) : Z := Z.of_nat (length l).

Definition base_score (languages tech_stack algorithms : list value)
    (complexity commit_activity : string) : Z :=
  Z.min (2 * count languages) 10
  + Z.min (3 * count tech_stack) 15
  + Z.min (3 * count algorithms) 15
  + complexity_points complexity
  + activity_points commit_activity.

(** The binary64 number that is the integer [n], for an [n] it can hold. *)
Definition float_of (n : Z) : float := binary_normalize prec emax n 0 false.

(** round(base_score * 0.6 + jd_match_score * 0.4) *)
Definition score (base : Z) (jd_match_score : float) : result Z :=
  round (fadd (fmul (float_of base) c0_6) (fmul jd_match_score c0_4)).

End Spec.

(** ** Definitions used by the proofs *)

(** [P] holds of 0, 1, ..., n-1. *)
Definition all_upto (n : nat) (P : Z -> bool) : bool :=
  forallb P (map Z.of_nat (seq 0 n)).

(** The float with mantissa [M] at exponent [t], for [0 <= M <= 2^53]: the
    carry into a 54th bit moves to the next exponent, and an exponent beyond
    the largest one gives an infinity. *)
Definition finish (s : bool) (M t : Z) : float :=
  match M with
  | Zpos p =>
      if Z.pos p =? 2 ^ 53 then
        if t + 1 <=? 971 then S754_finite s (2 ^ 52)%positive (t + 1)
        else S754_infinity s
      else if t <=? 971 then S754_finite s p t else S754_infinity s
  | _ => S754_zero s
  end.

(** Every binary64 number is an integer multiple of [2^-1074].  [xval] is
    that integer; the infinities stand at [2^2098] in absolute value, the
    first power of two beyond every finite number. *)
Definition xval (f : float) : Z :=
  match f with
  | S754_zero _ => 0
  | S754_nan => 0
  | S754_infinity s => cond_Zopp s (2 ^ 2098)
  | S754_finite s m e => cond_Zopp s (Z.pos m * 2 ^ (e + 1074))
  end.

Definition is_finite (f : float) : bool :=
  match f with
  | S754_zero _ | S754_finite _ _ _ => true
  | _ => false
  end.

(** [n <= f], [f <= n] and [lo <= f <= hi] for a float [f] and integers. *)
Definition float_ge (f : float) (n : Z) : Prop := n * 2 ^ 1074 <= xval f.
Definition float_le (f : float) (n : Z) : Prop := xval f <= n * 2 ^ 1074.
Definition between (lo hi : Z) (f : float) : Prop :=
  is_finite f = true /\ float_ge f lo /\ float_le f hi.


(** [round] as a function of the value. *)
Definition round_val (v : Z) : Z :=
  if v <? 0 then - rne_shift (- v) (-1074) else rne_shift v (-1074).

(** A value that, when it is a float, is a binary64 number. *)
Definition float64_value (v : value) : Prop :=
  forall g, v = VFloat g -> is_float64 g.

(** The first half of [calculate_repo_score]: the base score. *)
Definition base_part (analysis_data : value) : result Z :=
  languages ← getitem analysis_data k_languages;
  n_languages ← len languages;
  tech_stack ← getitem analysis_data k_tech_stack;
  n_tech_stack ← len tech_stack;
  algorithms ← getitem analysis_data k_algorithms;
  n_algorithms ← len algorithms;
  complexity ← getitem analysis_data k_complexity;
  complexity_key ← str_lower complexity;
  commit_activity ← getitem analysis_data k_commit_activity;
  activity_key ← str_lower commit_activity;
  Ok (0 + Z.min (n_languages * 2) 10 + Z.min (n_tech_stack * 3) 15
      + Z.min (n_algorithms * 3) 15
      + default 0 (complexity_scores !! complexity_key)
      + default 0 (activity_scores !! activity_key)).

(** The second half: the blend of a base score with a job-match score. *)
Definition blend (base_score : Z) (jd_match_score : float) : result Z :=
  weighted_base ← int_mul_float base_score c0_6;
  round (fadd weighted_base (fmul jd_match_score c0_4)).

(** [base * 0.6] *)
Definition weighted (b : Z) : float := fmul (Spec.float_of b) c0_6.

Definition f0 : float := S754_zero false.
Definition f40 : float := Eval vm_compute in Spec.float_of 40.
Definition f60 : float := Eval vm_compute in Spec.float_of 60.
Definition f100 : float := Eval vm_compute in Spec.float_of 100.
Definition f_max : float := Eval vm_compute in SFmax_float prec emax.

(** The extreme products with 0.4. *)
Definition p_max : float := Eval vm_compute in fmul f_max c0_4.
Definition p_min : float := Eval vm_compute in fmul (SFopp f_max) c0_4.

Definition nonneg_finite (x : float) : bool :=
  match x with
  | S754_finite false _ _ | S754_zero false => true
  | _ => false
  end.

(** What the proofs need of [b * 0.6], checked for each base score [b]. *)
Definition weighted_ok (b : Z) : bool :=
  match float_of_int b with
  | Ok y =>
      nonneg_finite (fmul y c0_6)
      && valid_binary prec emax (fmul y c0_6)
      && (xval (fmul y c0_6) <=? xval f60)
  | Raise _ => false
  end.

Definition weighted_step_ok (b : Z) : bool :=
  xval (weighted b) <=? xval (weighted (b + 3)).

Definition result_eqb (a b : result Z) : bool :=
  match a, b with
  | Ok x, Ok y => x =? y
  | _, _ => false
  end.

Definition no_match_ok (b : Z) : bool :=
  result_eqb (Spec.score b f0) (Ok ((6 * b + 5) / 10)).


(** [c] occurs in [s]. *)
Fixpoint occurs (c : ascii) (s : string) : bool :=
  match s with
  | EmptyString => false
  | String d s' => Ascii.eqb d c || occurs c s'
  end.

(** The scenario of the specification: two languages, one framework, no
    algorithm, medium complexity, active, job match 80. *)
Definition scenario : gmap string value :=
  <[k_languages := VList [VStr "Python"; VStr "JS"]]>
  (<[k_tech_stack := VList [VStr "Flask"]]>
  (<[k_algorithms := VList []]>
  (<[k_complexity := VStr "medium"]>
  (<[k_commit_activity := VStr "active"]>
  (<[k_jd_match_score := VInt 80]> ∅))))).

(** A value that [len] counts, and a value that is a text. *)
Definition countable (v : value) : Prop :=
  match v with
  | VList _ | VStr _ | VDict _ => True
  | _ => False
  end.

Definition is_text (v : value) : Prop :=
  match v with
  | VStr _ => True
  | _ => False
  end.

(** Those of the five fields that a record has are of the kind the scoring
    expects: the three collections can be counted, the two tiers are
    texts. *)
Definition present_fields_fit (d : gmap string value) : Prop :=
  (forall v, d !! k_languages = Some v -> countable v)
  /\ (forall v, d !! k_tech_stack = Some v -> countable v)
  /\ (forall v, d !! k_algorithms = Some v -> countable v)
  /\ (forall v, d !! k_complexity = Some v -> is_text v)
  /\ (forall v, d !! k_commit_activity = Some v -> is_text v).

(** One of the five fields that the scoring indexes is missing. *)
Definition lacks_a_field (d : gmap string value) : Prop :=
  d !! k_languages = None \/ d !! k_tech_stack = None \/ d !! k_algorithms = None
  \/ d !! k_complexity = None \/ d !! k_commit_activity = None.


(** A small letter, a to z, and a text of small letters. *)
Definition is_small (c : ascii) : bool :=
  let n := code c in ((97 <=? n) && (n <=? 122))%N.

Fixpoint all_small (s : string) : bool :=
  match s with
  | EmptyString => true
  | String c s' => is_small c && all_small s'
  end.

(** The scenario with another job-match score. *)
Definition with_jd (j : value) : gmap string value :=
  <[k_jd_match_score := j]> scenario.

(** Collaborators for the examples: a prompt template that keeps the job
    description, a model that answers with a fixed text, and a reader that
    knows the text of the empty record, which every JSON reader reads as the
    empty record. *)
Definition format_plain (readme files commits languages jd : string) : result string :=
  Ok jd.
Definition llm_says (text : string) (prompt : string) : result string := Ok text.
Definition loads_empty_record (s : string) : result value :=
  if String.eqb s "{}" then Ok (VDict ∅) else Raise ValueError.












(** ** The rest of [app.py]: the GitHub client and the loop over the repositories *)

(** *** The objects GitHub answers with

    What [response.json()] returns.  The order of a dict's keys is seen by
    the program here (the names of the languages go to the prompt in the
    order GitHub lists them), so a dict is the list of its items, in
    insertion order and with distinct keys. *)

Module Api.

#[local] Unset Elimination Schemes.
Inductive json : Type :=
| JNull
| JBool (b : bool)
| JInt (n : Z)
| JFloat (f : float)
| JStr (s : string)
| JList (l : list json)
| JDict (items : list (string * json)).
#[local] Set Elimination Schemes.

(** [bool(v)], as [if not v] and [if v] see a value *)
Definition truthy (v : json) : bool :=
  match v with
  | JNull => false
  | JBool b => b
  | JInt n => negb (n =? 0)
  | JFloat (S754_zero _) => false
  | JFloat _ => true
  | JStr EmptyString => false
  | JStr _ => true
  | JList [] => false
  | JList _ => true
  | JDict [] => false
  | JDict _ => true
  end.

Fixpoint assoc (k : string) (items : list (string * json)) : option json :=
  match items with
  | [] => None
  | (k', v) :: rest => if String.eqb k' k then Some v else assoc k rest
  end.

(** [v[k]] for a text [k] *)
Definition getitem (v : json) (k : string) : result json :=
  match v with
  | JDict items => match assoc k items with Some x => Ok x | None => Raise KeyError end
  | _ => Raise TypeError
  end.

(** [v[:n]].  A dict cannot be sliced: [TypeError] (an unhashable slice)
    before Python 3.12 and [KeyError] since; the model takes the former. *)
Definition slice_to (v : json) (n : nat) : result json :=
  match v with
  | JList l => Ok (JList (take n l))
  | JStr s => Ok (JStr (String.substring 0 n s))
  | _ => Raise TypeError
  end.

(** The elements [for x in v] goes through: the elements of a list, the
    keys of a dict, the characters of a text. *)
Definition elements (v : json) : result (list json) :=
  match v with
  | JList l => Ok l
  | JDict items => Ok (map (fun kv => JStr (fst kv)) items)
  | JStr s => Ok (map (fun c => JStr (String c EmptyString)) (list_ascii_of_string s))
  | _ => Raise TypeError
  end.

(** [len(v)] *)
Definition len (v : json) : result Z :=
  match v with
  | JList l => Ok (Z.of_nat (length l))
  | JDict items => Ok (Z.of_nat (length items))
  | JStr s => Ok (len_str s)
  | _ => Raise TypeError
  end.

(** [list(v.keys())] *)
Definition keys (v : json) : result (list string) :=
  match v with
  | JDict items => Ok (map fst items)
  | _ => Raise AttributeError
  end.

(** [[f(x) for x in l]]: the first element on which [f] raises ends it. *)
Fixpoint comprehension {A B} (f : A -> result B) (l : list A) : result (list B) :=
  match l with
  | [] => Ok []
  | x :: l' => y ← f x; ys ← comprehension f l'; Ok (y :: ys)
  end.

(** [sep.join(l)]: every element has to be a text. *)
Definition join_items (sep : string) (l : list json) : result string :=
  texts ← comprehension (fun v => match v with JStr s => Ok s | _ => Raise TypeError end) l;
  Ok (join sep texts).

(** A [requests.Response], as far as the program looks at it. *)
Record response : Type := {
  status_code : Z;
  json_body : result json;
  text : string
}.

End Api.

(** [str(n)] for an int *)
Definition str_of_int (n : Z) : string := NilZero.string_of_int (Z.to_int n).

(** *** Effects

    The program talks to GitHub, to the model and to the page.  What it
    does is recorded, in order, as a list of events; what the outside
    answers depends on a state of the world that every call may change. *)

Inductive event : Type :=
| HttpGet (url : Api.json) (headers : option Api.json)
| GenaiConfigure (api_key : string)
| NewModel (api_key : string)
| Invoke (prompt : string)
| StError (msg : string)
| StErrorExn (msg : string) (e : exn)
| StSpinner (msg : string)
| StProgress (v : number)
| ProgressEmpty
| Sleep (seconds : Z).

(** The outside: [requests.get], the prompt template's [format],
    [json.loads], [genai.configure], the constructor of the model, and the
    text that [str] gives for a value that is not a text. *)
Record services : Type := {
  world : Type;
  requests_get : Api.json -> option Api.json -> world -> result Api.response * world;
  prompt_format : string -> string -> string -> string -> string -> result string;
  json_loads : string -> result value;
  genai_configure : string -> world -> result unit * world;
  new_model : string -> world -> result (string -> world -> result string * world) * world;
  str_of : Api.json -> string
}.

Module IO.

Import Api.

(** One entry of [results]: [(repo_name, analysis_data, repo_score)]. *)
Definition entry : Type := json * value * Z.

(** What [analyze_github_repos] returns: the empty list, or the pair of
    the results and the total. *)
Inductive analysis : Type :=
| Nothing
| Analysed (results : list entry) (total_score : Z).

(** [repo_analysis, total_score = analyze_github_repos(...)] in [main]:
    the empty list has no two items to hand out. *)
Definition unpack (a : analysis) : result (list entry * Z) :=
  match a with
  | Nothing => Raise ValueError
  | Analysed results total_score => Ok (results, total_score)
  end.

(** [round(total_score / num_repos if num_repos > 0 else 0)] *)
Definition avg_score (total_score num_repos : Z) : result Z :=
  if 0 <? num_repos then x ← int_truediv total_score num_repos; round x
  else Ok 0.

(** [sorted(repo_analysis, key=lambda x: x[2], reverse=True)]: from the
    highest score to the lowest, entries of one score in the order they
    had. *)
Fixpoint insert_by_score (x : entry) (l : list entry) : list entry :=
  match l with
  | [] => [x]
  | y :: l' => if snd x <? snd y then y :: insert_by_score x l' else x :: l
  end.

Definition sorted (repo_analysis : list entry) : list entry :=
  foldr insert_by_score [] repo_analysis.

(** What [main] shows of an analysis. *)
Record summary : Type := {
  num_repos : Z;
  average_score : Z;
  suitability : string;
  sorted_analysis : list entry
}.

Section Program.

Variable S : services.

(** A model: its [invoke]. *)
Definition model : Type := string -> world S -> result string * world S.

(** A computation: from a world to what it returns or raises, the world
    after it, and the events it produced. *)
Definition io (A : Type) : Type := world S -> result A * world S * list event.

Definition ret {A} (a : A) : io A := fun w => (Ok a, w, []).

Definition bind {A B} (m : io A) (k : A -> io B) : io B := fun w =>
  match m w with
  | (Ok a, w', evs) => let '(r, w'', evs') := k a w' in (r, w'', evs ++ evs')
  | (Raise e, w', evs) => (Raise e, w', evs)
  end.

#[global] Instance io_ret : MRet io := @ret.
#[global] Instance io_bind : MBind io := fun A B k m => bind m k.

(** A pure step. *)
Definition lift {A} (r : result A) : io A := fun w => (r, w, []).

Definition emit (e : event) : io unit := fun w => (Ok tt, w, [e]).

(** [try: body except Exception as e: handler(e)] *)
Definition try_except {A} (body : io A) (handler : exn -> io A) : io A := fun w =>
  match body w with
  | (Ok a, w', evs) => (Ok a, w', evs)
  | (Raise e, w', evs) => let '(r, w'', evs') := handler e w' in (r, w'', evs ++ evs')
  end.

(** [requests.get(url, headers=headers)], and [requests.get(url)] when
    [headers] is [None] *)
Definition get (url : json) (headers : option json) : io response := fun w =>
  let '(r, w') := requests_get S url headers w in (r, w', [HttpGet url headers]).

(** [llm.invoke(prompt)] *)
Definition invoke (llm : model) (prompt : string) : io string := fun w =>
  let '(r, w') := llm prompt w in (r, w', [Invoke prompt]).

(** A value inside an f-string. *)
Definition fmt (v : json) : string :=
  match v with
  | JStr s => s
  | _ => str_of S v
  end.


(** [get_github_repos(username, headers)] *)
Definition get_github_repos (username : string) (headers : json) : io json :=
  let url := "https://api.github.com/users/" +:+ username +:+ "/repos" in
  response ← get (JStr url) (Some headers);
  if status_code response =? 200 then lift (json_body response)
  else
    _ ← emit (StError ("Failed to fetch repositories. Status code: "
                       +:+ str_of_int (status_code response)));
    mret (JList []).

(** [get_repo_details(username, repo_name, headers)] *)
Definition get_repo_details (username : string) (repo_name : json) (headers : json)
  : io (string * list json * list json * list string) :=
  let repo := "https://api.github.com/repos/" +:+ username +:+ "/" +:+ fmt repo_name in
  let readme_url := repo +:+ "/readme" in
  let commits_url := repo +:+ "/commits" in
  let contents_url := repo +:+ "/contents" in
  let languages_url := repo +:+ "/languages" in
  let readme_content := "" in
  let commit_messages := [] in
  let file_structure := [] in
  let languages_used := [] in
  _ ← emit (StSpinner ("Fetching details for " +:+ fmt repo_name +:+ "..."));
  readme_response ← get (JStr readme_url) (Some headers);
  readme_content ←
    (if status_code readme_response =? 200 then
       body ← lift (json_body readme_response);
       download_url ← lift (getitem body "download_url");
       download ← get download_url None;
       mret (text download)
     else mret readme_content);
  commit_response ← get (JStr commits_url) (Some headers);
  commit_messages ←
    (if status_code commit_response =? 200 then
       body ← lift (json_body commit_response);
       lift (latest ← slice_to body 5;
             commits ← elements latest;
             comprehension (fun commit => c ← getitem commit "commit"; getitem c "message")
               commits)
     else mret commit_messages);
  content_response ← get (JStr contents_url) (Some headers);
  file_structure ←
    (if status_code content_response =? 200 then
       body ← lift (json_body content_response);
       lift (files ← elements body;
             comprehension (fun file => getitem file "name") files)
     else mret file_structure);
  lang_response ← get (JStr languages_url) (Some headers);
  languages_used ←
    (if status_code lang_response =? 200 then
       body ← lift (json_body lang_response);
       lift (keys body)
     else mret languages_used);
  mret (readme_content, commit_messages, file_structure, languages_used).

(** [analyze_repo_and_jd_match(readme, file_structure, commits, languages,
    jd, llm)] with its effects.  The names of the files and the commit
    messages are what GitHub gave: [join] raises on one that is not a
    text, inside the [try]. *)
Definition analyze_repo_and_jd_match (readme : string) (file_structure commits : list json)
    (languages : list string) (jd : string) (llm : model) : io value :=
  try_except
    (files ← lift (join_items ", " file_structure);
     commits ← lift (join_items ", " commits);
     let languages := join ", " languages in
     prompt ← lift (prompt_format S readme files commits languages jd);
     response ← invoke llm prompt;
     lift (json_loads S (json_text response)))
    (fun e =>
       _ ← emit (StErrorExn "Error analyzing repository: " e);
       mret default_analysis).

(** The body of the [for] loop of [analyze_github_repos], for the
    repositories from position [idx] on. *)
Fixpoint analyze_loop (username : string) (headers : json) (llm : model) (jd : string)
    (repos : json) (rest : list json) (idx : Z) (results : list entry) (total_score : Z)
  : io (list entry * Z) :=
  match rest with
  | [] => mret (results, total_score)
  | repo :: rest' =>
      repo_name ← lift (getitem repo "name");
      _ ← emit (StSpinner ("Analyzing " +:+ fmt repo_name +:+ "..."));
      details ← get_repo_details username repo_name headers;
      let '(readme, commits, file_structure, languages) := details in
      analysis_data ← analyze_repo_and_jd_match readme file_structure commits languages jd llm;
      repo_score ← lift (calculate_repo_score analysis_data);
      let total_score := total_score + repo_score in
      let results := results ++ [(repo_name, analysis_data, repo_score)] in
      fraction ← lift (n ← len repos; int_truediv (idx + 1) n);
      _ ← emit (StProgress (NFloat fraction));
      _ ← emit (Sleep 1);
      analyze_loop username headers llm jd repos rest' (idx + 1) results total_score
  end.

(** [analyze_github_repos(username, headers, llm, jd)] *)
Definition analyze_github_repos (username : string) (headers : json) (llm : model)
    (jd : string) : io analysis :=
  repos ← get_github_repos username headers;
  if negb (truthy repos) then
    _ ← emit (StError "No repositories found or failed to fetch repositories.");
    mret Nothing
  else
    let results := [] in
    let total_score := 0 in
    _ ← emit (StProgress (NInt 0));
    rest ← lift (elements repos);
    out ← analyze_loop username headers llm jd repos rest 0 results total_score;
    _ ← emit ProgressEmpty;
    mret (Analysed (fst out) (snd out)).

(** The analysis in [main], from the call of [analyze_github_repos] to the
    sorted list; the calls that only draw the page are left out. *)
Definition main_analysis (username : string) (headers : json) (llm : model) (jd : string)
  : io (option summary) :=
  _ ← emit (StSpinner "Analyzing repositories...");
  a ← analyze_github_repos username headers llm jd;
  pair ← lift (unpack a);
  let '(repo_analysis, total_score) := pair in
  match repo_analysis with
  | _ :: _ =>
      let num_repos := Z.of_nat (length repo_analysis) in
      avg_score ← lift (avg_score total_score num_repos);
      suitability ← lift (evaluate_candidate (NInt total_score) num_repos);
      let sorted_analysis := sorted repo_analysis in
      mret (Some {| num_repos := num_repos; average_score := avg_score;
                    suitability := suitability; sorted_analysis := sorted_analysis |})
  | [] =>
      _ ← emit (StError "No repositories found or analysis failed.");
      mret None
  end.

End Program.
End IO.

(** ** Definitions used by the proofs about the loop *)

(** The sum of the scores of a list of entries. *)
Definition total_of (l : list IO.entry) : Z := foldr (fun e acc => snd e + acc) 0 l.

(** The score of an entry is the score of its analysis. *)
Definition scored (e : IO.entry) : Prop := calculate_repo_score (snd (fst e)) = Ok (snd e).

(** The name of an entry is the name of the repository. *)
Definition named (repo : Api.json) (e : IO.entry) : Prop :=
  Api.getitem repo "name" = Ok (fst (fst e)).

(** Every event of a computation, from any world, satisfies [P]. *)
Definition emits {S : services} {A} (P : event -> Prop) (m : IO.io S A) : Prop :=
  forall w, Forall P (snd (m w)).

(** The analysis of an entry is one that [analyze_repo_and_jd_match]
    returned for the job description and the model. *)
Definition analysed (S : services) (jd : string) (llm : IO.model S) (e : IO.entry) : Prop :=
  exists readme file_structure commits languages w1 w2 evs,
    IO.analyze_repo_and_jd_match S readme file_structure commits languages jd llm w1
    = (Ok (snd (fst e)), w2, evs).

(** The request headers go to GitHub's API and nowhere else. *)
Definition to_github_only (headers : Api.json) (ev : event) : Prop :=
  match ev with
  | HttpGet url (Some h) =>
      h = headers /\ exists path, url = Api.JStr ("https://api.github.com/" +:+ path)
  | _ => True
  end.

(** The message of the branch of [main] for an empty list of results. *)
Definition analysis_failed : string := "No repositories found or analysis failed.".

Definition not_analysis_failed (ev : event) : Prop := ev <> StError analysis_failed.

(** The headers [initialize_api] builds from a token. *)
Definition headers_of (github_token : string) : Api.json :=
  Api.JDict [("Authorization", Api.JStr ("token " +:+ github_token));
             ("Accept", Api.JStr "application/vnd.github.v3+json")].

(** From the highest score to the lowest. *)
Definition descending (l : list IO.entry) : Prop :=
  StronglySorted (fun a b => snd b <= snd a) l.

(** The entries of [l] that have the score [v], in their order. *)
Definition with_score (v : Z) (l : list IO.entry) : list IO.entry :=
  List.filter (fun e => snd e =? v) l.

(** A value the progress bar takes: the integer 0, or a float from 0 to 1. *)
Definition progress_in_range (ev : event) : Prop :=
  match ev with
  | StProgress (NInt n) => n = 0
  | StProgress (NFloat f) => between 0 1 f
  | _ => True
  end.

(** Requests to GitHub, calls of the model and pauses among the events. *)
Definition is_request (ev : event) : bool :=
  match ev with HttpGet _ _ => true | _ => false end.
Definition is_model_call (ev : event) : bool :=
  match ev with Invoke _ => true | _ => false end.
Definition is_sleep (ev : event) : bool :=
  match ev with Sleep _ => true | _ => false end.

Definition count (p : event -> bool) (evs : list event) : nat :=
  length (List.filter p evs).

(** A computation produces at most [n] events of the kind [p], from any
    world and whether it returns or raises. *)
Definition at_most {S : services} {A} (p : event -> bool) (n : nat) (m : IO.io S A) : Prop :=
  forall w, (count p (snd (m w)) <= n)%nat.

(** The score for the base score [b] and the integer job-match score [j]
    is the nearest integer to [(6 * b + 4 * j) / 10]. *)
Definition exact_ok (b j : Z) : bool :=
  result_eqb (jd ← float_of_int j; Spec.score b jd) (Ok ((6 * b + 4 * j + 5) / 10)).

Definition exact_row (b : Z) : bool := all_upto 101 (exact_ok b).

(** *** Collaborators for the examples

    A GitHub that knows the user [octocat] with the one repository
    [hello]: it lists six commits and two files for it, names two
    languages, and has no README.  The model answers with a text around a
    record, which the reader reads as the record of the scenario. *)

Definition demo_headers : Api.json := headers_of "t0ken".

Definition demo_commit (message : string) : Api.json :=
  Api.JDict [("sha", Api.JStr "0"); ("commit", Api.JDict [("message", Api.JStr message)])].

Definition demo_answer (status : Z) (body : result Api.json) : Api.response :=
  {| Api.status_code := status; Api.json_body := body; Api.text := "" |}.

Definition demo_get (url : Api.json) (headers : option Api.json) (w : unit)
  : result Api.response * unit :=
  match url with
  | Api.JStr u =>
      if String.eqb u "https://api.github.com/users/octocat/repos" then
        (Ok (demo_answer 200
               (Ok (Api.JList [Api.JDict [("id", Api.JInt 1); ("name", Api.JStr "hello")]]))), w)
      else if String.eqb u "https://api.github.com/repos/octocat/hello/commits" then
        (Ok (demo_answer 200
               (Ok (Api.JList (map demo_commit ["six"; "five"; "four"; "three"; "two"; "one"])))), w)
      else if String.eqb u "https://api.github.com/repos/octocat/hello/contents" then
        (Ok (demo_answer 200
               (Ok (Api.JList [Api.JDict [("name", Api.JStr "app.py")];
                               Api.JDict [("name", Api.JStr "README.md")]]))), w)
      else if String.eqb u "https://api.github.com/repos/octocat/hello/languages" then
        (Ok (demo_answer 200 (Ok (Api.JDict [("Python", Api.JInt 9000); ("JS", Api.JInt 100)]))), w)
      else (Ok (demo_answer 404 (Ok (Api.JDict [("message", Api.JStr "Not Found")]))), w)
  | _ => (Raise ExternalError, w)
  end.

Definition demo_model (prompt : string) (w : unit) : result string * unit :=
  (Ok "The analysis: {scenario} ", w).

Definition loads_scenario (s : string) : result value :=
  if String.eqb s "{scenario}" then Ok (VDict scenario) else Raise ValueError.

Definition demo : services :=
  {| world := unit;
     requests_get := demo_get;
     prompt_format := format_plain;
     json_loads := loads_scenario;
     genai_configure := fun api_key w => (Ok tt, w);
     new_model := fun api_key w => (Ok demo_model, w);
     str_of := fun v => "?" |}.

Definition demo_llm : IO.model demo := demo_model.

(** A model that is out of service. *)
Definition mute_llm : IO.model demo :=
  fun prompt w => (Raise ExternalError, w).

(** A GitHub that answers every request with the status 404. *)
Definition offline : services :=
  {| world := unit;
     requests_get := fun url headers w =>
       (Ok (demo_answer 404 (Ok (Api.JDict [("message", Api.JStr "Not Found")]))), w);
     prompt_format := format_plain;
     json_loads := loads_scenario;
     genai_configure := fun api_key w => (Ok tt, w);
     new_model := fun api_key w => (Ok demo_model, w);
     str_of := fun v => "?" |}.

Definition offline_llm : IO.model offline := demo_model.

(** ** Checking a property on every integer of a range *)

Lemma all_upto_spec (n : nat) (P : Z -> bool) :
  all_upto n P = true -> forall b, 0 <= b < Z.of_nat n -> P b = true.
Proof.
  unfold all_upto. rewrite forallb_forall. intros H b Hb.
  apply H. apply in_map_iff. exists (Z.to_nat b). split; [lia|].
  apply in_seq. lia.
Qed.

(** ** Tier lookups *)

(** On a small letter, the letters that are the same up to case are the
    ones that [lower] takes to it. *)
Lemma same_letter_small (x y : ascii) :
  is_small y = true -> Spec.same_letter x y = Ascii.eqb (lower_char x) y.
Proof.
  destruct y as [[] [] [] [] [] [] [] []]; try discriminate; intros _;
    destruct x as [[] [] [] [] [] [] [] []]; reflexivity.
Qed.

Lemma eq_ignoring_case_small (a k : string) :
  all_small k = true -> Spec.eq_ignoring_case a k = String.eqb (lower a) k.
Proof.
  revert a. induction k as [|y k IH]; intros [|x a] H; try reflexivity.
  cbn [all_small] in H. apply andb_prop in H as [Hy Hk].
  cbn [Spec.eq_ignoring_case lower String.eqb].
  rewrite (same_letter_small x y Hy), (IH a Hk).
  destruct (Ascii.eqb (lower_char x) y); reflexivity.
Qed.




Lemma lower_char_idem (c : ascii) : lower_char (lower_char c) = lower_char c.
Proof.
  destruct c as [[] [] [] [] [] [] [] []]; reflexivity.
Qed.

Lemma lower_idem (s : string) : lower (lower s) = lower s.
Proof.
  induction s as [|c s IH]; simpl; [reflexivity|].
  now rewrite lower_char_idem, IH.
Qed.

Lemma complexity_lookup (tier : string) :
  default 0 (complexity_scores !! lower tier) = Spec.complexity_points tier.
Proof.
  unfold Spec.complexity_points, complexity_scores.
  rewrite !eq_ignoring_case_small by reflexivity.
  generalize (lower tier) as k. intros k.
  repeat (rewrite lookup_insert; case_decide as E;
          [subst k; reflexivity |
           pose proof E as E'; apply not_eq_sym, String.eqb_neq in E'; rewrite ?E'; clear E E']).
  rewrite lookup_empty. reflexivity.
Qed.

Lemma activity_lookup (tier : string) :
  default 0 (activity_scores !! lower tier) = Spec.activity_points tier.
Proof.
  unfold Spec.activity_points, activity_scores.
  rewrite !eq_ignoring_case_small by reflexivity.
  generalize (lower tier) as k. intros k.
  repeat (rewrite lookup_insert; case_decide as E;
          [subst k; reflexivity |
           pose proof E as E'; apply not_eq_sym, String.eqb_neq in E'; rewrite ?E'; clear E E']).
  rewrite lookup_empty. reflexivity.
Qed.

Lemma complexity_points_range (tier : string) :
  0 <= Spec.complexity_points tier <= 30.
Proof.
  unfold Spec.complexity_points.
  repeat match goal with |- context [if ?b then _ else _] => destruct b end; lia.
Qed.

Lemma activity_points_range (tier : string) :
  0 <= Spec.activity_points tier <= 30.
Proof.
  unfold Spec.activity_points.
  repeat match goal with |- context [if ?b then _ else _] => destruct b end; lia.
Qed.

Lemma base_score_range (ls ts als : list value) (c ca : string) :
  0 <= Spec.base_score ls ts als c ca <= 100.
Proof.
  unfold Spec.base_score, Spec.count.
  pose proof (complexity_points_range c). pose proof (activity_points_range ca).
  lia.
Qed.

(** ** Binary digits *)

Lemma digits2_pos_size (p : positive) : digits2_pos p = Pos.size p.
Proof. induction p; simpl; congruence. Qed.

Lemma Zdigits2_log2 (m : Z) : 0 < m -> Zdigits2 m = Z.log2 m + 1.
Proof.
  destruct m as [|p|p]; try lia. intros _. simpl.
  rewrite digits2_pos_size. destruct p; simpl; lia.
Qed.

Lemma digits_bounds (m : Z) :
  0 < m -> 2 ^ (Zdigits2 m - 1) <= m < 2 ^ Zdigits2 m.
Proof.
  intros Hm. rewrite Zdigits2_log2 by lia.
  replace (Z.log2 m + 1 - 1) with (Z.log2 m) by lia.
  pose proof (Z.log2_spec m Hm). replace (Z.log2 m + 1) with (Z.succ (Z.log2 m)) by lia.
  lia.
Qed.

Lemma digits_pos (m : Z) : 0 < m -> 0 < Zdigits2 m.
Proof. intros Hm. rewrite Zdigits2_log2 by lia. pose proof (Z.log2_nonneg m). lia. Qed.

Lemma digits_le (a b : Z) : 0 < a <= b -> Zdigits2 a <= Zdigits2 b.
Proof.
  intros H. rewrite !Zdigits2_log2 by lia.
  pose proof (Z.log2_le_mono a b). lia.
Qed.

Lemma digits_mul_pow2 (m j : Z) :
  0 < m -> 0 <= j -> Zdigits2 (m * 2 ^ j) = Zdigits2 m + j.
Proof.
  intros Hm Hj. assert (0 < 2 ^ j) by (apply Z.pow_pos_nonneg; lia).
  rewrite !Zdigits2_log2 by nia.
  rewrite Z.log2_mul_pow2 by lia. lia.
Qed.

Lemma digits_upper (m d : Z) : 0 < m < 2 ^ d -> Zdigits2 m <= d.
Proof.
  intros [Hm Hd]. rewrite Zdigits2_log2 by lia.
  assert (0 <= d).
  { destruct (Z.le_gt_cases 0 d); [lia|]. rewrite Z.pow_neg_r in Hd by lia. lia. }
  pose proof (proj1 (Z.log2_lt_pow2 m d Hm) Hd). lia.
Qed.

Lemma digits_lower (m d : Z) : 0 < m -> 2 ^ (d - 1) <= m -> d <= Zdigits2 m.
Proof.
  intros Hm Hd. rewrite Zdigits2_log2 by lia.
  destruct (Z.le_gt_cases 1 d) as [H1|H1].
  - pose proof (proj1 (Z.log2_le_pow2 m (d - 1) Hm) Hd). lia.
  - pose proof (Z.log2_nonneg m). lia.
Qed.

(** ** Shifting right with a round bit and a sticky bit *)

Lemma iter_pos_nat {A} (f : A -> A) (p : positive) (x : A) :
  SpecFloat.iter_pos f p x = Nat.iter (Pos.to_nat p) f x.
Proof.
  revert x. induction p as [p IH|p IH|]; intros x; cbn [SpecFloat.iter_pos].
  - rewrite !IH, Pos2Nat.inj_xI, <- Nat.iter_add.
    replace (S (2 * Pos.to_nat p)) with (S (Pos.to_nat p + Pos.to_nat p))%nat by lia.
    rewrite Nat.iter_succ_r. reflexivity.
  - rewrite !IH, Pos2Nat.inj_xO, <- Nat.iter_add. f_equal. lia.
  - reflexivity.
Qed.

Lemma shr_1_nonneg (m : Z) (r s : bool) :
  0 <= m ->
  shr_1 (Build_shr_record m r s) = Build_shr_record (m / 2) (Z.odd m) (r || s).
Proof.
  intros Hm. rewrite <- Z.div2_div.
  destruct m as [|[p|p|]|p]; try lia; reflexivity.
Qed.

Lemma mod_pow2_succ (m k : Z) :
  0 <= k -> m mod 2 ^ (k + 1) = m mod 2 ^ k + 2 ^ k * Z.b2z (Z.testbit m k).
Proof.
  intros Hk. rewrite Z.pow_add_r, Z.pow_1_r by lia.
  assert (0 < 2 ^ k) by (apply Z.pow_pos_nonneg; lia).
  rewrite Z.rem_mul_r by lia. rewrite Z.testbit_spec' by lia. reflexivity.
Qed.

Lemma iter_shr_1 (m : Z) (r0 s0 : bool) (k : nat) :
  0 <= m ->
  Nat.iter (S k) shr_1 (Build_shr_record m r0 s0)
  = Build_shr_record (m / 2 ^ Z.of_nat (S k)) (Z.testbit m (Z.of_nat k))
      (negb (m mod 2 ^ Z.of_nat k =? 0) || r0 || s0).
Proof.
  intros Hm. induction k as [|k IH].
  - change (Nat.iter 1 shr_1 ?y) with (shr_1 y). rewrite shr_1_nonneg by lia.
    change (Z.of_nat 1) with 1. change (Z.of_nat 0) with 0.
    rewrite Z.pow_1_r, Z.pow_0_r, Z.mod_1_r, Z.bit0_odd. simpl.
    reflexivity.
  - rewrite Nat.iter_succ, IH.
    assert (0 < 2 ^ Z.of_nat (S k)) by (apply Z.pow_pos_nonneg; lia).
    rewrite shr_1_nonneg by (apply Z.div_pos; lia).
    f_equal.
    + rewrite Z.div_div by lia. f_equal.
      rewrite (Nat2Z.inj_succ (S k)), Z.pow_succ_r by lia. lia.
    + rewrite Z.testbit_odd, Z.shiftr_div_pow2 by lia. reflexivity.
    + rewrite Nat2Z.inj_succ. replace (Z.succ (Z.of_nat k)) with (Z.of_nat k + 1) by lia.
      rewrite mod_pow2_succ by lia.
      assert (0 < 2 ^ Z.of_nat k) by (apply Z.pow_pos_nonneg; lia).
      pose proof (Z.mod_pos_bound m (2 ^ Z.of_nat k) ltac:(lia)).
      destruct (Z.testbit m (Z.of_nat k)); simpl Z.b2z.
      * replace (m mod 2 ^ Z.of_nat k + 2 ^ Z.of_nat k * 1 =? 0) with false
          by (symmetry; apply Z.eqb_neq; lia).
        simpl. destruct (negb _), r0, s0; reflexivity.
      * rewrite Z.mul_0_r, Z.add_0_r.
        destruct (negb _), r0, s0; reflexivity.
Qed.

Lemma shr_closed (m : Z) (r0 s0 : bool) (e n : Z) :
  0 <= m -> 0 < n ->
  shr (Build_shr_record m r0 s0) e n
  = (Build_shr_record (m / 2 ^ n) (Z.testbit m (n - 1))
       (negb (m mod 2 ^ (n - 1) =? 0) || r0 || s0), e + n).
Proof.
  intros Hm Hn. destruct n as [|p|p]; try lia. unfold shr.
  rewrite iter_pos_nat.
  destruct (Pos2Nat.is_succ p) as [k Hk]. rewrite Hk, iter_shr_1 by lia.
  assert (Z.pos p = Z.of_nat (S k)) as -> by lia.
  repeat f_equal; lia.
Qed.

(** ** Rounding to the nearest integer, ties to even *)

Lemma rne_choice (q : Z) (l : location) :
  q <= round_nearest_even q l <= q + 1.
Proof.
  destruct l as [|[]]; simpl; try lia. destruct (Z.even q); lia.
Qed.

Lemma rne_shift_nonneg_exp (m e : Z) : 0 <= e -> rne_shift m e = m * 2 ^ e.
Proof. intros He. unfold rne_shift. rewrite (proj2 (Z.leb_le 0 e)) by lia. reflexivity. Qed.

Lemma rne_shift_neg_exp (m n : Z) :
  0 < n ->
  rne_shift m (- n)
  = if m mod 2 ^ n <? 2 ^ (n - 1) then m / 2 ^ n
    else if 2 ^ (n - 1) <? m mod 2 ^ n then m / 2 ^ n + 1
    else if Z.even (m / 2 ^ n) then m / 2 ^ n else m / 2 ^ n + 1.
Proof.
  intros Hn. unfold rne_shift. rewrite (proj2 (Z.leb_gt 0 (- n))) by lia.
  rewrite Z.opp_involutive. reflexivity.
Qed.

Lemma round_shr_exact (m e n : Z) :
  0 <= m -> 0 < n ->
  round_nearest_even (shr_m (fst (shr (Build_shr_record m false false) e n)))
      (loc_of_shr_record (fst (shr (Build_shr_record m false false) e n)))
  = rne_shift m (- n).
Proof.
  intros Hm Hn. rewrite shr_closed by lia. cbn [fst shr_m].
  rewrite rne_shift_neg_exp by lia.
  pose proof (mod_pow2_succ m (n - 1) ltac:(lia)) as Hr.
  replace (n - 1 + 1) with n in Hr by lia.
  assert (0 < 2 ^ (n - 1)) as Hh by (apply Z.pow_pos_nonneg; lia).
  pose proof (Z.mod_pos_bound m (2 ^ (n - 1)) Hh) as Hl.
  rewrite !orb_false_r.
  destruct (Z.testbit m (n - 1)); simpl Z.b2z in Hr.
  - rewrite (proj2 (Z.ltb_ge _ _)) by lia.
    destruct (Z.eqb_spec (m mod 2 ^ (n - 1)) 0) as [E|E]; simpl.
    + rewrite (proj2 (Z.ltb_ge _ _)) by lia. reflexivity.
    + rewrite (proj2 (Z.ltb_lt _ _)) by lia. reflexivity.
  - rewrite (proj2 (Z.ltb_lt _ _)) by lia.
    destruct (negb _); reflexivity.
Qed.

Lemma rne_shift_bounds (m n : Z) :
  0 < n -> m / 2 ^ n <= rne_shift m (- n) <= m / 2 ^ n + 1.
Proof.
  intros Hn. rewrite rne_shift_neg_exp by lia.
  repeat match goal with |- context [if ?b then _ else _] => destruct b end; lia.
Qed.

Lemma rne_shift_mono (a b e : Z) : a <= b -> rne_shift a e <= rne_shift b e.
Proof.
  intros Hab. destruct (Z.le_gt_cases 0 e) as [He|He].
  - rewrite !rne_shift_nonneg_exp by lia.
    apply Z.mul_le_mono_nonneg_r; [apply Z.pow_nonneg|]; lia.
  - replace e with (- (- e)) by lia. set (n := - e). assert (0 < n) as Hn by lia.
    rewrite !rne_shift_neg_exp by lia.
    assert (2 ^ n = 2 * 2 ^ (n - 1)) as HP.
    { rewrite <- Z.pow_succ_r by lia. f_equal. lia. }
    assert (0 < 2 ^ (n - 1)) as Hh by (apply Z.pow_pos_nonneg; lia).
    pose proof (Z.div_mod a (2 ^ n) ltac:(lia)) as Ea.
    pose proof (Z.div_mod b (2 ^ n) ltac:(lia)) as Eb.
    pose proof (Z.mod_pos_bound a (2 ^ n) ltac:(lia)) as Ba.
    pose proof (Z.mod_pos_bound b (2 ^ n) ltac:(lia)) as Bb.
    pose proof (Z.div_le_mono a b (2 ^ n) ltac:(lia) Hab) as Hq.
    destruct (Z.eq_dec (a / 2 ^ n) (b / 2 ^ n)) as [Eq|Nq].
    + rewrite Eq in *.
      repeat match goal with |- context [if ?c <? ?d then _ else _] =>
               destruct (Z.ltb_spec c d) end;
      try destruct (Z.even _); lia.
    + repeat match goal with |- context [if ?c <? ?d then _ else _] =>
               destruct (Z.ltb_spec c d) end;
      repeat match goal with |- context [Z.even ?c] => destruct (Z.even c) end; lia.
Qed.

Lemma rne_shift_scale (m e j : Z) :
  0 <= j -> rne_shift (m * 2 ^ j) (e - j) = rne_shift m e.
Proof.
  intros Hj. assert (0 < 2 ^ j) as Hpj by (apply Z.pow_pos_nonneg; lia).
  destruct (Z.le_gt_cases 0 e) as [He|He].
  - rewrite (rne_shift_nonneg_exp m e) by lia.
    destruct (Z.le_gt_cases 0 (e - j)) as [Hej|Hej].
    + rewrite rne_shift_nonneg_exp by lia.
      rewrite <- Z.mul_assoc, <- Z.pow_add_r by lia. f_equal. f_equal. lia.
    + replace (e - j) with (- (j - e)) by lia.
      rewrite rne_shift_neg_exp by lia.
      assert (m * 2 ^ j = m * 2 ^ e * 2 ^ (j - e)) as ->.
      { rewrite <- Z.mul_assoc, <- Z.pow_add_r by lia. f_equal. f_equal. lia. }
      assert (0 < 2 ^ (j - e)) by (apply Z.pow_pos_nonneg; lia).
      assert (0 < 2 ^ (j - e - 1)) by (apply Z.pow_pos_nonneg; lia).
      rewrite Z.mod_mul, Z.div_mul by lia.
      rewrite (proj2 (Z.ltb_lt _ _)) by lia. reflexivity.
  - replace e with (- (- e)) at 2 by lia.
    replace (e - j) with (- (- e + j)) by lia.
    set (n := - e). assert (0 < n) as Hn by lia.
    rewrite !rne_shift_neg_exp by lia.
    assert (0 < 2 ^ n) by (apply Z.pow_pos_nonneg; lia).
    assert (0 < 2 ^ (n - 1)) by (apply Z.pow_pos_nonneg; lia).
    rewrite (Z.pow_add_r 2 n j) by lia.
    replace (n + j - 1) with (n - 1 + j) by lia.
    rewrite (Z.pow_add_r 2 (n - 1) j) by lia.
    rewrite Z.div_mul_cancel_r by lia.
    rewrite Z.mul_mod_distr_r by lia.
    pose proof (Z.mod_pos_bound m (2 ^ n) ltac:(lia)).
    destruct (Z.ltb_spec (m mod 2 ^ n) (2 ^ (n - 1)));
      [rewrite (proj2 (Z.ltb_lt _ _)) by nia; reflexivity
      |rewrite (proj2 (Z.ltb_ge _ _)) by nia].
    destruct (Z.ltb_spec (2 ^ (n - 1)) (m mod 2 ^ n));
      [rewrite (proj2 (Z.ltb_lt _ _)) by nia; reflexivity
      |rewrite (proj2 (Z.ltb_ge _ _)) by nia]. reflexivity.
Qed.

Lemma rne_shift_exact (g n : Z) : 0 <= n -> rne_shift (g * 2 ^ n) (- n) = g.
Proof.
  intros Hn. replace (- n) with (0 - n) by lia.
  rewrite rne_shift_scale by lia. rewrite rne_shift_nonneg_exp by lia.
  rewrite Z.pow_0_r. lia.
Qed.

(** ** One rounding, in closed form *)

Lemma fexp_eq (x : Z) : fexp prec emax x = Z.max (x - 53) (-1074).
Proof. reflexivity. Qed.

Lemma fexp_mono (x y : Z) : x <= y -> fexp prec emax x <= fexp prec emax y.
Proof. rewrite !fexp_eq. lia. Qed.

Lemma loc_of_record_of_loc (m : Z) (l : location) :
  loc_of_shr_record (shr_record_of_loc m l) = l
  /\ shr_m (shr_record_of_loc m l) = m.
Proof. destruct l as [|[]]; split; reflexivity. Qed.

Lemma record_of_loc_shape (m : Z) (l : location) :
  exists r s, shr_record_of_loc m l = Build_shr_record m r s.
Proof. destruct l as [|[]]; eauto. Qed.

Lemma shr_nonpos (mrs : shr_record) (e n : Z) : n <= 0 -> shr mrs e n = (mrs, e).
Proof. destruct n; try lia; reflexivity. Qed.

Lemma second_phase (s : bool) (M t : Z) :
  -1074 <= t -> 0 <= M <= 2 ^ 53 ->
  (let '(mrs, e) := shr_fexp prec emax M t loc_Exact in
   match shr_m mrs with
   | Z0 => S754_zero s
   | Zpos m => if e <=? emax - prec then S754_finite s m e else S754_infinity s
   | Zneg _ => S754_nan
   end) = finish s M t.
Proof.
  intros Ht HM. unfold shr_fexp. rewrite fexp_eq. cbn [shr_record_of_loc].
  change (emax - prec) with 971.
  destruct (Z.eq_dec M 0) as [->|H0].
  - simpl Zdigits2. rewrite shr_nonpos by lia. reflexivity.
  - destruct (Z.eq_dec M (2 ^ 53)) as [->|H53].
    + change (Zdigits2 (2 ^ 53)) with 54.
      replace (Z.max (54 + t - 53) (-1074) - t) with 1 by lia.
      rewrite shr_closed by lia. reflexivity.
    + pose proof (digits_upper M 53 ltac:(lia)).
      rewrite shr_nonpos by lia. cbn [shr_m].
      destruct M as [|p|p]; try lia. unfold finish.
      rewrite (proj2 (Z.eqb_neq _ _) H53). reflexivity.
Qed.

(** [binary_round_aux] on a mantissa that is long enough for its exponent:
    one shift to the target exponent, one choice between the two
    neighbours. *)
Lemma round_aux_closed (s : bool) (m e : Z) (l : location) :
  0 <= m -> e <= fexp prec emax (Zdigits2 m + e) ->
  exists M,
    binary_round_aux prec emax s m e l = finish s M (fexp prec emax (Zdigits2 m + e))
    /\ m / 2 ^ (fexp prec emax (Zdigits2 m + e) - e) <= M
       <= m / 2 ^ (fexp prec emax (Zdigits2 m + e) - e) + 1
    /\ 0 <= M <= 2 ^ 53
    /\ (l = loc_Exact -> M = rne_shift m (e - fexp prec emax (Zdigits2 m + e))).
Proof.
  intros Hm He. set (t := fexp prec emax (Zdigits2 m + e)) in *.
  assert (-1074 <= t) as Ht by (unfold t; rewrite fexp_eq; lia).
  assert (Zdigits2 m + e - 53 <= t) as Ht' by (unfold t; rewrite fexp_eq; lia).
  assert (0 < 2 ^ (t - e)) as Hp by (apply Z.pow_pos_nonneg; lia).
  assert (m / 2 ^ (t - e) < 2 ^ 53) as Hq.
  { apply Z.div_lt_upper_bound; [lia|].
    destruct (Z.eq_dec m 0) as [->|]; [lia|].
    pose proof (digits_bounds m ltac:(lia)) as [_ Hd].
    apply Z.lt_le_trans with (1 := Hd).
    rewrite <- Z.pow_add_r by lia. apply Z.pow_le_mono_r; lia. }
  assert (0 <= m / 2 ^ (t - e)) as Hq0 by (apply Z.div_pos; lia).
  unfold binary_round_aux, shr_fexp. fold t.
  destruct (Z.eq_dec (t - e) 0) as [E0|E0].
  - rewrite E0 in *. rewrite (shr_nonpos _ e 0) by lia.
    destruct (loc_of_record_of_loc m l) as [-> ->].
    rewrite Z.pow_0_r, Z.div_1_r in *.
    pose proof (rne_choice m l) as Hc.
    exists (round_nearest_even m l). split; [|split; [|split]].
    + replace t with e by lia. apply second_phase; lia.
    + lia.
    + lia.
    + intros ->. simpl. replace (e - t) with 0 by lia.
      rewrite rne_shift_nonneg_exp by lia. lia.
  - destruct (record_of_loc_shape m l) as (r0 & s0 & Hrec).
    pose proof (shr_closed m r0 s0 e (t - e) Hm ltac:(lia)) as Hs.
    rewrite Hrec, Hs. cbn [shr_m].
    replace (e + (t - e)) with t by lia.
    match goal with |- context [round_nearest_even ?q ?loc] =>
      pose proof (rne_choice q loc) as Hc; set (M := round_nearest_even q loc) in * end.
    exists M. split; [|split; [|split]].
    + apply second_phase; lia.
    + lia.
    + lia.
    + intros ->. simpl in Hrec. injection Hrec as <- <-.
      pose proof (round_shr_exact m e (t - e) Hm ltac:(lia)) as Hx.
      rewrite Hs in Hx. cbn [fst shr_m] in Hx. unfold M. rewrite Hx.
      f_equal. lia.
Qed.

Lemma round_aux_normal (s : bool) (m e : Z) (l : location) :
  0 <= m -> e <= fexp prec emax (Zdigits2 m + e) ->
  -1074 < fexp prec emax (Zdigits2 m + e) ->
  2 ^ 52 <= m / 2 ^ (fexp prec emax (Zdigits2 m + e) - e).
Proof.
  intros Hm He Ht. rewrite fexp_eq in *.
  assert (m <> 0) as Hm0.
  { intros ->. simpl in *. lia. }
  set (t := Z.max (Zdigits2 m + e - 53) (-1074)) in *.
  assert (t = Zdigits2 m + e - 53) as Et by lia.
  assert (0 < 2 ^ (t - e)) as Hp by (apply Z.pow_pos_nonneg; lia).
  apply Z.div_le_lower_bound; [lia|].
  pose proof (digits_bounds m ltac:(lia)) as [Hd _].
  rewrite <- Z.pow_add_r by lia.
  replace (t - e + 52) with (Zdigits2 m - 1) by lia. exact Hd.
Qed.

Lemma iter_xO (m d : positive) : Z.pos (Pos.iter xO m d) = Z.pos m * 2 ^ Z.pos d.
Proof.
  induction d as [|d IH] using Pos.peano_ind.
  - simpl Pos.iter. lia.
  - rewrite Pos.iter_succ, Pos2Z.inj_xO, IH, Pos2Z.inj_succ, Z.pow_succ_r by lia. lia.
Qed.

Lemma shl_align_value (m : positive) (e e' : Z) :
  e' <= e ->
  Z.pos (fst (shl_align m e e')) = Z.pos m * 2 ^ (e - e')
  /\ snd (shl_align m e e') = e'.
Proof.
  intros He. unfold shl_align.
  destruct (e' - e) as [|d|d] eqn:E; try lia; cbn [fst snd].
  - replace (e - e') with 0 by lia. rewrite Z.pow_0_r. lia.
  - rewrite iter_xO. replace (e - e') with (Z.pos d) by lia. lia.
Qed.

Lemma shl_align_none (m : positive) (e e' : Z) :
  e <= e' -> shl_align m e e' = (m, e).
Proof.
  intros He. unfold shl_align. destruct (e' - e) eqn:E; try lia; reflexivity.
Qed.

(** [binary_round]: the mantissa is first brought to the target exponent
    when it is too short, and then rounded. *)
Lemma round_closed (s : bool) (p : positive) (e : Z) :
  binary_round prec emax s p e
  = finish s (rne_shift (Z.pos p) (e - fexp prec emax (Zdigits2 (Z.pos p) + e)))
      (fexp prec emax (Zdigits2 (Z.pos p) + e)).
Proof.
  unfold binary_round. change (Z.pos (digits2_pos p)) with (Zdigits2 (Z.pos p)).
  set (t := fexp prec emax (Zdigits2 (Z.pos p) + e)).
  destruct (Z.le_gt_cases e t) as [Het|Het].
  - rewrite shl_align_none by lia.
    destruct (round_aux_closed s (Z.pos p) e loc_Exact ltac:(lia) Het)
      as (M & -> & _ & _ & HM).
    rewrite HM by reflexivity. reflexivity.
  - destruct (shl_align_value p e t ltac:(lia)) as [Hv Hs].
    destruct (shl_align p e t) as [mz ez]. cbn [fst snd] in *. subst ez.
    assert (Zdigits2 (Z.pos mz) + t = Zdigits2 (Z.pos p) + e) as Hd.
    { rewrite Hv, digits_mul_pow2 by lia. lia. }
    assert (fexp prec emax (Zdigits2 (Z.pos mz) + t) = t) as Ht by (rewrite Hd; reflexivity).
    destruct (round_aux_closed s (Z.pos mz) t loc_Exact ltac:(lia) ltac:(lia))
      as (M & -> & _ & _ & HM).
    rewrite HM, Ht by reflexivity. f_equal.
    rewrite Z.sub_diag, rne_shift_nonneg_exp, Z.pow_0_r, Z.mul_1_r by lia.
    rewrite rne_shift_nonneg_exp by lia. exact Hv.
Qed.

Lemma normalize_closed (a k : Z) (z : bool) :
  a <> 0 ->
  binary_normalize prec emax a k z
  = finish (a <? 0) (rne_shift (Z.abs a) (k - fexp prec emax (Zdigits2 (Z.abs a) + k)))
      (fexp prec emax (Zdigits2 (Z.abs a) + k)).
Proof.
  intros Ha. destruct a as [|p|p]; [lia| |]; apply round_closed.
Qed.

Lemma normalize_scale (a k j : Z) (z : bool) :
  0 <= j -> binary_normalize prec emax (a * 2 ^ j) (k - j) z = binary_normalize prec emax a k z.
Proof.
  intros Hj. assert (0 < 2 ^ j) by (apply Z.pow_pos_nonneg; lia).
  destruct (Z.eq_dec a 0) as [->|Ha]; [reflexivity|].
  rewrite !normalize_closed by nia.
  rewrite Z.abs_mul, (Z.abs_eq (2 ^ j)) by lia.
  rewrite digits_mul_pow2 by lia.
  replace (Zdigits2 (Z.abs a) + j + (k - j)) with (Zdigits2 (Z.abs a) + k) by lia.
  set (t := fexp prec emax _).
  replace (k - j - t) with (k - t - j) by lia. rewrite rne_shift_scale by lia.
  f_equal. destruct (Z.ltb_spec a 0), (Z.ltb_spec (a * 2 ^ j) 0); try reflexivity; nia.
Qed.

Lemma pow_2098 : 2 ^ 2098 = 2 ^ 53 * 2 ^ 2045.
Proof. rewrite <- Z.pow_add_r by lia. reflexivity. Qed.

Lemma xval_finish (s : bool) (M t : Z) :
  0 <= M <= 2 ^ 53 -> -1074 <= t -> (-1074 < t -> 2 ^ 52 <= M) ->
  xval (finish s M t) = cond_Zopp s (Z.min (M * 2 ^ (t + 1074)) (2 ^ 2098)).
Proof.
  intros HM Ht Hn.
  assert (forall b, xval (S754_infinity b) = cond_Zopp b (2 ^ 53 * 2 ^ 2045)) as HI
    by (intros b; cbn [xval]; rewrite pow_2098; reflexivity).
  rewrite pow_2098.
  assert (0 < 2 ^ 2045) as HQ by (apply Z.pow_pos_nonneg; lia).
  assert (0 < 2 ^ (t + 1074)) as HP by (apply Z.pow_pos_nonneg; lia).
  assert (t <= 971 -> 2 ^ (t + 1074) <= 2 ^ 2045) as Hle
    by (intros; apply Z.pow_le_mono_r; lia).
  assert (971 <= t -> 2 ^ (t + 1074) = 2 ^ 2045 * 2 ^ (t - 971)) as Hge.
  { intros. rewrite <- Z.pow_add_r by lia. f_equal. lia. }
  assert (971 < t -> 2 <= 2 ^ (t - 971)) as Hge'.
  { intros. change 2 with (2 ^ 1) at 1. apply Z.pow_le_mono_r; lia. }
  generalize dependent (2 ^ 2045). intros Q HI HQ Hle Hge.
  destruct M as [|p|p]; [simpl; destruct s; simpl; lia | | lia].
  unfold finish.
  destruct (Z.eqb_spec (Z.pos p) (2 ^ 53)) as [E|E].
  - rewrite E. destruct (Z.leb_spec (t + 1) 971) as [L|L]; rewrite ?HI; cbn [xval]; f_equal.
    + replace (t + 1 + 1074) with (t + 1074 + 1) by lia.
      rewrite Z.pow_add_r, Z.pow_1_r by lia.
      change (Z.pos (2 ^ 52)) with (2 ^ 52). specialize (Hle ltac:(lia)).
      rewrite Z.min_l by nia. change (2 ^ 53) with (2 ^ 52 * 2). lia.
    + assert (2 ^ (t - 971) >= 1) by (pose proof (Z.pow_pos_nonneg 2 (t - 971)); lia).
      specialize (Hge ltac:(lia)). rewrite Hge. rewrite Z.min_r by nia. reflexivity.
  - destruct (Z.leb_spec t 971) as [L|L]; rewrite ?HI; cbn [xval]; f_equal.
    + specialize (Hle L). rewrite Z.min_l by nia. reflexivity.
    + specialize (Hn ltac:(lia)). specialize (Hge ltac:(lia)). specialize (Hge' L).
      rewrite Hge. rewrite Z.min_r; [reflexivity|].
      change (2 ^ 53) with (2 ^ 52 * 2). nia.
Qed.

(** What one rounding of [p * 2^e] produces. *)
Lemma round_spec (s : bool) (p : positive) (e : Z) :
  let t := fexp prec emax (Zdigits2 (Z.pos p) + e) in
  let M := rne_shift (Z.pos p) (e - t) in
  binary_round prec emax s p e = finish s M t
  /\ 0 <= M <= 2 ^ 53 /\ (-1074 < t -> 2 ^ 52 <= M) /\ -1074 <= t.
Proof.
  intros t M. split; [apply round_closed|].
  assert (-1074 <= t) as Ht by (unfold t; rewrite fexp_eq; lia).
  destruct (Z.le_gt_cases e t) as [Het|Het].
  - destruct (round_aux_closed s (Z.pos p) e loc_Exact ltac:(lia) Het)
      as (M' & _ & Hb & HM' & HM).
    specialize (HM eq_refl). fold t in HM, Hb. fold M in HM. subst M'.
    repeat split; try lia. intros Hn.
    pose proof (round_aux_normal s (Z.pos p) e loc_Exact ltac:(lia) Het Hn). fold t in H. lia.
  - assert (M = Z.pos p * 2 ^ (e - t)) as EM by (unfold M; apply rne_shift_nonneg_exp; lia).
    assert (0 < 2 ^ (e - t)) by (apply Z.pow_pos_nonneg; lia).
    pose proof (digits_mul_pow2 (Z.pos p) (e - t) ltac:(lia) ltac:(lia)) as Hd.
    rewrite <- EM in Hd.
    assert (Zdigits2 (Z.pos p) + e - 53 <= t) as Ht1 by (unfold t; rewrite fexp_eq; lia).
    assert (Zdigits2 M <= 53) as Hd53 by lia.
    pose proof (digits_bounds M ltac:(nia)) as [Hlo Hhi].
    assert (M < 2 ^ 53).
    { apply Z.lt_le_trans with (1 := Hhi). apply Z.pow_le_mono_r; lia. }
    repeat split; try lia. intros Hn.
    assert (t = Zdigits2 (Z.pos p) + e - 53) as Ht2.
    { clear - Hn. unfold t in *. rewrite fexp_eq in *. lia. }
    assert (Zdigits2 M = 53) as E53 by lia.
    rewrite E53 in Hlo. exact Hlo.
Qed.

Lemma xval_round (s : bool) (p : positive) (e : Z) :
  xval (binary_round prec emax s p e)
  = cond_Zopp s
      (Z.min (rne_shift (Z.pos p) (e - fexp prec emax (Zdigits2 (Z.pos p) + e))
              * 2 ^ (fexp prec emax (Zdigits2 (Z.pos p) + e) + 1074))
             (2 ^ 2098)).
Proof.
  destruct (round_spec s p e) as (-> & HM & Hn & Ht).
  apply xval_finish; assumption.
Qed.

Lemma round_mono_pos (a b : positive) (k : Z) :
  (a <= b)%positive ->
  xval (binary_round prec emax false a k) <= xval (binary_round prec emax false b k).
Proof.
  intros Hab. rewrite !xval_round. cbn [cond_Zopp].
  apply Z.min_le_compat_r.
  destruct (round_spec false a k) as (_ & HMa & Hna & Hta).
  destruct (round_spec false b k) as (_ & HMb & Hnb & Htb).
  set (ta := fexp prec emax (Zdigits2 (Z.pos a) + k)) in *.
  set (tb := fexp prec emax (Zdigits2 (Z.pos b) + k)) in *.
  set (Ma := rne_shift (Z.pos a) (k - ta)) in *.
  set (Mb := rne_shift (Z.pos b) (k - tb)) in *.
  assert (ta <= tb) as Ht.
  { apply fexp_mono. pose proof (digits_le (Z.pos a) (Z.pos b) ltac:(lia)). lia. }
  assert (0 < 2 ^ (ta + 1074)) as HPa by (apply Z.pow_pos_nonneg; lia).
  destruct (Z.eq_dec ta tb) as [E|NE].
  - assert (Ma <= Mb) as HM.
    { unfold Ma, Mb. rewrite E. apply rne_shift_mono. lia. }
    rewrite <- E. apply Z.mul_le_mono_nonneg_r; lia.
  - assert (2 ^ (tb + 1074) = 2 ^ (ta + 1074) * 2 ^ (tb - ta)) as ->.
    { rewrite <- Z.pow_add_r by lia. f_equal. lia. }
    assert (2 <= 2 ^ (tb - ta)).
    { change 2 with (2 ^ 1) at 1. apply Z.pow_le_mono_r; lia. }
    specialize (Hnb ltac:(lia)).
    set (Pa := 2 ^ (ta + 1074)) in *. set (X := 2 ^ (tb - ta)) in *.
    apply Z.le_trans with (2 ^ 53 * Pa); [apply Z.mul_le_mono_nonneg_r; lia|].
    apply Z.le_trans with (2 ^ 52 * (Pa * X)).
    + change (2 ^ 53) with (2 ^ 52 * 2). nia.
    + apply Z.mul_le_mono_nonneg_r; [nia|lia].
Qed.

Lemma xval_round_nonneg (p : positive) (k : Z) :
  0 <= xval (binary_round prec emax false p k).
Proof.
  rewrite xval_round. cbn [cond_Zopp].
  destruct (round_spec false p k) as (_ & HM & _ & Ht).
  apply Z.min_glb; [|apply Z.pow_nonneg; lia].
  apply Z.mul_nonneg_nonneg; [lia|apply Z.pow_nonneg; lia].
Qed.

Lemma xval_round_opp (p : positive) (k : Z) :
  xval (binary_round prec emax true p k) = - xval (binary_round prec emax false p k).
Proof. rewrite !xval_round. reflexivity. Qed.

(** Rounding is monotone: a smaller number never rounds to a larger float. *)
Lemma normalize_mono (a b k : Z) (za zb : bool) :
  a <= b ->
  xval (binary_normalize prec emax a k za) <= xval (binary_normalize prec emax b k zb).
Proof.
  intros Hab.
  destruct a as [|a|a], b as [|b|b]; try lia; cbn [binary_normalize xval];
    rewrite ?xval_round_opp;
    repeat match goal with
           | |- context [xval (binary_round prec emax false ?p k)] =>
               lazymatch goal with
               | _ : 0 <= xval (binary_round prec emax false p k) |- _ => fail
               | _ => pose proof (xval_round_nonneg p k)
               end
           end; try lia.
  - apply round_mono_pos. lia.
  - pose proof (round_mono_pos b a k ltac:(lia)). lia.
Qed.

Lemma finish_valid (s : bool) (M t : Z) :
  0 <= M <= 2 ^ 53 -> -1074 <= t -> (-1074 < t -> 2 ^ 52 <= M) ->
  valid_binary prec emax (finish s M t) = true.
Proof.
  intros HM Ht Hn. destruct M as [|p|p]; [reflexivity| |lia].
  unfold finish.
  destruct (Z.eqb_spec (Z.pos p) (2 ^ 53)) as [E|E].
  - destruct (Z.leb_spec (t + 1) 971) as [L|L]; [|reflexivity].
    cbn [valid_binary]. unfold bounded, canonical_mantissa.
    rewrite fexp_eq. change (Z.pos (digits2_pos (2 ^ 52))) with 53.
    change (emax - prec) with 971.
    apply andb_true_intro. split; [apply Z.eqb_eq|apply Z.leb_le]; lia.
  - destruct (Z.leb_spec t 971) as [L|L]; [|reflexivity].
    cbn [valid_binary]. unfold bounded, canonical_mantissa.
    rewrite fexp_eq. change (Z.pos (digits2_pos p)) with (Zdigits2 (Z.pos p)).
    change (emax - prec) with 971.
    pose proof (digits_upper (Z.pos p) 53 ltac:(lia)).
    apply andb_true_intro. split; [apply Z.eqb_eq|apply Z.leb_le]; [|lia].
    destruct (Z.eq_dec t (-1074)) as [->|]; [lia|].
    pose proof (digits_lower (Z.pos p) 53 ltac:(lia) ltac:(apply Hn; lia)). lia.
Qed.

Lemma finish_class (s : bool) (M t : Z) :
  match finish s M t with S754_nan => False | _ => True end.
Proof.
  unfold finish. destruct M; try exact I.
  repeat match goal with |- context [if ?b then _ else _] => destruct b end; exact I.
Qed.

Lemma normalize_valid (a k : Z) (z : bool) :
  valid_binary prec emax (binary_normalize prec emax a k z) = true.
Proof.
  destruct a as [|p|p]; [reflexivity| |]; cbn [binary_normalize].
  - destruct (round_spec false p k) as (-> & ? & ? & ?). apply finish_valid; assumption.
  - destruct (round_spec true p k) as (-> & ? & ? & ?). apply finish_valid; assumption.
Qed.

Lemma normalize_not_nan (a k : Z) (z : bool) :
  binary_normalize prec emax a k z <> S754_nan.
Proof.
  destruct a as [|p|p]; [discriminate| |]; cbn [binary_normalize]; rewrite round_closed;
    match goal with |- finish ?s ?M ?t <> _ =>
      pose proof (finish_class s M t) as H; intros E; rewrite E in H; exact H end.
Qed.

(** ** Binary64 numbers and their values *)

Lemma valid_finite_inv (s : bool) (m : positive) (e : Z) :
  valid_binary prec emax (S754_finite s m e) = true ->
  -1074 <= e <= 971 /\ Zdigits2 (Z.pos m) <= 53
  /\ fexp prec emax (Zdigits2 (Z.pos m) + e) = e.
Proof.
  cbn [valid_binary]. unfold bounded, canonical_mantissa. intros H.
  apply andb_prop in H as [Hc Hb]. apply Z.eqb_eq in Hc. apply Z.leb_le in Hb.
  change (emax - prec) with 971 in Hb.
  change (Z.pos (digits2_pos m)) with (Zdigits2 (Z.pos m)) in Hc.
  pose proof Hc as Hc'. rewrite fexp_eq in Hc'. repeat split; try lia; exact Hc.
Qed.

Lemma xval_bound (f : float) :
  valid_binary prec emax f = true -> is_finite f = true -> Z.abs (xval f) < 2 ^ 2098.
Proof.
  destruct f as [s|s| |s m e]; try discriminate; intros Hv _.
  - simpl. apply Z.pow_pos_nonneg; lia.
  - apply valid_finite_inv in Hv as (He & Hd & _).
    cbn [xval]. pose proof (digits_bounds (Z.pos m) ltac:(lia)) as [_ Hm].
    assert (Z.pos m < 2 ^ 53).
    { apply Z.lt_le_trans with (1 := Hm). apply Z.pow_le_mono_r; lia. }
    assert (0 < 2 ^ (e + 1074)) by (apply Z.pow_pos_nonneg; lia).
    assert (2 ^ (e + 1074) <= 2 ^ 2045) by (apply Z.pow_le_mono_r; lia).
    rewrite pow_2098.
    replace (Z.abs (cond_Zopp s (Z.pos m * 2 ^ (e + 1074)))) with (Z.pos m * 2 ^ (e + 1074))
      by (destruct s; cbn [cond_Zopp]; lia).
    nia.
Qed.

(** A binary64 number is the rounding of its own value. *)
Lemma normalize_own (s : bool) (m : positive) (e : Z) (z : bool) :
  valid_binary prec emax (S754_finite s m e) = true ->
  binary_normalize prec emax (cond_Zopp s (Z.pos m)) e z = S754_finite s m e.
Proof.
  intros Hv. apply valid_finite_inv in Hv as (He & Hd & Hc).
  assert (binary_normalize prec emax (cond_Zopp s (Z.pos m)) e z
          = binary_round prec emax s m e) as -> by (destruct s; reflexivity).
  rewrite round_closed, Hc, Z.sub_diag, rne_shift_nonneg_exp, Z.pow_0_r, Z.mul_1_r by lia.
  unfold finish.
  pose proof (digits_bounds (Z.pos m) ltac:(lia)) as [_ Hm].
  assert (Z.pos m < 2 ^ 53).
  { apply Z.lt_le_trans with (1 := Hm). apply Z.pow_le_mono_r; lia. }
  rewrite (proj2 (Z.eqb_neq _ _)) by lia.
  rewrite (proj2 (Z.leb_le _ _)) by lia. reflexivity.
Qed.

Lemma xval_signed (s : bool) (m : positive) (e : Z) :
  xval (S754_finite s m e) = cond_Zopp s (Z.pos m) * 2 ^ (e + 1074).
Proof. destruct s; cbn [xval cond_Zopp]; lia. Qed.

Lemma normalize_xval (f : float) (z : bool) :
  valid_binary prec emax f = true -> is_finite f = true ->
  xval (binary_normalize prec emax (xval f) (-1074) z) = xval f.
Proof.
  destruct f as [s|s| |s m e]; try discriminate; intros Hv _; [reflexivity|].
  pose proof (valid_finite_inv _ _ _ Hv) as (He & _ & _).
  rewrite xval_signed.
  replace (-1074) with (e - (e + 1074)) at 1 by lia.
  rewrite normalize_scale by lia. rewrite normalize_own by exact Hv.
  apply xval_signed.
Qed.

(** ** Addition and multiplication as one rounding of the exact result *)

Lemma cond_Zopp_mul (s : bool) (a b : Z) : cond_Zopp s a * b = cond_Zopp s (a * b).
Proof. destruct s; cbn [cond_Zopp]; lia. Qed.

Lemma fadd_finite (sx sy : bool) (mx my : positive) (ex ey : Z) :
  -1074 <= ex -> -1074 <= ey ->
  fadd (S754_finite sx mx ex) (S754_finite sy my ey)
  = binary_normalize prec emax
      (xval (S754_finite sx mx ex) + xval (S754_finite sy my ey)) (-1074) false.
Proof.
  intros Hx Hy. unfold fadd. cbn [SFadd]. set (ez := Z.min ex ey).
  destruct (shl_align_value mx ex ez ltac:(lia)) as [Vx _].
  destruct (shl_align_value my ey ez ltac:(lia)) as [Vy _].
  rewrite Vx, Vy, !xval_signed.
  replace (-1074) with (ez - (ez + 1074)) by lia.
  rewrite <- (normalize_scale _ ez (ez + 1074)) by lia.
  f_equal. rewrite Z.mul_add_distr_r, !cond_Zopp_mul, <- !Z.mul_assoc, <- !Z.pow_add_r by lia.
  do 4 f_equal; lia.
Qed.

Lemma xval_fadd (x y : float) :
  valid_binary prec emax x = true -> valid_binary prec emax y = true ->
  is_finite x = true -> is_finite y = true ->
  xval (fadd x y) = xval (binary_normalize prec emax (xval x + xval y) (-1074) false).
Proof.
  intros Vx Vy Fx Fy.
  destruct x as [sx|sx| |sx mx ex], y as [sy|sy| |sy my ey]; try discriminate.
  - destruct sx, sy; reflexivity.
  - change (fadd _ _) with (S754_finite sy my ey).
    change (xval (S754_zero sx)) with 0. rewrite Z.add_0_l.
    symmetry. apply (normalize_xval (S754_finite sy my ey)); assumption.
  - change (fadd _ _) with (S754_finite sx mx ex).
    change (xval (S754_zero sy)) with 0. rewrite Z.add_0_r.
    symmetry. apply (normalize_xval (S754_finite sx mx ex)); assumption.
  - apply valid_finite_inv in Vx as (? & _ & _). apply valid_finite_inv in Vy as (? & _ & _).
    rewrite fadd_finite by lia. reflexivity.
Qed.

Lemma fadd_valid (x y : float) :
  valid_binary prec emax x = true -> valid_binary prec emax y = true ->
  is_finite x = true -> is_finite y = true ->
  valid_binary prec emax (fadd x y) = true /\ fadd x y <> S754_nan.
Proof.
  intros Vx Vy Fx Fy.
  destruct x as [sx|sx| |sx mx ex], y as [sy|sy| |sy my ey]; try discriminate.
  - destruct sx, sy; split; (reflexivity || discriminate).
  - split; [exact Vy|discriminate].
  - split; [exact Vx|discriminate].
  - apply valid_finite_inv in Vx as (? & _ & _). apply valid_finite_inv in Vy as (? & _ & _).
    rewrite fadd_finite by lia. split; [apply normalize_valid|apply normalize_not_nan].
Qed.

Lemma mul_long_enough (mx my : positive) (ex ey : Z) :
  valid_binary prec emax (S754_finite false mx ex) = true ->
  valid_binary prec emax (S754_finite false my ey) = true ->
  ex + ey <= fexp prec emax (Zdigits2 (Z.pos (mx * my)) + (ex + ey)).
Proof.
  intros Vx Vy.
  apply valid_finite_inv in Vx as (Hex & Hdx & Hcx).
  apply valid_finite_inv in Vy as (Hey & Hdy & Hcy).
  rewrite fexp_eq in *.
  pose proof (digits_bounds (Z.pos mx) ltac:(lia)) as [Lx _].
  pose proof (digits_bounds (Z.pos my) ltac:(lia)) as [Ly _].
  pose proof (digits_pos (Z.pos mx) ltac:(lia)).
  pose proof (digits_pos (Z.pos my) ltac:(lia)).
  assert (Zdigits2 (Z.pos mx) + Zdigits2 (Z.pos my) - 1 <= Zdigits2 (Z.pos (mx * my))).
  { apply digits_lower; [lia|]. rewrite Pos2Z.inj_mul.
    replace (Zdigits2 (Z.pos mx) + Zdigits2 (Z.pos my) - 1 - 1)
      with ((Zdigits2 (Z.pos mx) - 1) + (Zdigits2 (Z.pos my) - 1)) by lia.
    rewrite Z.pow_add_r by lia.
    apply Z.mul_le_mono_nonneg; try lia; apply Z.pow_nonneg; lia. }
  lia.
Qed.

Lemma fmul_finite (sx sy : bool) (mx my : positive) (ex ey : Z) :
  valid_binary prec emax (S754_finite sx mx ex) = true ->
  valid_binary prec emax (S754_finite sy my ey) = true ->
  fmul (S754_finite sx mx ex) (S754_finite sy my ey)
  = binary_normalize prec emax
      (xval (S754_finite sx mx ex) * xval (S754_finite sy my ey)) (-2148) false.
Proof.
  intros Vx Vy. unfold fmul. cbn [SFmul].
  pose proof (mul_long_enough mx my ex ey Vx Vy) as Hl.
  destruct (round_aux_closed (xorb sx sy) (Z.pos (mx * my)) (ex + ey) loc_Exact
              ltac:(lia) Hl) as (M & -> & _ & _ & HM).
  rewrite (HM eq_refl), <- round_closed.
  apply valid_finite_inv in Vx as (Hex & _ & _).
  apply valid_finite_inv in Vy as (Hey & _ & _).
  rewrite !xval_signed.
  replace (-2148) with ((ex + ey) - (ex + ey + 2148)) by lia.
  assert (binary_round prec emax (xorb sx sy) (mx * my) (ex + ey)
          = binary_normalize prec emax (cond_Zopp (xorb sx sy) (Z.pos (mx * my))) (ex + ey) false)
    as -> by (destruct sx, sy; reflexivity).
  rewrite <- (normalize_scale _ (ex + ey) (ex + ey + 2148) false) by lia.
  f_equal.
  replace (ex + ey + 2148) with ((ex + 1074) + (ey + 1074)) by lia.
  rewrite Z.pow_add_r, Pos2Z.inj_mul by lia.
  destruct sx, sy; cbn [cond_Zopp xorb]; lia.
Qed.

Lemma xval_fmul (x y : float) :
  valid_binary prec emax x = true -> valid_binary prec emax y = true ->
  is_finite x = true -> is_finite y = true ->
  xval (fmul x y) = xval (binary_normalize prec emax (xval x * xval y) (-2148) false).
Proof.
  intros Vx Vy Fx Fy.
  destruct x as [sx|sx| |sx mx ex], y as [sy|sy| |sy my ey]; try discriminate;
    try (cbn [xval]; rewrite ?Z.mul_0_r, ?Z.mul_0_l; reflexivity).
  rewrite fmul_finite by assumption. reflexivity.
Qed.

Lemma fmul_valid (x y : float) :
  valid_binary prec emax x = true -> valid_binary prec emax y = true ->
  is_finite x = true -> is_finite y = true ->
  valid_binary prec emax (fmul x y) = true /\ fmul x y <> S754_nan.
Proof.
  intros Vx Vy Fx Fy.
  destruct x as [sx|sx| |sx mx ex], y as [sy|sy| |sy my ey]; try discriminate;
    try (split; (reflexivity || discriminate)).
  rewrite fmul_finite by assumption. split; [apply normalize_valid|apply normalize_not_nan].
Qed.

Lemma finite_of_bound (f : float) :
  f <> S754_nan -> Z.abs (xval f) < 2 ^ 2098 -> is_finite f = true.
Proof.
  destruct f as [s|s| |s m e]; try reflexivity; [|congruence].
  intros _. destruct s; cbn [xval cond_Zopp]; lia.
Qed.

Lemma fadd_mono (x x' y y' : float) :
  valid_binary prec emax x = true -> valid_binary prec emax x' = true ->
  valid_binary prec emax y = true -> valid_binary prec emax y' = true ->
  is_finite x = true -> is_finite x' = true ->
  is_finite y = true -> is_finite y' = true ->
  xval x <= xval x' -> xval y <= xval y' ->
  xval (fadd x y) <= xval (fadd x' y').
Proof.
  intros. rewrite !xval_fadd by assumption. apply normalize_mono. lia.
Qed.

Lemma fmul_mono (x x' c : float) :
  valid_binary prec emax x = true -> valid_binary prec emax x' = true ->
  valid_binary prec emax c = true ->
  is_finite x = true -> is_finite x' = true -> is_finite c = true ->
  0 <= xval c -> xval x <= xval x' ->
  xval (fmul x c) <= xval (fmul x' c).
Proof.
  intros. rewrite !xval_fmul by assumption. apply normalize_mono.
  apply Z.mul_le_mono_nonneg_r; assumption.
Qed.

(** ** [round] on values *)

Lemma rne_shift_0 (e : Z) : rne_shift 0 e = 0.
Proof.
  destruct (Z.le_gt_cases 0 e).
  - rewrite rne_shift_nonneg_exp by lia. lia.
  - replace 0 with (0 * 2 ^ (- e)) at 1 by lia. replace e with (- (- e)) at 2 by lia.
    apply rne_shift_exact. lia.
Qed.

Lemma rne_shift_nonneg (a e : Z) : 0 <= a -> 0 <= rne_shift a e.
Proof. intros Ha. rewrite <- (rne_shift_0 e). apply rne_shift_mono. exact Ha. Qed.

Lemma round_val_mono (u v : Z) : u <= v -> round_val u <= round_val v.
Proof.
  intros H. unfold round_val.
  destruct (Z.ltb_spec u 0), (Z.ltb_spec v 0); try lia.
  - pose proof (rne_shift_mono (- v) (- u) (-1074) ltac:(lia)). lia.
  - pose proof (rne_shift_nonneg (- u) (-1074) ltac:(lia)).
    pose proof (rne_shift_nonneg v (-1074) ltac:(lia)). lia.
  - apply rne_shift_mono. exact H.
Qed.

Lemma round_value (f : float) :
  valid_binary prec emax f = true -> is_finite f = true ->
  round f = Ok (round_val (xval f)).
Proof.
  destruct f as [s|s| |s m e]; try discriminate; intros Hv _.
  - cbn [round xval]. unfold round_val. rewrite rne_shift_0. reflexivity.
  - apply valid_finite_inv in Hv as (He & _ & _).
    cbn [round xval]. unfold round_val. f_equal.
    assert (0 < 2 ^ (e + 1074)) by (apply Z.pow_pos_nonneg; lia).
    assert (rne_shift (Z.pos m * 2 ^ (e + 1074)) (-1074) = rne_shift (Z.pos m) e) as Hs.
    { replace (-1074) with (e - (e + 1074)) by lia. apply rne_shift_scale. lia. }
    destruct s; cbn [cond_Zopp].
    + rewrite (proj2 (Z.ltb_lt _ _)) by lia. rewrite Z.opp_involutive, Hs. reflexivity.
    + rewrite (proj2 (Z.ltb_ge _ _)) by lia. rewrite Hs. reflexivity.
Qed.

(** ** Quotients *)

Lemma div_eucl_pair (a b : Z) : Z.div_eucl a b = (a / b, a mod b).
Proof. unfold Z.div, Z.modulo. destruct (Z.div_eucl a b); reflexivity. Qed.

Lemma div_core_long_enough (m1 m2 : Z) :
  0 < m1 -> 0 < m2 ->
  let '(q, e, l) := SFdiv_core_binary prec emax m1 0 m2 0 in
  0 <= q /\ e <= fexp prec emax (Zdigits2 q + e).
Proof.
  intros H1 H2. unfold SFdiv_core_binary.
  rewrite !Z.add_0_r, Z.sub_0_r.
  set (d1 := Zdigits2 m1). set (d2 := Zdigits2 m2).
  set (e' := Z.min (fexp prec emax (d1 - d2)) 0).
  replace (0 - e') with (- e') by lia.
  set (m' := match - e' with Z.pos _ => Z.shiftl m1 (- e') | 0 => m1 | Z.neg _ => 0 end).
  assert (m' = m1 * 2 ^ (- e')) as Em.
  { unfold m'. assert (0 <= - e') as Hs by (unfold e'; lia).
    destruct (- e') as [|s|s] eqn:E; try lia.
    apply Z.shiftl_mul_pow2. lia. }
  rewrite div_eucl_pair.
  assert (0 <= - e') as Hs by (unfold e'; lia).
  assert (0 < 2 ^ (- e')) as Hp by (apply Z.pow_pos_nonneg; lia).
  assert (0 <= m' / m2) as Hq by (apply Z.div_pos; nia).
  split; [exact Hq|].
  rewrite fexp_eq. destruct (Z.le_gt_cases e' (-1074)) as [|Hn]; [lia|].
  assert (e' <= d1 - d2 - 53) as He by (unfold e' in *; rewrite fexp_eq in *; lia).
  assert (2 ^ 52 <= m' / m2) as H52.
  { apply Z.div_le_lower_bound; [lia|]. rewrite Em.
    pose proof (digits_bounds m1 H1) as [L1 _]. pose proof (digits_bounds m2 H2) as [_ U2].
    fold d1 in L1. fold d2 in U2.
    pose proof (digits_pos m1 H1) as P1. pose proof (digits_pos m2 H2) as P2.
    fold d1 in P1. fold d2 in P2.
    apply Z.le_trans with (2 ^ (d2 + 52)).
    - rewrite Z.pow_add_r by lia. nia.
    - apply Z.le_trans with (2 ^ (d1 - 1) * 2 ^ (- e')).
      + rewrite <- Z.pow_add_r by lia. apply Z.pow_le_mono_r; lia.
      + apply Z.mul_le_mono_nonneg_r; lia. }
  pose proof (digits_lower (m' / m2) 53 ltac:(lia) H52). lia.
Qed.

Lemma round_aux_valid (s : bool) (m e : Z) (l : location) :
  0 <= m -> e <= fexp prec emax (Zdigits2 m + e) ->
  valid_binary prec emax (binary_round_aux prec emax s m e l) = true.
Proof.
  intros Hm He.
  destruct (round_aux_closed s m e l Hm He) as (M & -> & Hb & HM & _).
  apply finish_valid; [exact HM|rewrite fexp_eq; lia|].
  intros Hn. pose proof (round_aux_normal s m e l Hm He Hn). lia.
Qed.

Lemma round_quotient_valid (neg : bool) (a b : Z) :
  0 < a -> 0 < b -> valid_binary prec emax (round_quotient neg a b) = true.
Proof.
  intros Ha Hb. unfold round_quotient.
  pose proof (div_core_long_enough a b Ha Hb) as H.
  destruct (SFdiv_core_binary prec emax a 0 b 0) as [[q e] l].
  destruct H as [Hq He]. apply round_aux_valid; assumption.
Qed.

(** ** The order of floats and the order of their values *)

Lemma canonical_lt (m1 m2 : positive) (e1 e2 : Z) :
  valid_binary prec emax (S754_finite false m1 e1) = true ->
  valid_binary prec emax (S754_finite false m2 e2) = true ->
  e1 < e2 ->
  Z.pos m1 * 2 ^ (e1 + 1074) < Z.pos m2 * 2 ^ (e2 + 1074).
Proof.
  intros V1 V2 He.
  apply valid_finite_inv in V1 as (He1 & Hd1 & _).
  apply valid_finite_inv in V2 as (He2 & Hd2 & Hc2).
  rewrite fexp_eq in Hc2.
  assert (Zdigits2 (Z.pos m2) = 53) as E2 by lia.
  pose proof (digits_bounds (Z.pos m1) ltac:(lia)) as [_ U1].
  pose proof (digits_bounds (Z.pos m2) ltac:(lia)) as [L2 _].
  rewrite E2 in L2. change (2 ^ (53 - 1)) with (2 ^ 52) in L2.
  assert (Z.pos m1 < 2 ^ 53).
  { apply Z.lt_le_trans with (1 := U1). apply Z.pow_le_mono_r; lia. }
  assert (0 < 2 ^ (e1 + 1074)) as HP by (apply Z.pow_pos_nonneg; lia).
  assert (2 ^ (e2 + 1074) = 2 ^ (e1 + 1074) * 2 ^ (e2 - e1)) as ->.
  { rewrite <- Z.pow_add_r by lia. f_equal. lia. }
  assert (2 <= 2 ^ (e2 - e1)).
  { change 2 with (2 ^ 1) at 1. apply Z.pow_le_mono_r; lia. }
  set (P := 2 ^ (e1 + 1074)) in *. set (X := 2 ^ (e2 - e1)) in *.
  apply Z.lt_le_trans with (2 ^ 53 * P); [apply Z.mul_lt_mono_pos_r; lia|].
  apply Z.le_trans with (2 ^ 52 * (P * X)).
  - change (2 ^ 53) with (2 ^ 52 * 2). nia.
  - apply Z.mul_le_mono_nonneg_r; [nia|lia].
Qed.

Lemma compare_pos_xval (m1 m2 : positive) (e1 e2 : Z) :
  valid_binary prec emax (S754_finite false m1 e1) = true ->
  valid_binary prec emax (S754_finite false m2 e2) = true ->
  match Z.compare e1 e2 with
  | Lt => Lt
  | Gt => Gt
  | Eq => Pos.compare_cont Eq m1 m2
  end = Z.compare (Z.pos m1 * 2 ^ (e1 + 1074)) (Z.pos m2 * 2 ^ (e2 + 1074)).
Proof.
  intros V1 V2. destruct (Z.compare_spec e1 e2) as [E|L|G].
  - subst e2. apply valid_finite_inv in V1 as (He1 & _ & _).
    assert (0 < 2 ^ (e1 + 1074)) as HP by (apply Z.pow_pos_nonneg; lia).
    change (Pos.compare_cont Eq m1 m2) with (Z.pos m1 ?= Z.pos m2).
    apply Zmult_compare_compat_r. lia.
  - symmetry. apply Z.compare_lt_iff. apply canonical_lt; assumption.
  - symmetry. apply Z.compare_gt_iff. apply canonical_lt; assumption.
Qed.

Lemma fleb_xval (x y : float) :
  valid_binary prec emax x = true -> valid_binary prec emax y = true ->
  x <> S754_nan -> y <> S754_nan ->
  fleb x y = (xval x <=? xval y).
Proof.
  intros Vx Vy Nx Ny.
  assert (forall f, valid_binary prec emax f = true -> is_finite f = true ->
                    - 2 ^ 2098 < xval f < 2 ^ 2098) as Hb.
  { intros f V F. pose proof (xval_bound f V F). lia. }
  assert (forall s m e, valid_binary prec emax (S754_finite s m e) = true ->
                        0 < Z.pos m * 2 ^ (e + 1074)) as Hp.
  { intros s m e V. apply valid_finite_inv in V as (He & _ & _).
    apply Z.mul_pos_pos; [lia|apply Z.pow_pos_nonneg; lia]. }
  assert (0 < 2 ^ 2098) as HI by (apply Z.pow_pos_nonneg; lia).
  unfold fleb, SFleb.
  destruct x as [sx|sx| |sx mx ex], y as [sy|sy| |sy my ey]; try congruence;
    cbn [SFcompare xval];
    try (pose proof (Hb _ Vx eq_refl) as Bx; cbn [xval] in Bx);
    try (pose proof (Hb _ Vy eq_refl) as By; cbn [xval] in By);
    try (pose proof (Hp _ _ _ Vx) as Px);
    try (pose proof (Hp _ _ _ Vy) as Py);
    generalize dependent (2 ^ 2098); intros I; intros;
    try (destruct sx; cbn [cond_Zopp] in *); try (destruct sy; cbn [cond_Zopp] in *);
    try (symmetry; first [apply Z.leb_le; lia | apply Z.leb_gt; lia]).
  - assert (match ex ?= ey with Lt => Gt | Eq => CompOpp (Pos.compare_cont Eq mx my) | Gt => Lt end
            = (Z.pos my * 2 ^ (ey + 1074) ?= Z.pos mx * 2 ^ (ex + 1074))) as ->.
    { rewrite <- (compare_pos_xval my mx ey ex Vy Vx).
      rewrite (Z.compare_antisym ex ey).
      destruct (ex ?= ey); cbn [CompOpp]; try reflexivity.
      rewrite Pos.compare_cont_antisym. reflexivity. }
    set (A := Z.pos mx * 2 ^ (ex + 1074)) in *. set (B := Z.pos my * 2 ^ (ey + 1074)) in *.
    destruct (Z.compare_spec B A); symmetry;
      first [apply Z.leb_le; lia | apply Z.leb_gt; lia].
  - rewrite (compare_pos_xval mx my ex ey Vx Vy).
    set (A := Z.pos mx * 2 ^ (ex + 1074)) in *. set (B := Z.pos my * 2 ^ (ey + 1074)) in *.
    destruct (Z.compare_spec A B); symmetry;
      first [apply Z.leb_le; lia | apply Z.leb_gt; lia].
Qed.

(** ** The quotient of two integers *)

Lemma div_core_shape (a b : Z) :
  0 < a -> 0 < b ->
  exists e l,
    SFdiv_core_binary prec emax a 0 b 0 = (a * 2 ^ (- e) / b, e, l)
    /\ e <= 0
    /\ e <= fexp prec emax (Zdigits2 (a * 2 ^ (- e) / b) + e).
Proof.
  intros Ha Hb.
  pose proof (div_core_long_enough a b Ha Hb) as H.
  unfold SFdiv_core_binary in *. rewrite !Z.add_0_r, Z.sub_0_r in *.
  set (e' := Z.min (fexp prec emax (Zdigits2 a - Zdigits2 b)) 0) in *.
  replace (0 - e') with (- e') in * by lia.
  set (m' := match - e' with Z.pos _ => Z.shiftl a (- e') | 0 => a | Z.neg _ => 0 end) in *.
  assert (m' = a * 2 ^ (- e')) as Em.
  { unfold m'. assert (0 <= - e') as Hs by (unfold e'; lia).
    destruct (- e') as [|s|s] eqn:E; try lia.
    apply Z.shiftl_mul_pow2. lia. }
  rewrite div_eucl_pair in *. rewrite Em in *.
  destruct H as [_ H]. eexists e', _. split; [reflexivity|].
  split; [unfold e'; lia|exact H].
Qed.

Lemma round_quotient_spec (neg : bool) (a b : Z) :
  0 < a -> 0 < b ->
  exists e M,
    e <= 0
    /\ e <= fexp prec emax (Zdigits2 (a * 2 ^ (- e) / b) + e)
    /\ round_quotient neg a b
       = finish neg M (fexp prec emax (Zdigits2 (a * 2 ^ (- e) / b) + e))
    /\ 0 <= M <= 2 ^ 53
    /\ (-1074 < fexp prec emax (Zdigits2 (a * 2 ^ (- e) / b) + e) -> 2 ^ 52 <= M)
    /\ a * 2 ^ (- e) / b / 2 ^ (fexp prec emax (Zdigits2 (a * 2 ^ (- e) / b) + e) - e) <= M
       <= a * 2 ^ (- e) / b / 2 ^ (fexp prec emax (Zdigits2 (a * 2 ^ (- e) / b) + e) - e) + 1.
Proof.
  intros Ha Hb. destruct (div_core_shape a b Ha Hb) as (e & l & Hc & He & Hl).
  exists e. unfold round_quotient. rewrite Hc.
  assert (0 < 2 ^ (- e)) by (apply Z.pow_pos_nonneg; lia).
  assert (0 <= a * 2 ^ (- e) / b) as Hq by (apply Z.div_pos; nia).
  destruct (round_aux_closed neg _ e l Hq Hl) as (M & -> & Hb' & HM & _).
  exists M. repeat split; try lia.
  intros Hn. pose proof (round_aux_normal neg _ e l Hq Hl Hn). lia.
Qed.




Lemma round_quotient_not_nan (neg : bool) (a b : Z) :
  0 < a -> 0 < b -> round_quotient neg a b <> S754_nan.
Proof.
  intros Ha Hb.
  destruct (round_quotient_spec neg a b Ha Hb) as (e & M & _ & _ & -> & _).
  match goal with |- finish ?s ?M ?t <> _ =>
    pose proof (finish_class s M t) as H; intros E; rewrite E in H; exact H end.
Qed.

(** Python's [lo <= f <= hi] on a float, read on values. *)
Lemma between_by_comparison (lo hi : Z) (f : float) :
  valid_binary prec emax f = true -> f <> S754_nan ->
  xval (binary_normalize prec emax lo 0 false) = lo * 2 ^ 1074 ->
  xval (binary_normalize prec emax hi 0 false) = hi * 2 ^ 1074 ->
  Z.abs lo < 2 ^ 1024 -> Z.abs hi < 2 ^ 1024 ->
  fleb (binary_normalize prec emax lo 0 false) f = true
  /\ fleb f (binary_normalize prec emax hi 0 false) = true
  <-> between lo hi f.
Proof.
  intros Vf Nf Elo Ehi Hlo Hhi. unfold between, float_ge, float_le.
  rewrite !fleb_xval by (first [apply normalize_valid | apply normalize_not_nan | assumption]).
  rewrite Elo, Ehi, !Z.leb_le.
  assert (2 ^ 2098 = 2 ^ 1024 * 2 ^ 1074) as E
    by (rewrite <- Z.pow_add_r by lia; reflexivity).
  assert (0 < 2 ^ 1074) as H1074 by (apply Z.pow_pos_nonneg; lia).
  split.
  - intros [H1 H2]. split; [|split; assumption].
    apply finite_of_bound; [exact Nf|]. rewrite E.
    set (Q := 2 ^ 1074) in *. set (I := 2 ^ 1024) in *.
    assert (lo * Q > - (I * Q)) by nia. assert (hi * Q < I * Q) by nia. lia.
  - intros (_ & H1 & H2). split; assumption.
Qed.

(** ** More on the quotient of two integers *)

Lemma div_core_location (a b : Z) :
  0 < a -> 0 < b ->
  exists e,
    SFdiv_core_binary prec emax a 0 b 0
    = (a * 2 ^ (- e) / b, e, new_location b ((a * 2 ^ (- e)) mod b))
    /\ e <= 0
    /\ e <= fexp prec emax (Zdigits2 (a * 2 ^ (- e) / b) + e).
Proof.
  intros Ha Hb.
  pose proof (div_core_long_enough a b Ha Hb) as H.
  unfold SFdiv_core_binary in *. rewrite !Z.add_0_r, Z.sub_0_r in *.
  set (e' := Z.min (fexp prec emax (Zdigits2 a - Zdigits2 b)) 0) in *.
  replace (0 - e') with (- e') in * by lia.
  set (m' := match - e' with Z.pos _ => Z.shiftl a (- e') | 0 => a | Z.neg _ => 0 end) in *.
  assert (m' = a * 2 ^ (- e')) as Em.
  { unfold m'. assert (0 <= - e') as Hs by (unfold e'; lia).
    destruct (- e') as [|s|s] eqn:E; try lia.
    apply Z.shiftl_mul_pow2. lia. }
  rewrite div_eucl_pair in *. rewrite Em in *.
  destruct H as [_ H]. exists e'. split; [reflexivity|].
  split; [unfold e'; lia|exact H].
Qed.

(** A quotient that is an integer below [2^53] is that integer. *)
Lemma quotient_exact (c b : Z) :
  0 < c < 2 ^ 53 -> 0 < b ->
  xval (round_quotient false (c * b) b) = c * 2 ^ 1074.
Proof.
  intros Hc Hb. assert (0 < c * b) as Ha by nia.
  destruct (div_core_location (c * b) b Ha Hb) as (e & Hd & He & Hl).
  assert (0 < 2 ^ (- e)) as HP by (apply Z.pow_pos_nonneg; lia).
  assert (c * b * 2 ^ (- e) = c * 2 ^ (- e) * b) as Er by lia.
  rewrite Er in *. rewrite Z.div_mul in * by lia. rewrite Z.mod_mul in Hd by lia.
  assert (new_location b 0 = loc_Exact) as El.
  { unfold new_location, new_location_even, new_location_odd. destruct (Z.even b); reflexivity. }
  rewrite El in Hd. unfold round_quotient. rewrite Hd.
  set (q := c * 2 ^ (- e)) in *.
  assert (0 <= q) as Hq by (unfold q; nia).
  destruct (round_aux_closed false q e loc_Exact Hq Hl) as (M & -> & Hb' & HM & Hx).
  specialize (Hx eq_refl).
  set (t := fexp prec emax (Zdigits2 q + e)) in *.
  assert (-1074 <= t) as Ht by (unfold t; rewrite fexp_eq; lia).
  assert (Zdigits2 q + e <= 53) as Hdg.
  { assert (Zdigits2 q <= 53 - e); [|lia]. apply digits_upper. split; [lia|].
    replace (53 - e) with (53 + (- e)) by lia. rewrite Z.pow_add_r by lia.
    unfold q. apply Z.mul_lt_mono_pos_r; lia. }
  assert (t <= 0) as Ht0 by (unfold t; rewrite fexp_eq; lia).
  assert (q = c * 2 ^ (- t) * 2 ^ (t - e)) as Eq.
  { unfold q. rewrite <- Z.mul_assoc, <- Z.pow_add_r by lia. do 2 f_equal. lia. }
  assert (M = c * 2 ^ (- t)) as EM.
  { rewrite Hx, Eq. replace (e - t) with (- (t - e)) by lia. apply rne_shift_exact. lia. }
  rewrite xval_finish; [|exact HM|exact Ht|].
  - cbn [cond_Zopp]. rewrite EM, <- Z.mul_assoc, <- Z.pow_add_r by lia.
    replace (- t + (t + 1074)) with 1074 by lia.
    apply Z.min_l.
    assert (2 ^ 2098 = 2 ^ 1024 * 2 ^ 1074) as -> by (rewrite <- Z.pow_add_r by lia; reflexivity).
    apply Z.mul_le_mono_nonneg_r; [apply Z.pow_nonneg; lia|].
    apply Z.le_trans with (2 ^ 53); [lia|]. apply Z.pow_le_mono_r; lia.
  - intros Hn. pose proof (round_aux_normal false q e loc_Exact Hq Hl Hn). fold t in H. lia.
Qed.

(** The quotient of [a] by [b] is at most [c] as a float as soon as it is
    as a fraction. *)
Lemma quotient_le (c a b : Z) :
  0 < c < 2 ^ 53 -> 0 < a -> 0 < b -> a <= c * b ->
  xval (round_quotient false a b) <= c * 2 ^ 1074.
Proof.
  intros Hc Ha Hb Hab.
  destruct (Z.eq_dec a (c * b)) as [->|Hne]; [rewrite quotient_exact by lia; lia|].
  assert (a < c * b) as Hlt by lia.
  destruct (round_quotient_spec false a b Ha Hb) as (e & M & He & Het & -> & HM & Hn & Hq).
  set (q := a * 2 ^ (- e) / b) in *. set (t := fexp prec emax (Zdigits2 q + e)) in *.
  assert (-1074 <= t) as Ht by (unfold t; rewrite fexp_eq; lia).
  rewrite xval_finish by assumption. cbn [cond_Zopp].
  assert (0 < 2 ^ (- e)) as HP by (apply Z.pow_pos_nonneg; lia).
  assert (0 <= q) as Hq0 by (unfold q; apply Z.div_pos; nia).
  assert (q < c * 2 ^ (- e)) as Hqc.
  { unfold q. apply Z.div_lt_upper_bound; [lia|]. nia. }
  assert (Zdigits2 q + e <= 53) as Hd.
  { destruct (Z.eq_dec q 0) as [->|]; [simpl; lia|].
    assert (Zdigits2 q <= 53 - e); [|lia]. apply digits_upper. split; [lia|].
    replace (53 - e) with (53 + (- e)) by lia. rewrite Z.pow_add_r by lia.
    apply Z.lt_le_trans with (1 := Hqc). apply Z.mul_le_mono_nonneg_r; lia. }
  assert (t <= 0) as Ht0 by (unfold t; rewrite fexp_eq; lia).
  assert (0 < 2 ^ (t - e)) as HT by (apply Z.pow_pos_nonneg; lia).
  assert (0 < 2 ^ (t + 1074)) as HPt by (apply Z.pow_pos_nonneg; lia).
  assert (0 < 2 ^ (- t)) as HU by (apply Z.pow_pos_nonneg; lia).
  assert (2 ^ (- e) = 2 ^ (- t) * 2 ^ (t - e)) as EP.
  { rewrite <- Z.pow_add_r by lia. f_equal. lia. }
  assert (2 ^ 1074 = 2 ^ (t + 1074) * 2 ^ (- t)) as E1074.
  { rewrite <- Z.pow_add_r by lia. f_equal. lia. }
  set (U := 2 ^ (- t)) in *. set (T := 2 ^ (t - e)) in *. set (Pt := 2 ^ (t + 1074)) in *.
  assert (q / T < c * U) as Hq'.
  { apply Z.div_lt_upper_bound; [lia|]. rewrite EP in Hqc.
    replace (T * (c * U)) with (c * (U * T)) by ring. exact Hqc. }
  apply Z.le_trans with (M * Pt); [apply Z.le_min_l|].
  rewrite E1074.
  apply Z.le_trans with (c * U * Pt); [apply Z.mul_le_mono_nonneg_r; lia|]. lia.
Qed.

Lemma quotient_nonneg (a b : Z) : 0 < a -> 0 < b -> 0 <= xval (round_quotient false a b).
Proof.
  intros Ha Hb.
  destruct (round_quotient_spec false a b Ha Hb) as (e & M & He & Het & -> & HM & Hn & Hq).
  rewrite xval_finish; [|exact HM|rewrite fexp_eq; lia|exact Hn].
  cbn [cond_Zopp]. apply Z.min_glb; [|apply Z.pow_nonneg; lia].
  apply Z.mul_nonneg_nonneg; [lia|apply Z.pow_nonneg; lia].
Qed.

Lemma int_truediv_valid (a b : Z) (q : float) :
  int_truediv a b = Ok q ->
  valid_binary prec emax q = true /\ q <> S754_nan /\ is_finite q = true.
Proof.
  unfold int_truediv. destruct (b =? 0) eqn:Eb; [discriminate|].
  destruct (a =? 0) eqn:Ea; [intros [= <-]; repeat split; discriminate|].
  apply Z.eqb_neq in Ea, Eb.
  pose proof (round_quotient_valid (xorb (a <? 0) (b <? 0)) (Z.abs a) (Z.abs b)
                ltac:(lia) ltac:(lia)) as V.
  pose proof (round_quotient_not_nan (xorb (a <? 0) (b <? 0)) (Z.abs a) (Z.abs b)
                ltac:(lia) ltac:(lia)) as N.
  destruct (round_quotient _ _ _) as [s|s| |s m e]; intros [= <-]; try congruence;
    repeat split; try assumption; discriminate.
Qed.

Lemma round_val_int (c : Z) : round_val (c * 2 ^ 1074) = c.
Proof.
  assert (0 < 2 ^ 1074) as HP by (apply Z.pow_pos_nonneg; lia).
  unfold round_val. destruct (Z.ltb_spec (c * 2 ^ 1074) 0).
  - replace (- (c * 2 ^ 1074)) with ((- c) * 2 ^ 1074) by lia.
    change (-1074) with (- (1074)). rewrite rne_shift_exact by lia. lia.
  - change (-1074) with (- (1074)). apply rne_shift_exact. lia.
Qed.

Lemma float_ge_int_xval (q : float) (c : Z) :
  valid_binary prec emax q = true -> q <> S754_nan ->
  xval (binary_normalize prec emax c 0 false) = c * 2 ^ 1074 ->
  float_ge_int q c = (c * 2 ^ 1074 <=? xval q).
Proof.
  intros V N E. unfold float_ge_int.
  rewrite fleb_xval; [rewrite E; reflexivity|apply normalize_valid|exact V|apply normalize_not_nan|exact N].
Qed.

(** ** Rounding a quotient to nearest *)








(** ** The quotient of two binary64 numbers *)





(** ** Facts about the base score *)

Lemma weighted_ok_all : all_upto 101 weighted_ok = true.
Proof. vm_compute. reflexivity. Qed.

Lemma weighted_facts (b : Z) :
  0 <= b <= 100 ->
  float_of_int b = Ok (Spec.float_of b)
  /\ nonneg_finite (weighted b) = true
  /\ valid_binary prec emax (weighted b) = true
  /\ 0 <= xval (weighted b) <= xval f60.
Proof.
  intros Hb. pose proof (all_upto_spec _ _ weighted_ok_all b ltac:(lia)) as H.
  unfold weighted_ok, weighted, Spec.float_of, float_of_int in *.
  destruct (binary_normalize prec emax b 0 false) as [s|s| |s m e] eqn:E;
    try discriminate;
    apply andb_prop in H as [H H3]; apply andb_prop in H as [H1 H2];
    apply Z.leb_le in H3; repeat split; try assumption;
    destruct (fmul _ c0_6) as [[]|[]| |[] ? ?]; try discriminate;
    cbn [xval cond_Zopp]; try lia.
Qed.

Ltac step_result :=
  match goal with
  | |- context [match ?x with Ok _ => _ | Raise _ => _ end] =>
      destruct x eqn:?; cbn [mbind result_bind]
  | |- context [match ?x with Some _ => _ | None => _ end] =>
      destruct x eqn:?; cbn [mbind result_bind]
  end.

Lemma score_split (a : value) :
  calculate_repo_score a
  = (b ← base_part a; jd ← dict_get a k_jd_match_score (VInt 0);
     f ← to_float jd; blend b f).
Proof.
  unfold calculate_repo_score, base_part, blend.
  destruct a; try reflexivity.
  unfold getitem, dict_get, mbind, result_bind.
  repeat step_result; reflexivity.
Qed.

Lemma len_nonneg (v : value) (n : Z) : len v = Ok n -> 0 <= n.
Proof.
  destruct v; try discriminate; intros [= <-]; unfold len_str; lia.
Qed.

Lemma str_lower_inv (v : value) (k : string) :
  str_lower v = Ok k -> exists s, v = VStr s /\ k = lower s.
Proof. destruct v; try discriminate. intros [= <-]. eauto. Qed.

Lemma base_part_range (a : value) (b : Z) : base_part a = Ok b -> 0 <= b <= 100.
Proof.
  unfold base_part. destruct a; try discriminate.
  unfold getitem, mbind, result_bind.
  repeat match goal with
         | |- match ?x with _ => _ end = Ok _ -> _ => destruct x eqn:?; try discriminate
         end.
  intros [= <-].
  repeat match goal with
         | H : len _ = Ok _ |- _ => apply len_nonneg in H
         | H : str_lower _ = Ok _ |- _ => apply str_lower_inv in H as (? & _ & ->)
         end.
  rewrite complexity_lookup, activity_lookup.
  match goal with |- context [Spec.complexity_points ?c] =>
    pose proof (complexity_points_range c) end.
  match goal with |- context [Spec.activity_points ?c] =>
    pose proof (activity_points_range c) end.
  lia.
Qed.

Lemma base_part_fields (d : gmap string value)
    (ls ts als : list value) (c ca : string) :
  d !! k_languages = Some (VList ls) ->
  d !! k_tech_stack = Some (VList ts) ->
  d !! k_algorithms = Some (VList als) ->
  d !! k_complexity = Some (VStr c) ->
  d !! k_commit_activity = Some (VStr ca) ->
  base_part (VDict d) = Ok (Spec.base_score ls ts als c ca).
Proof.
  intros Hl Ht Ha Hc Hca. unfold base_part, getitem.
  rewrite Hl, Ht, Ha, Hc, Hca. cbn [mbind result_bind len str_lower].
  rewrite complexity_lookup, activity_lookup.
  unfold Spec.base_score, Spec.count. f_equal. lia.
Qed.

Lemma base_part_insert_jd (d : gmap string value) (v : value) :
  base_part (VDict (<[k_jd_match_score := v]> d)) = base_part (VDict d).
Proof.
  unfold base_part, getitem. rewrite !lookup_insert_ne by discriminate. reflexivity.
Qed.

Lemma blend_spec (b : Z) (f : float) : 0 <= b <= 100 -> blend b f = Spec.score b f.
Proof.
  intros Hb. destruct (weighted_facts b Hb) as (Hf & _).
  unfold blend, int_mul_float. rewrite Hf. reflexivity.
Qed.

(** ** The scoring rule *)

Lemma score_of_fields (d : gmap string value)
    (ls ts als : list value) (c ca : string) (j : value) :
  d !! k_languages = Some (VList ls) ->
  d !! k_tech_stack = Some (VList ts) ->
  d !! k_algorithms = Some (VList als) ->
  d !! k_complexity = Some (VStr c) ->
  d !! k_commit_activity = Some (VStr ca) ->
  d !! k_jd_match_score = Some j ->
  calculate_repo_score (VDict d)
  = (jd ← to_float j; Spec.score (Spec.base_score ls ts als c ca) jd).
Proof.
  intros Hl Ht Ha Hc Hca Hj.
  rewrite score_split, (base_part_fields d ls ts als c ca) by assumption.
  cbn [mbind result_bind dict_get]. rewrite Hj.
  change (default (VInt 0) (Some j)) with j.
  destruct (to_float j) as [jd|e]; [|reflexivity].
  apply blend_spec, base_score_range.
Qed.





(** The tiers of the specification's table in other cases, and a text that
    is no tier. *)
Example tiers_in_other_cases :
  Spec.complexity_points "HIGH" = 30 /\ Spec.complexity_points "High" = 30
  /\ Spec.complexity_points "Medium" = 20 /\ Spec.complexity_points "LOW" = 10
  /\ Spec.complexity_points "higher" = 0 /\ Spec.complexity_points "" = 0
  /\ Spec.activity_points "ACTIVE" = 30 /\ Spec.activity_points "Moderate" = 20
  /\ Spec.activity_points "InActive" = 10 /\ Spec.activity_points "unknown" = 0.
Proof. repeat split; vm_compute; reflexivity. Qed.

Example high_in_capitals :
  calculate_repo_score (VDict (<[k_complexity := VStr "HIGH"]> scenario)) = Ok 72
  /\ calculate_repo_score (VDict (<[k_complexity := VStr "high"]> scenario)) = Ok 72.
Proof. split; vm_compute; reflexivity. Qed.

Example scenario_score : calculate_repo_score (VDict scenario) = Ok 66.
Proof. vm_compute. reflexivity. Qed.

Example default_analysis_score : calculate_repo_score default_analysis = Ok 0.
Proof. vm_compute. reflexivity. Qed.

(** ** The blend of base score and job-match score, on values *)

Lemma xval_le_max (f : float) :
  valid_binary prec emax f = true -> is_finite f = true ->
  xval (SFopp f_max) <= xval f <= xval f_max.
Proof.
  intros Hv Hf.
  assert (0 < 2 ^ 2045) as HQ by (apply Z.pow_pos_nonneg; lia).
  destruct f as [s|s| |s m e]; try discriminate.
  - replace (xval f_max) with ((2 ^ 53 - 1) * 2 ^ 2045) by (vm_compute; reflexivity).
    replace (xval (SFopp f_max)) with (- ((2 ^ 53 - 1) * 2 ^ 2045)) by (vm_compute; reflexivity).
    cbn [xval]. generalize dependent (2 ^ 2045). intros Q HQ. nia.
  - apply valid_finite_inv in Hv as (He & Hd & _).
    pose proof (digits_bounds (Z.pos m) ltac:(lia)) as [_ Hm].
    assert (Z.pos m < 2 ^ 53).
    { apply Z.lt_le_trans with (1 := Hm). apply Z.pow_le_mono_r; lia. }
    assert (0 < 2 ^ (e + 1074)) by (apply Z.pow_pos_nonneg; lia).
    assert (2 ^ (e + 1074) <= 2 ^ 2045) by (apply Z.pow_le_mono_r; lia).
    replace (xval f_max) with ((2 ^ 53 - 1) * 2 ^ 2045) by (vm_compute; reflexivity).
    replace (xval (SFopp f_max)) with (- ((2 ^ 53 - 1) * 2 ^ 2045)) by (vm_compute; reflexivity).
    generalize dependent (2 ^ 2045). intros Q HQ HP.
    destruct s; cbn [xval cond_Zopp]; nia.
Qed.

Lemma nonneg_finite_is_finite (x : float) : nonneg_finite x = true -> is_finite x = true.
Proof. destruct x as [[]|[]| |[] ? ?]; try discriminate; reflexivity. Qed.

Ltac by_computation := vm_compute; first [reflexivity | discriminate | congruence].

Lemma blend_value (b : Z) (f : float) :
  0 <= b <= 100 -> valid_binary prec emax f = true -> is_finite f = true ->
  valid_binary prec emax (fmul f c0_4) = true
  /\ is_finite (fmul f c0_4) = true
  /\ valid_binary prec emax (fadd (weighted b) (fmul f c0_4)) = true
  /\ is_finite (fadd (weighted b) (fmul f c0_4)) = true
  /\ blend b f = Ok (round_val (xval (fadd (weighted b) (fmul f c0_4)))).
Proof.
  intros Hb Hv Hf.
  destruct (weighted_facts b Hb) as (Hfi & Hnn & Hxv & Hx0 & Hx60).
  pose proof (nonneg_finite_is_finite _ Hnn) as Hxf.
  assert (valid_binary prec emax c0_4 = true) as Vc by reflexivity.
  assert (is_finite c0_4 = true) as Fc by reflexivity.
  assert (0 <= xval c0_4) as Pc by by_computation.
  assert (valid_binary prec emax f_max = true) as Vmax by reflexivity.
  assert (valid_binary prec emax (SFopp f_max) = true) as Vmin by reflexivity.
  destruct (xval_le_max f Hv Hf) as [Lf Uf].
  destruct (fmul_valid f c0_4 Hv Vc Hf Fc) as [Vp Np].
  pose proof (fmul_mono f f_max c0_4 Hv Vmax Vc Hf eq_refl Fc Pc Uf) as Up.
  pose proof (fmul_mono (SFopp f_max) f c0_4 Vmin Hv Vc eq_refl Hf Fc Pc Lf) as Lp.
  change (fmul f_max c0_4) with p_max in Up.
  change (fmul (SFopp f_max) c0_4) with p_min in Lp.
  assert (xval p_max < 2 ^ 2098) as Bmax by (apply Z.ltb_lt; by_computation).
  assert (- 2 ^ 2098 < xval p_min) as Bmin by (apply Z.ltb_lt; by_computation).
  assert (is_finite (fmul f c0_4) = true) as Fp by (apply finite_of_bound; [exact Np|lia]).
  destruct (fadd_valid (weighted b) (fmul f c0_4) Hxv Vp Hxf Fp) as [Vs Ns].
  assert (valid_binary prec emax p_max = true) as Vpmax by reflexivity.
  assert (valid_binary prec emax p_min = true) as Vpmin by reflexivity.
  pose proof (fadd_mono (weighted b) f60 (fmul f c0_4) p_max Hxv eq_refl Vp Vpmax
                Hxf eq_refl Fp eq_refl Hx60 Up) as Us.
  pose proof (fadd_mono f0 (weighted b) p_min (fmul f c0_4) eq_refl Hxv Vpmin Vp
                eq_refl Hxf eq_refl Fp Hx0 Lp) as Ls.
  assert (xval (fadd f60 p_max) < 2 ^ 2098) as Bs by (apply Z.ltb_lt; by_computation).
  assert (- 2 ^ 2098 < xval (fadd f0 p_min)) as Bs' by (apply Z.ltb_lt; by_computation).
  assert (is_finite (fadd (weighted b) (fmul f c0_4)) = true) as Fs
    by (apply finite_of_bound; [exact Ns|lia]).
  repeat split; try assumption.
  unfold blend, int_mul_float. rewrite Hfi. cbn [mbind result_bind].
  apply round_value; assumption.
Qed.

Lemma blend_returns_finite (b : Z) (f : float) (v : Z) :
  0 <= b <= 100 -> blend b f = Ok v -> is_finite f = true.
Proof.
  intros Hb. destruct (weighted_facts b Hb) as (Hfi & Hnn & _).
  unfold blend, int_mul_float. rewrite Hfi. cbn [mbind result_bind].
  fold (weighted b). destruct (weighted b) as [[]|[]| |[] ? ?]; try discriminate;
  destruct f as [sf|[]| |sf mf ef]; try reflexivity; discriminate.
Qed.

(** The score is monotone in the job-match score, and in the base score
    along the steps of three points that one more framework brings. *)
Lemma blend_bounds (b : Z) (f : float) :
  0 <= b <= 100 -> valid_binary prec emax f = true -> is_finite f = true ->
  exists v, blend b f = Ok v
            /\ (0 <= xval f -> 0 <= v)
            /\ (xval f <= 100 * 2 ^ 1074 -> v <= 100).
Proof.
  intros Hb Hv Hf.
  destruct (blend_value b f Hb Hv Hf) as (Vp & Fp & Vs & Fs & ->).
  destruct (weighted_facts b Hb) as (Hfi & Hnn & Hxv & Hx0 & Hx60).
  pose proof (nonneg_finite_is_finite _ Hnn) as Hxf.
  assert (valid_binary prec emax c0_4 = true) as Vc by reflexivity.
  assert (is_finite c0_4 = true) as Fc by reflexivity.
  assert (0 <= xval c0_4) as Pc by by_computation.
  eexists. split; [reflexivity|]. split.
  - intros H0.
    pose proof (fmul_mono f0 f c0_4 eq_refl Hv Vc eq_refl Hf Fc Pc H0) as Lp.
    pose proof (fadd_mono f0 (weighted b) (fmul f0 c0_4) (fmul f c0_4)
                  eq_refl Hxv eq_refl Vp eq_refl Hxf eq_refl Fp Hx0 Lp) as Ls.
    change (xval (fadd f0 (fmul f0 c0_4))) with 0 in Ls.
    apply (round_val_mono 0 _ Ls).
  - intros H100.
    assert (xval f100 = 100 * 2 ^ 1074) as E100 by reflexivity.
    rewrite <- E100 in H100.
    pose proof (fmul_mono f f100 c0_4 Hv eq_refl Vc Hf eq_refl Fc Pc H100) as Up.
    pose proof (fadd_mono (weighted b) f60 (fmul f c0_4) (fmul f100 c0_4)
                  Hxv eq_refl Vp eq_refl Hxf eq_refl Fp eq_refl Hx60 Up) as Us.
    assert (round_val (xval (fadd f60 (fmul f100 c0_4))) = 100) as E by by_computation.
    rewrite <- E. apply round_val_mono. exact Us.
Qed.

Lemma weighted_step_all : all_upto 98 weighted_step_ok = true.
Proof. vm_compute. reflexivity. Qed.

Lemma blend_step (b : Z) (f : float) (v : Z) :
  0 <= b <= 97 -> valid_binary prec emax f = true ->
  blend b f = Ok v ->
  exists v', blend (b + 3) f = Ok v' /\ v <= v'.
Proof.
  intros Hb Hv Hbl.
  pose proof (blend_returns_finite b f v ltac:(lia) Hbl) as Hf.
  destruct (blend_value b f ltac:(lia) Hv Hf) as (Vp & Fp & Vs & Fs & E).
  destruct (blend_value (b + 3) f ltac:(lia) Hv Hf) as (_ & _ & Vs' & Fs' & E').
  rewrite E in Hbl. injection Hbl as <-.
  eexists. split; [exact E'|].
  apply round_val_mono.
  destruct (weighted_facts b ltac:(lia)) as (_ & Hnn & Hxv & _).
  destruct (weighted_facts (b + 3) ltac:(lia)) as (_ & Hnn' & Hxv' & _).
  apply fadd_mono; try assumption; try (apply nonneg_finite_is_finite; assumption); [|lia].
  pose proof (all_upto_spec _ _ weighted_step_all b ltac:(lia)) as H.
  apply Z.leb_le in H. exact H.
Qed.

(** ** [float] returns binary64 numbers *)

Lemma digit_val_nonneg (c : ascii) : is_digit c = true -> 0 <= digit_val c <= 9.
Proof.
  unfold is_digit, digit_val. intros H. apply andb_prop in H as [H1 H2].
  apply N.leb_le in H1, H2. lia.
Qed.

Lemma take_digits_nonneg (s : string) (acc n : Z) :
  0 <= acc -> 0 <= fst (fst (take_digits s acc n)).
Proof.
  revert acc n. induction s as [|c s IH]; intros acc n Hacc; cbn [take_digits].
  - exact Hacc.
  - destruct (is_digit c) eqn:E; [|exact Hacc].
    apply IH. pose proof (digit_val_nonneg c E). lia.
Qed.

Lemma parse_decimal_nonneg (s : string) (m k : Z) :
  parse_decimal s = Some (m, k) -> 0 <= m.
Proof.
  unfold parse_decimal.
  pose proof (take_digits_nonneg s 0 0 ltac:(lia)) as H1.
  destruct (take_digits s 0 0) as [[ip ni] r1]. cbn [fst] in H1.
  assert (forall r, 0 <= fst (fst (take_digits r ip 0))) as H2
    by (intros r; apply take_digits_nonneg; exact H1).
  destruct r1 as [|c r].
  - destruct (0 <? ni + 0); [|discriminate].
    destruct (parse_exponent ""); [|discriminate]. intros [= <- _]. exact H1.
  - destruct (Ascii.eqb_spec c "."%char) as [->|Hc].
    + specialize (H2 r). destruct (take_digits r ip 0) as [[m' nf] r2]. cbn [fst] in H2.
      destruct (0 <? ni + nf); [|discriminate].
      destruct (parse_exponent r2); [|discriminate]. intros [= <- _]. exact H2.
    + assert ((let '(m0, nf, r2) :=
                 match String c r with
                 | String "."%char r0 => take_digits r0 ip 0
                 | _ => (ip, 0, String c r)
                 end in
               if 0 <? ni + nf
               then match parse_exponent r2 with
                    | Some ev => Some (m0, ev - nf)
                    | None => None
                    end
               else None)
              = (if 0 <? ni + 0
                 then match parse_exponent (String c r) with
                      | Some ev => Some (ip, ev - 0)
                      | None => None
                      end
                 else None)) as ->.
      { destruct c as [[] [] [] [] [] [] [] []]; try reflexivity. congruence. }
      destruct (0 <? ni + 0); [|discriminate].
      destruct (parse_exponent (String c r)); [|discriminate]. intros [= <- _]. exact H1.
Qed.

Lemma float_of_decimal_valid (neg : bool) (m k : Z) :
  0 <= m -> is_float64 (float_of_decimal neg m k).
Proof.
  intros Hm. unfold is_float64, float_of_decimal.
  destruct (Z.eqb_spec m 0) as [->|H0]; [reflexivity|].
  destruct (Z.leb_spec 0 k).
  - apply normalize_valid.
  - apply round_quotient_valid; [lia|apply Z.pow_pos_nonneg; lia].
Qed.

Lemma float_of_string_valid (s : string) (f : float) :
  float_of_string s = Ok f -> is_float64 f.
Proof.
  unfold float_of_string.
  destruct (drop_underscores false (strip_by is_float_space s)) as [t|]; [|discriminate].
  destruct (take_sign t) as [neg u].
  unfold parse_special.
  destruct (_ || _); [intros [= <-]; reflexivity|].
  destruct (String.eqb _ _); [intros [= <-]; reflexivity|].
  destruct (parse_decimal u) as [[m k]|] eqn:E; [|discriminate].
  intros [= <-]. apply float_of_decimal_valid. eapply parse_decimal_nonneg, E.
Qed.

Lemma float_of_int_valid (n : Z) (f : float) : float_of_int n = Ok f -> is_float64 f.
Proof.
  unfold float_of_int. pose proof (normalize_valid n 0 false) as H.
  destruct (binary_normalize prec emax n 0 false); try discriminate; intros [= <-]; exact H.
Qed.

Lemma to_float_valid (v : value) (f : float) :
  float64_value v -> to_float v = Ok f -> is_float64 f.
Proof.
  intros Hv. destruct v; cbn [to_float]; try discriminate.
  - apply float_of_int_valid.
  - apply float_of_int_valid.
  - intros [= <-]. apply Hv. reflexivity.
  - apply float_of_string_valid.
Qed.

(** ** Bounds on the score *)

Lemma score_of_parts (d : gmap string value) (b : Z) (jd : float) :
  base_part (VDict d) = Ok b ->
  to_float (default (VInt 0) (d !! k_jd_match_score)) = Ok jd ->
  calculate_repo_score (VDict d) = blend b jd.
Proof.
  intros Hb Hj. rewrite score_split, Hb. cbn [mbind result_bind dict_get].
  rewrite Hj. reflexivity.
Qed.

Lemma score_returns_inv (d : gmap string value) (v : Z) :
  calculate_repo_score (VDict d) = Ok v ->
  exists b jd,
    base_part (VDict d) = Ok b
    /\ to_float (default (VInt 0) (d !! k_jd_match_score)) = Ok jd
    /\ blend b jd = Ok v.
Proof.
  rewrite score_split. cbn [dict_get].
  destruct (base_part (VDict d)) as [b|]; [|discriminate].
  cbn [mbind result_bind].
  destruct (to_float _) as [jd|]; [|discriminate].
  cbn [mbind result_bind]. intros H. exists b, jd. auto.
Qed.

(** C7: with all fields present and a job-match score in [0, 100], the base
    score is at most 100 and the score returned lies in [0, 100]. *)
Theorem score_within_0_100 (d : gmap string value)
    (ls ts als : list value) (c ca : string) (j : value) (jd : float) :
  d !! k_languages = Some (VList ls) ->
  d !! k_tech_stack = Some (VList ts) ->
  d !! k_algorithms = Some (VList als) ->
  d !! k_complexity = Some (VStr c) ->
  d !! k_commit_activity = Some (VStr ca) ->
  d !! k_jd_match_score = Some j ->
  float64_value j ->
  to_float j = Ok jd ->
  between 0 100 jd ->
  0 <= Spec.base_score ls ts als c ca <= 100
  /\ exists v, calculate_repo_score (VDict d) = Ok v /\ 0 <= v <= 100.
Proof.
  intros Hl Ht Ha Hc Hca Hj Hv Hf (Hfin & Hlo & Hhi).
  pose proof (base_score_range ls ts als c ca) as Hb. split; [exact Hb|].
  pose proof (to_float_valid j jd Hv Hf) as Hvalid.
  destruct (blend_bounds _ jd Hb Hvalid Hfin) as (v & Hbl & H0 & H100).
  exists v. split.
  - rewrite (score_of_parts d (Spec.base_score ls ts als c ca) jd); [exact Hbl| |].
    + apply base_part_fields; assumption.
    + rewrite Hj. exact Hf.
  - unfold float_ge, float_le in *. split; [apply H0|apply H100]; lia.
Qed.

Lemma score_within_0_100_witness :
  0 <= Spec.base_score [VStr "Python"; VStr "JS"] [VStr "Flask"] [] "medium" "active" <= 100
  /\ exists v, calculate_repo_score (VDict scenario) = Ok v /\ 0 <= v <= 100.
Proof.
  apply (score_within_0_100 scenario _ _ _ _ _ (VInt 80) (Spec.float_of 80));
    try (vm_compute; reflexivity).
  - intros g Hg. discriminate Hg.
  - split; [reflexivity|]. split; apply Z.leb_le; vm_compute; reflexivity.
Defined.

(** C5, as the code has it: the score is an integer that is at least 0 when
    the job-match score is, and at most 100 when the job-match score is; a
    job-match score outside [0, 100] is blended as it is and can take the
    score out of that range. *)
Theorem score_follows_job_match (d : gmap string value) (jd : float) (v : Z) :
  float64_value (default (VInt 0) (d !! k_jd_match_score)) ->
  to_float (default (VInt 0) (d !! k_jd_match_score)) = Ok jd ->
  calculate_repo_score (VDict d) = Ok v ->
  (float_ge jd 0 -> 0 <= v) /\ (float_le jd 100 -> v <= 100)
  /\ calculate_repo_score (VDict (with_jd (VInt 1000))) = Ok 434
  /\ calculate_repo_score (VDict (with_jd (VInt (-100)))) = Ok (-6).
Proof.
  intros Hv Hf Hs.
  destruct (score_returns_inv d v Hs) as (b & jd' & Hb & Hf' & Hbl).
  rewrite Hf in Hf'. injection Hf' as <-.
  pose proof (base_part_range _ _ Hb) as Hr.
  pose proof (to_float_valid _ _ Hv Hf) as Hvalid.
  pose proof (blend_returns_finite b jd v Hr Hbl) as Hfin.
  destruct (blend_bounds b jd Hr Hvalid Hfin) as (v' & Hbl' & H0 & H100).
  rewrite Hbl in Hbl'. injection Hbl' as <-.
  unfold float_ge, float_le.
  split; [intros; apply H0; lia|]. split; [intros; apply H100; lia|].
  split; vm_compute; reflexivity.
Qed.

Lemma score_follows_job_match_witness :
  (float_ge (Spec.float_of 80) 0 -> 0 <= 66)
  /\ (float_le (Spec.float_of 80) 100 -> 66 <= 100)
  /\ calculate_repo_score (VDict (with_jd (VInt 1000))) = Ok 434
  /\ calculate_repo_score (VDict (with_jd (VInt (-100)))) = Ok (-6).
Proof.
  apply (score_follows_job_match scenario (Spec.float_of 80) 66).
  - intros g Hg. vm_compute in Hg. discriminate Hg.
  - vm_compute. reflexivity.
  - vm_compute. reflexivity.
Defined.

(** C5 as stated fails: a job-match score of 1000 gives a score of 434. *)
Lemma score_out_of_range :
  exists a v, calculate_repo_score a = Ok v /\ ~ (0 <= v <= 100).
Proof.
  exists (VDict (with_jd (VInt 1000))), 434. split; [vm_compute; reflexivity|lia].
Qed.

(** ** One more framework *)

Lemma base_part_tech (d : gmap string value) (ts ts' : list value) (b : Z) :
  d !! k_tech_stack = Some (VList ts) ->
  (length ts < 5)%nat -> length ts' = S (length ts) ->
  base_part (VDict d) = Ok b ->
  base_part (VDict (<[k_tech_stack := VList ts']> d)) = Ok (b + 3) /\ b + 3 <= 100.
Proof.
  intros Ht Hlt Hlen. unfold base_part, getitem.
  rewrite lookup_insert_eq, !lookup_insert_ne by discriminate. rewrite Ht.
  unfold mbind, result_bind. cbn [len].
  repeat match goal with
         | |- match ?x with _ => _ end = Ok _ -> _ => destruct x eqn:?; try discriminate
         end.
  intros [= <-].
  repeat match goal with
         | H : len _ = Ok _ |- _ => apply len_nonneg in H
         | H : str_lower _ = Ok _ |- _ => apply str_lower_inv in H as (? & _ & ->)
         end.
  rewrite !complexity_lookup, !activity_lookup.
  match goal with |- context [Spec.complexity_points ?c] =>
    pose proof (complexity_points_range c) end.
  match goal with |- context [Spec.activity_points ?c] =>
    pose proof (activity_points_range c) end.
  split; [f_equal|]; lia.
Qed.

(** C8: with fewer than five frameworks, one more framework, everything else
    unchanged, never lowers the score. *)
Theorem tech_stack_monotone (d : gmap string value) (ts ts' : list value) (v : Z) :
  d !! k_tech_stack = Some (VList ts) ->
  (length ts < 5)%nat ->
  length ts' = S (length ts) ->
  float64_value (default (VInt 0) (d !! k_jd_match_score)) ->
  calculate_repo_score (VDict d) = Ok v ->
  exists v',
    calculate_repo_score (VDict (<[k_tech_stack := VList ts']> d)) = Ok v' /\ v <= v'.
Proof.
  intros Ht Hlt Hlen Hv Hs.
  destruct (score_returns_inv d v Hs) as (b & jd & Hb & Hf & Hbl).
  pose proof (base_part_range _ _ Hb) as Hr.
  destruct (base_part_tech d ts ts' b Ht Hlt Hlen Hb) as [Hb' Hr'].
  pose proof (to_float_valid _ _ Hv Hf) as Hvalid.
  destruct (blend_step b jd v ltac:(lia) Hvalid Hbl) as (v' & Hbl' & Hle).
  exists v'. split; [|exact Hle].
  rewrite (score_of_parts _ (b + 3) jd); [exact Hbl'|exact Hb'|].
  rewrite lookup_insert_ne by discriminate. exact Hf.
Qed.

Lemma tech_stack_monotone_witness :
  exists v',
    calculate_repo_score
      (VDict (<[k_tech_stack := VList [VStr "Flask"; VStr "Django"]]> scenario)) = Ok v'
    /\ 66 <= v'.
Proof.
  apply (tech_stack_monotone scenario [VStr "Flask"]).
  - vm_compute. reflexivity.
  - simpl. lia.
  - reflexivity.
  - intros g Hg. vm_compute in Hg. discriminate Hg.
  - vm_compute. reflexivity.
Defined.

(** ** A job-match score that is absent or cannot be converted *)

Lemma no_match_all : all_upto 101 no_match_ok = true.
Proof. vm_compute. reflexivity. Qed.

Lemma score_without_match (b : Z) :
  0 <= b <= 100 -> Spec.score b f0 = Ok ((6 * b + 5) / 10).
Proof.
  intros Hb. pose proof (all_upto_spec _ _ no_match_all b ltac:(lia)) as H.
  unfold no_match_ok, result_eqb in H.
  destruct (Spec.score b f0); [|discriminate]. apply Z.eqb_eq in H. congruence.
Qed.

Lemma score_when_absent (d : gmap string value)
    (ls ts als : list value) (c ca : string) :
  d !! k_languages = Some (VList ls) ->
  d !! k_tech_stack = Some (VList ts) ->
  d !! k_algorithms = Some (VList als) ->
  d !! k_complexity = Some (VStr c) ->
  d !! k_commit_activity = Some (VStr ca) ->
  d !! k_jd_match_score = None ->
  calculate_repo_score (VDict d) = Spec.score (Spec.base_score ls ts als c ca) f0
  /\ calculate_repo_score (VDict d)
     = Ok ((6 * Spec.base_score ls ts als c ca + 5) / 10).
Proof.
  intros Hl Ht Ha Hc Hca Hj.
  pose proof (base_part_fields d ls ts als c ca Hl Ht Ha Hc Hca) as Hb.
  pose proof (base_score_range ls ts als c ca) as Hr.
  assert (calculate_repo_score (VDict d) = Spec.score (Spec.base_score ls ts als c ca) f0) as E.
  { rewrite (score_of_parts d _ f0 Hb); [apply blend_spec; exact Hr|].
    rewrite Hj. reflexivity. }
  split; [exact E|]. rewrite E. apply score_without_match. exact Hr.
Qed.

Lemma float_of_string_raises (s : string) (e : exn) :
  float_of_string s = Raise e -> e = ValueError.
Proof.
  unfold float_of_string.
  destruct (drop_underscores false (strip_by is_float_space s)); [|congruence].
  destruct (take_sign _) as [neg u]. destruct (parse_special neg u); [discriminate|].
  destruct (parse_decimal u) as [[m k]|]; [discriminate|congruence].
Qed.

(** C3, as the code has it: an absent job-match score counts as 0 and the
    score is returned; a job-match score that [float] cannot convert makes
    the score raise the error of the conversion. *)
Theorem job_match_absent_or_unconvertible (d : gmap string value)
    (ls ts als : list value) (c ca : string) :
  d !! k_languages = Some (VList ls) ->
  d !! k_tech_stack = Some (VList ts) ->
  d !! k_algorithms = Some (VList als) ->
  d !! k_complexity = Some (VStr c) ->
  d !! k_commit_activity = Some (VStr ca) ->
  (d !! k_jd_match_score = None ->
   calculate_repo_score (VDict d) = Spec.score (Spec.base_score ls ts als c ca) f0
   /\ calculate_repo_score (VDict d)
      = Ok ((6 * Spec.base_score ls ts als c ca + 5) / 10))
  /\ (forall j e, d !! k_jd_match_score = Some j -> to_float j = Raise e ->
      calculate_repo_score (VDict d) = Raise e)
  /\ to_float (VStr "N/A") = Raise ValueError
  /\ (forall s e, to_float (VStr s) = Raise e -> e = ValueError)
  /\ to_float VNone = Raise TypeError
  /\ (forall l, to_float (VList l) = Raise TypeError)
  /\ (forall m, to_float (VDict m) = Raise TypeError).
Proof.
  intros Hl Ht Ha Hc Hca.
  pose proof (base_part_fields d ls ts als c ca Hl Ht Ha Hc Hca) as Hb.
  split; [|split; [|split; [|split; [|repeat split]]]]; try reflexivity.
  - intros Hj. apply score_when_absent; assumption.
  - intros j e Hj He. rewrite score_split, Hb. cbn [mbind result_bind dict_get].
    rewrite Hj. change (default (VInt 0) (Some j)) with j. rewrite He. reflexivity.
  - intros s e. apply float_of_string_raises.
Qed.

Lemma job_match_absent_or_unconvertible_witness :
  (with_jd (VStr "N/A") !! k_jd_match_score = None ->
   calculate_repo_score (VDict (with_jd (VStr "N/A")))
   = Spec.score (Spec.base_score [VStr "Python"; VStr "JS"] [VStr "Flask"] []
                                 "medium" "active") f0
   /\ calculate_repo_score (VDict (with_jd (VStr "N/A")))
      = Ok ((6 * Spec.base_score [VStr "Python"; VStr "JS"] [VStr "Flask"] []
                                 "medium" "active" + 5) / 10))
  /\ (forall j e, with_jd (VStr "N/A") !! k_jd_match_score = Some j ->
      to_float j = Raise e ->
      calculate_repo_score (VDict (with_jd (VStr "N/A"))) = Raise e)
  /\ to_float (VStr "N/A") = Raise ValueError
  /\ (forall s e, to_float (VStr s) = Raise e -> e = ValueError)
  /\ to_float VNone = Raise TypeError
  /\ (forall l, to_float (VList l) = Raise TypeError)
  /\ (forall m, to_float (VDict m) = Raise TypeError).
Proof.
  apply (job_match_absent_or_unconvertible (with_jd (VStr "N/A")));
    vm_compute; reflexivity.
Defined.

(** C3 as stated fails: with the text N/A for a job-match score, which is
    not a number, the score raises. *)
Lemma unconvertible_job_match_raises :
  exists d j,
    d !! k_jd_match_score = Some j
    /\ raises (to_float j)
    /\ ~ returns (calculate_repo_score (VDict d)).
Proof.
  exists (with_jd (VStr "N/A")), (VStr "N/A"). split; [vm_compute; reflexivity|].
  split; [exists ValueError; reflexivity|].
  intros [v Hv]. vm_compute in Hv. discriminate Hv.
Qed.

(** ** The analyzer *)

Lemma missing_field_error (d : gmap string value) :
  lacks_a_field d ->
  exists e, calculate_repo_score (VDict d) = Raise e
            /\ (e = KeyError \/ e = TypeError \/ e = AttributeError).
Proof.
  unfold lacks_a_field. intros H.
  rewrite score_split. unfold base_part, getitem, len, str_lower, mbind, result_bind.
  destruct (d !! k_languages) as [v1|] eqn:E1; [|eauto].
  destruct v1; eauto;
    (destruct (d !! k_tech_stack) as [v2|] eqn:E2; [|eauto]);
    destruct v2; eauto;
    (destruct (d !! k_algorithms) as [v3|] eqn:E3; [|eauto]);
    destruct v3; eauto;
    (destruct (d !! k_complexity) as [v4|] eqn:E4; [|eauto]);
    destruct v4; eauto;
    (destruct (d !! k_commit_activity) as [v5|] eqn:E5; [|eauto]);
    destruct v5; eauto;
    exfalso; intuition congruence.
Qed.

Lemma missing_field_key_error (d : gmap string value) :
  lacks_a_field d -> present_fields_fit d ->
  calculate_repo_score (VDict d) = Raise KeyError.
Proof.
  unfold lacks_a_field. intros H (H1 & H2 & H3 & H4 & H5).
  rewrite score_split. unfold base_part, getitem, len, str_lower, mbind, result_bind.
  destruct (d !! k_languages) as [v1|] eqn:E1; [|reflexivity].
  specialize (H1 v1 eq_refl).
  destruct v1; try contradiction;
    (destruct (d !! k_tech_stack) as [v2|] eqn:E2; [|reflexivity]);
    specialize (H2 v2 eq_refl);
    destruct v2; try contradiction;
    (destruct (d !! k_algorithms) as [v3|] eqn:E3; [|reflexivity]);
    specialize (H3 v3 eq_refl);
    destruct v3; try contradiction;
    (destruct (d !! k_complexity) as [v4|] eqn:E4; [|reflexivity]);
    specialize (H4 v4 eq_refl);
    destruct v4; try contradiction;
    (destruct (d !! k_commit_activity) as [v5|] eqn:E5; [|reflexivity]);
    exfalso; intuition congruence.
Qed.

Lemma score_with_zero (d : gmap string value) :
  d !! k_jd_match_score = None ->
  calculate_repo_score (VDict d)
  = calculate_repo_score (VDict (<[k_jd_match_score := VInt 0]> d)).
Proof.
  intros Hj. rewrite !score_split, base_part_insert_jd.
  destruct (base_part (VDict d)) as [b|e]; [|reflexivity].
  cbn [mbind result_bind dict_get]. rewrite Hj, lookup_insert_eq. reflexivity.
Qed.

(** C4, as the code has it: a response that parses as a record is handed on
    as it is, no default is filled in.  When one of the five fields that the
    scoring indexes is missing, the scoring raises: [KeyError] when the
    fields that are there are of the expected kinds, and in every case one
    of [KeyError], [TypeError] and [AttributeError], the error of the first
    statement that fails.  When only the job-match score is missing, the
    scoring returns what it returns for a job-match score of 0:
    round(base_score * 0.6). *)
Theorem parsed_record_passes_unchanged
    (prompt_format : string -> string -> string -> string -> string -> result string)
    (json_loads : string -> result value)
    (readme : string) (file_structure commits languages : list string)
    (jd : string) (llm : string -> result string) (d : gmap string value) :
  analyze_try prompt_format json_loads readme file_structure commits languages jd llm
  = Ok (VDict d) ->
  analyze_repo_and_jd_match prompt_format json_loads readme file_structure commits
    languages jd llm = (VDict d, None)
  /\ (lacks_a_field d -> present_fields_fit d ->
      calculate_repo_score (VDict d) = Raise KeyError)
  /\ (lacks_a_field d ->
      exists e, calculate_repo_score (VDict d) = Raise e
                /\ (e = KeyError \/ e = TypeError \/ e = AttributeError))
  /\ (forall ls ts als c ca,
      d !! k_languages = Some (VList ls) ->
      d !! k_tech_stack = Some (VList ts) ->
      d !! k_algorithms = Some (VList als) ->
      d !! k_complexity = Some (VStr c) ->
      d !! k_commit_activity = Some (VStr ca) ->
      d !! k_jd_match_score = None ->
      calculate_repo_score (VDict d)
      = calculate_repo_score (VDict (<[k_jd_match_score := VInt 0]> d))
      /\ calculate_repo_score (VDict d)
         = Spec.score (Spec.base_score ls ts als c ca) f0
      /\ calculate_repo_score (VDict d)
         = Ok ((6 * Spec.base_score ls ts als c ca + 5) / 10)).
Proof.
  intros H. split; [|split; [|split]].
  - unfold analyze_repo_and_jd_match. rewrite H. reflexivity.
  - apply missing_field_key_error.
  - apply missing_field_error.
  - intros ls ts als c ca Hl Ht Ha Hc Hca Hj.
    destruct (score_when_absent d ls ts als c ca Hl Ht Ha Hc Hca Hj) as [E1 E2].
    split; [apply score_with_zero; exact Hj|]. split; assumption.
Qed.

Lemma parsed_record_passes_unchanged_witness :
  analyze_repo_and_jd_match format_plain loads_empty_record "" [] [] [] "" (llm_says "{}")
  = (VDict ∅, None)
  /\ calculate_repo_score (VDict ∅) = Raise KeyError
  /\ exists e, calculate_repo_score (VDict ∅) = Raise e
               /\ (e = KeyError \/ e = TypeError \/ e = AttributeError).
Proof.
  destruct (parsed_record_passes_unchanged format_plain loads_empty_record
              "" [] [] [] "" (llm_says "{}") ∅) as (H1 & H2 & H3 & _).
  { vm_compute. reflexivity. }
  assert (lacks_a_field ∅) as Hl by (left; reflexivity).
  assert (present_fields_fit ∅) as Hf by (repeat split; intros v Hv; discriminate Hv).
  split; [exact H1|]. split; [exact (H2 Hl Hf)|exact (H3 Hl)].
Defined.

(** A record with a number where the languages should be and without the
    rest raises [TypeError], not [KeyError]; the scenario without its
    job-match score scores 34, as with a job-match score of 0. *)
Example ill_typed_field_raises_type_error :
  calculate_repo_score (VDict (<[k_languages := VInt 3]> ∅)) = Raise TypeError
  /\ calculate_repo_score (VDict (delete k_jd_match_score scenario)) = Ok 34
  /\ calculate_repo_score (VDict (<[k_jd_match_score := VInt 0]> scenario)) = Ok 34.
Proof. repeat split; vm_compute; reflexivity. Qed.

(** C4 as stated fails: the response {} parses as a record without any
    field, reaches the scoring as it is, and the scoring raises. *)
Lemma missing_fields_not_defaulted :
  fst (analyze_repo_and_jd_match format_plain loads_empty_record
         "" [] [] [] "" (llm_says "{}")) = VDict ∅
  /\ calculate_repo_score
       (fst (analyze_repo_and_jd_match format_plain loads_empty_record
               "" [] [] [] "" (llm_says "{}"))) = Raise KeyError.
Proof. split; vm_compute; reflexivity. Qed.

(** *** Locating the record in the response *)

Lemma app_empty (t : string) : "" +:+ t = t.
Proof. reflexivity. Qed.

Lemma app_cons (c : ascii) (s t : string) : String c s +:+ t = String c (s +:+ t).
Proof. reflexivity. Qed.

Lemma len_str_cons (c : ascii) (s : string) : len_str (String c s) = len_str s + 1.
Proof. unfold len_str. cbn [String.length]. lia. Qed.

Lemma len_str_nonneg (s : string) : 0 <= len_str s.
Proof. unfold len_str. lia. Qed.

Lemma len_str_app (s t : string) : len_str (s +:+ t) = len_str s + len_str t.
Proof.
  induction s as [|c s IH]; [reflexivity|].
  rewrite app_cons, !len_str_cons, IH. lia.
Qed.

Lemma find_fresh (pre rest : string) (c : ascii) :
  occurs c pre = false -> find (pre +:+ String c rest) c = len_str pre.
Proof.
  induction pre as [|d pre IH]; rewrite ?app_empty, ?app_cons; cbn [occurs find]; intros H.
  - rewrite Ascii.eqb_refl. reflexivity.
  - apply orb_false_elim in H as [Hd Hp]. rewrite Hd, (IH Hp), len_str_cons.
    pose proof (len_str_nonneg pre). rewrite (proj2 (Z.ltb_ge _ _)) by lia. reflexivity.
Qed.

Lemma rfind_absent (s : string) (c : ascii) : occurs c s = false -> rfind s c = -1.
Proof.
  induction s as [|d s IH]; cbn [occurs rfind]; intros H; [reflexivity|].
  apply orb_false_elim in H as [Hd Hs]. rewrite (IH Hs), Hd. reflexivity.
Qed.

Lemma rfind_fresh (s post : string) (c : ascii) :
  occurs c post = false -> rfind (s +:+ String c post) c = len_str s.
Proof.
  intros H. induction s as [|d s IH]; rewrite ?app_empty, ?app_cons; cbn [rfind].
  - rewrite (rfind_absent post c H), Ascii.eqb_refl. reflexivity.
  - rewrite IH, len_str_cons. pose proof (len_str_nonneg s).
    rewrite (proj2 (Z.leb_le _ _)) by lia. reflexivity.
Qed.

Lemma substring_prefix (x post : string) :
  String.substring 0 (String.length x) (x +:+ post) = x.
Proof.
  induction x as [|c x IH]; rewrite ?app_empty, ?app_cons; cbn [String.length String.substring].
  - destruct post; reflexivity.
  - rewrite IH. reflexivity.
Qed.

Lemma substring_middle (pre x post : string) :
  String.substring (String.length pre) (String.length x) (pre +:+ x +:+ post) = x.
Proof.
  induction pre as [|c pre IH]; rewrite ?app_empty, ?app_cons; cbn [String.length String.substring].
  - apply substring_prefix.
  - exact IH.
Qed.

Lemma slice_middle (pre x post : string) :
  slice (pre +:+ x +:+ post) (len_str pre) (len_str pre + len_str x) = x.
Proof.
  unfold slice, clip. rewrite !len_str_app.
  pose proof (len_str_nonneg pre). pose proof (len_str_nonneg x).
  pose proof (len_str_nonneg post).
  rewrite !(proj2 (Z.ltb_ge _ _)) by lia.
  rewrite !Z.min_l by lia.
  replace (len_str pre + len_str x - len_str pre) with (len_str x) by lia.
  unfold len_str. rewrite !Nat2Z.id. apply substring_middle.
Qed.

Lemma rev_append_rev_append (s a b : string) :
  rev_append (rev_append s a) b = rev_append a (s +:+ b).
Proof.
  revert a b. induction s as [|c s IH]; intros a b; rewrite ?app_empty, ?app_cons; cbn [rev_append].
  - reflexivity.
  - rewrite IH. reflexivity.
Qed.

Lemma string_app_nil_r (s : string) : s +:+ "" = s.
Proof. induction s as [|c s IH]; rewrite ?app_cons; [|rewrite IH]; reflexivity. Qed.

Lemma rev_involutive (s : string) : rev (rev s) = s.
Proof. unfold rev. rewrite rev_append_rev_append. apply string_app_nil_r. Qed.

Lemma rev_append_app (s t acc : string) :
  rev_append (s +:+ t) acc = rev_append t (rev_append s acc).
Proof.
  revert acc. induction s as [|c s IH]; intros acc; rewrite ?app_empty, ?app_cons; cbn [rev_append].
  - reflexivity.
  - apply IH.
Qed.

Lemma strip_braced (mid : string) :
  strip (String "{" (mid +:+ "}")) = String "{" (mid +:+ "}").
Proof.
  unfold strip, strip_by. cbn [lstrip_by]. change (is_space "{") with false. cbv iota.
  assert (rev (String "{" (mid +:+ "}")) = String "}" (rev (String "{" mid))) as E.
  { unfold rev. change (String "{" (mid +:+ "}")) with (String "{" mid +:+ "}").
    rewrite rev_append_app. reflexivity. }
  rewrite E. cbn [lstrip_by]. change (is_space "}") with false. cbv iota.
  rewrite <- E. apply rev_involutive.
Qed.

Lemma string_app_assoc (a b c : string) : (a +:+ b) +:+ c = a +:+ (b +:+ c).
Proof.
  induction a as [|x a IH]; rewrite ?app_empty, ?app_cons; [|rewrite IH]; reflexivity.
Qed.

Lemma json_text_located (pre mid post : string) :
  occurs "{" pre = false -> occurs "}" post = false ->
  json_text (pre +:+ String "{" (mid +:+ String "}" post)) = String "{" (mid +:+ "}").
Proof.
  intros Hpre Hpost. unfold json_text.
  set (R := pre +:+ String "{" (mid +:+ String "}" post)).
  assert (find R "{" = len_str pre) as Hf by (apply find_fresh; exact Hpre).
  assert (rfind R "}" = len_str (pre +:+ String "{" mid)) as Hr.
  { replace R with ((pre +:+ String "{" mid) +:+ String "}" post).
    - apply rfind_fresh. exact Hpost.
    - unfold R. rewrite string_app_assoc, app_cons. reflexivity. }
  assert (R = pre +:+ String "{" (mid +:+ "}") +:+ post) as ES.
  { unfold R. rewrite app_cons, string_app_assoc, app_cons, app_empty. reflexivity. }
  rewrite Hf, Hr, ES.
  replace (len_str (pre +:+ String "{" mid) + 1)
    with (len_str pre + len_str (String "{" (mid +:+ "}"))).
  - rewrite slice_middle. apply strip_braced.
  - rewrite !len_str_app, !len_str_cons, len_str_app. change (len_str "}") with 1. lia.
Qed.

Lemma find_range (s : string) (c : ascii) : -1 <= find s c < len_str s.
Proof.
  induction s as [|d s IH]; cbn [find]; [unfold len_str; simpl; lia|].
  rewrite len_str_cons. pose proof (len_str_nonneg s).
  destruct (Ascii.eqb d c); [lia|].
  destruct (Z.ltb_spec (find s c) 0); lia.
Qed.

Lemma rfind_range (s : string) (c : ascii) : -1 <= rfind s c < len_str s.
Proof.
  induction s as [|d s IH]; cbn [rfind]; [unfold len_str; simpl; lia|].
  rewrite len_str_cons. pose proof (len_str_nonneg s).
  destruct (Z.leb_spec 0 (rfind s c)); [lia|].
  destruct (Ascii.eqb d c); lia.
Qed.

Lemma substring_none (n : nat) (s : string) : String.substring n 0 s = "".
Proof.
  revert s. induction n as [|n IH]; intros [|c s]; cbn [String.substring]; auto.
Qed.

Lemma rfind_at_end (s : string) (c : ascii) :
  rfind s c = len_str s - 1 -> 0 < len_str s ->
  String.substring (Z.to_nat (len_str s - 1)) 1 s = String c "".
Proof.
  induction s as [|d s IH]; [unfold len_str; simpl; lia|].
  rewrite len_str_cons. cbn [rfind]. intros H _.
  pose proof (rfind_range s c) as Hr. pose proof (len_str_nonneg s) as Hl.
  replace (len_str s + 1 - 1) with (len_str s) in * by lia.
  destruct (Z.leb_spec 0 (rfind s c)) as [H0|H0].
  - assert (Z.to_nat (len_str s) = S (Z.to_nat (len_str s - 1))) as -> by lia.
    cbn [String.substring]. apply IH; lia.
  - destruct (Ascii.eqb_spec d c) as [->|]; [|lia].
    assert (len_str s = 0) as E by lia. rewrite E.
    destruct s; [reflexivity|]. rewrite len_str_cons in E.
    pose proof (len_str_nonneg s). lia.
Qed.

(** When no opening brace comes before the last closing brace, the text
    handed to the parser is empty or the closing brace alone. *)
Lemma json_text_unlocated (response : string) :
  find response "{" < 0 \/ rfind response "}" < find response "{" ->
  json_text response = "" \/ json_text response = "}".
Proof.
  intros H. unfold json_text, slice.
  pose proof (find_range response "{") as Hf.
  pose proof (rfind_range response "}") as Hr.
  pose proof (len_str_nonneg response) as Hl.
  set (n := len_str response) in *. set (a := find response "{") in *.
  set (j := rfind response "}") in *.
  assert (clip n (j + 1) = j + 1) as ->.
  { unfold clip. rewrite (proj2 (Z.ltb_ge _ _)) by lia. lia. }
  destruct (Z.ltb_spec a 0) as [Ha|Ha].
  - assert (clip n a = Z.max (n - 1) 0) as ->.
    { unfold clip. rewrite (proj2 (Z.ltb_lt _ _)) by lia. f_equal. lia. }
    destruct (Z.eq_dec (j + 1) n) as [E|NE].
    + destruct (Z.eq_dec n 0) as [E0|N0].
      * left. replace (Z.to_nat (j + 1 - Z.max (n - 1) 0)) with 0%nat by lia.
        rewrite substring_none. reflexivity.
      * right. replace (Z.max (n - 1) 0) with (n - 1) by lia.
        replace (Z.to_nat (j + 1 - (n - 1))) with 1%nat by lia.
        unfold n. rewrite (rfind_at_end response "}"); [reflexivity| |]; fold n; fold j; lia.
    + left. replace (Z.to_nat (j + 1 - Z.max (n - 1) 0)) with 0%nat by lia.
      rewrite substring_none. reflexivity.
  - left. assert (clip n a = a) as ->.
    { unfold clip. rewrite (proj2 (Z.ltb_ge _ _)) by lia. lia. }
    replace (Z.to_nat (j + 1 - a)) with 0%nat by lia.
    rewrite substring_none. reflexivity.
Qed.

(** C9: the analyzer hands to the parser the text from the first opening
    brace to the last closing brace of the model's output (and, when there
    is no such span, the empty text or a lone closing brace); whatever the
    try block raises, the prompt, the model or the parser, it returns the
    default analysis: empty languages, tech_stack, algorithms and
    jd_match_reasons, complexity and commit_activity unknown,
    jd_match_score 0. *)
Theorem analyzer_locates_record_or_defaults
    (prompt_format : string -> string -> string -> string -> string -> result string)
    (json_loads : string -> result value)
    (readme : string) (file_structure commits languages : list string)
    (jd : string) (llm : string -> result string) :
  (forall prompt pre mid post,
      prompt_format readme (join ", " file_structure) (join ", " commits)
        (join ", " languages) jd = Ok prompt ->
      llm prompt = Ok (pre +:+ String "{" (mid +:+ String "}" post)) ->
      occurs "{" pre = false -> occurs "}" post = false ->
      analyze_try prompt_format json_loads readme file_structure commits languages jd llm
      = json_loads (String "{" (mid +:+ "}")))
  /\ (forall prompt response,
      prompt_format readme (join ", " file_structure) (join ", " commits)
        (join ", " languages) jd = Ok prompt ->
      llm prompt = Ok response ->
      find response "{" < 0 \/ rfind response "}" < find response "{" ->
      analyze_try prompt_format json_loads readme file_structure commits languages jd llm
      = json_loads ""
      \/ analyze_try prompt_format json_loads readme file_structure commits languages jd llm
         = json_loads "}")
  /\ (forall v,
      analyze_try prompt_format json_loads readme file_structure commits languages jd llm
      = Ok v ->
      analyze_repo_and_jd_match prompt_format json_loads readme file_structure commits
        languages jd llm = (v, None))
  /\ (forall e,
      analyze_try prompt_format json_loads readme file_structure commits languages jd llm
      = Raise e ->
      analyze_repo_and_jd_match prompt_format json_loads readme file_structure commits
        languages jd llm = (default_analysis, Some e))
  /\ default_analysis
     = VDict (list_to_map
                [(k_languages, VList []); (k_tech_stack, VList []);
                 (k_algorithms, VList []); (k_complexity, VStr "unknown");
                 (k_commit_activity, VStr "unknown"); (k_jd_match_score, VInt 0);
                 (k_jd_match_reasons, VList [])]).
Proof.
  split; [|split; [|split; [|split]]].
  - intros prompt pre mid post Hp Hl Hpre Hpost.
    unfold analyze_try. rewrite Hp. cbn [mbind result_bind]. rewrite Hl.
    cbn [mbind result_bind]. rewrite json_text_located by assumption. reflexivity.
  - intros prompt response Hp Hl Hno.
    unfold analyze_try. rewrite Hp. cbn [mbind result_bind]. rewrite Hl.
    cbn [mbind result_bind].
    destruct (json_text_unlocated response Hno) as [-> | ->]; [left|right]; reflexivity.
  - intros v H. unfold analyze_repo_and_jd_match. rewrite H. reflexivity.
  - intros e H. unfold analyze_repo_and_jd_match. rewrite H. reflexivity.
  - reflexivity.
Qed.

Lemma analyzer_locates_record_or_defaults_witness :
  analyze_try format_plain loads_empty_record "" [] [] [] "" (llm_says "Here it is: {} Done.")
  = loads_empty_record "{}"
  /\ analyze_repo_and_jd_match format_plain loads_empty_record "" [] [] [] ""
       (llm_says "no record") = (default_analysis, Some ValueError).
Proof.
  destruct (analyzer_locates_record_or_defaults format_plain loads_empty_record
              "" [] [] [] "" (llm_says "Here it is: {} Done.")) as (H1 & _).
  destruct (analyzer_locates_record_or_defaults format_plain loads_empty_record
              "" [] [] [] "" (llm_says "no record")) as (_ & _ & _ & H3 & _).
  split.
  - apply (H1 "" "Here it is: " "" " Done."); reflexivity.
  - apply H3. reflexivity.
Defined.

(** ** A job-match score given as text *)
























(** ** The candidate evaluator *)



Lemma int_truediv_finite (a b : Z) :
  a <> 0 -> b <> 0 ->
  is_finite (round_quotient (xorb (a <? 0) (b <? 0)) (Z.abs a) (Z.abs b)) = true ->
  int_truediv a b = Ok (round_quotient (xorb (a <? 0) (b <? 0)) (Z.abs a) (Z.abs b)).
Proof.
  intros Ha Hb Hf. unfold int_truediv.
  rewrite (proj2 (Z.eqb_neq b 0) Hb), (proj2 (Z.eqb_neq a 0) Ha).
  destruct (round_quotient _ _ _); try reflexivity; discriminate.
Qed.


(** C6: with no repository the evaluator answers with its own sentinel, for
    every total, although the division it skips would raise; the sentinel is
    none of the four suitability labels. *)
Theorem evaluate_no_repositories (total_score : number) :
  evaluate_candidate total_score 0 = Ok unable_to_evaluate
  /\ truediv total_score 0 = Raise ZeroDivisionError
  /\ unable_to_evaluate <> highly_suitable
  /\ unable_to_evaluate <> moderately_suitable
  /\ unable_to_evaluate <> potentially_suitable
  /\ unable_to_evaluate <> not_suitable.
Proof.
  split; [reflexivity|]. split.
  - destruct total_score; reflexivity.
  - repeat split; discriminate.
Qed.

(** *** A total that is a float *)








(** * The pipeline: GitHub, the model and the loop over the repositories *)

Import Api.

(** ** Computations with effects *)

Section Effects.

Context {S : services}.

Lemma bind_returns {A B} (m : IO.io S A) (k : A -> IO.io S B) w b w2 evs :
  IO.bind S m k w = (Ok b, w2, evs) ->
  exists a w1 e1 e2, m w = (Ok a, w1, e1) /\ k a w1 = (Ok b, w2, e2) /\ evs = e1 ++ e2.
Proof.
  unfold IO.bind. destruct (m w) as [[[a|e] w1] e1]; [|discriminate].
  destruct (k a w1) as [[r w2'] e2] eqn:Ek. intros [= -> -> <-].
  exists a, w1, e1, e2. auto.
Qed.

Lemma bind_raises {A B} (m : IO.io S A) (k : A -> IO.io S B) w e w1 e1 :
  m w = (Raise e, w1, e1) -> IO.bind S m k w = (Raise e, w1, e1).
Proof. intros H. unfold IO.bind. rewrite H. reflexivity. Qed.

Lemma bind_step {A B} (m : IO.io S A) (k : A -> IO.io S B) w a w1 e1 :
  m w = (Ok a, w1, e1) ->
  IO.bind S m k w = (let '(r, w2, e2) := k a w1 in (r, w2, e1 ++ e2)).
Proof. intros H. unfold IO.bind. rewrite H. reflexivity. Qed.

Lemma lift_returns {A} (r : result A) w a w1 evs :
  IO.lift S r w = (Ok a, w1, evs) -> r = Ok a /\ w1 = w /\ evs = [].
Proof. unfold IO.lift. intros [= -> <- <-]. auto. Qed.

Lemma emit_returns (ev : event) w u w1 evs :
  IO.emit S ev w = (Ok u, w1, evs) -> w1 = w /\ evs = [ev].
Proof. unfold IO.emit. intros [= _ <- <-]. auto. Qed.

End Effects.

(** *** What a computation emits *)

Section Emits.

Context {S : services}.
Variable P : event -> Prop.

Lemma emits_ret {A} (a : A) : emits P (mret a : IO.io S A).
Proof. intros w. constructor. Qed.

Lemma emits_lift {A} (r : result A) : emits P (IO.lift S r).
Proof. intros w. constructor. Qed.

Lemma emits_emit (ev : event) : P ev -> emits P (IO.emit S ev).
Proof. intros H w. repeat constructor. exact H. Qed.

Lemma emits_get (url : json) (headers : option json) :
  P (HttpGet url headers) -> emits P (IO.get S url headers).
Proof.
  intros H w. unfold IO.get. destruct (requests_get S url headers w). repeat constructor. exact H.
Qed.

Lemma emits_invoke (llm : IO.model S) (prompt : string) :
  P (Invoke prompt) -> emits P (IO.invoke S llm prompt).
Proof. intros H w. unfold IO.invoke. destruct (llm prompt w). repeat constructor. exact H. Qed.

Lemma emits_bind {A B} (m : IO.io S A) (k : A -> IO.io S B) :
  emits P m -> (forall a, emits P (k a)) -> emits P (m ≫= k).
Proof.
  intros Hm Hk w. unfold mbind, IO.io_bind, IO.bind. specialize (Hm w).
  destruct (m w) as [[[a|e] w1] e1]; cbn [snd] in *; [|exact Hm].
  specialize (Hk a w1). destruct (k a w1) as [[r w2] e2]. cbn [snd] in *.
  apply Forall_app; auto.
Qed.

Lemma emits_try {A} (body : IO.io S A) (handler : exn -> IO.io S A) :
  emits P body -> (forall e, emits P (handler e)) -> emits P (IO.try_except S body handler).
Proof.
  intros Hm Hk w. unfold IO.try_except. specialize (Hm w).
  destruct (body w) as [[[a|e] w1] e1]; cbn [snd] in *; [exact Hm|].
  specialize (Hk e w1). destruct (handler e w1) as [[r w2] e2]. cbn [snd] in *.
  apply Forall_app; auto.
Qed.

End Emits.

(** Goes through a computation step by step and leaves what is to be shown
    of each event. *)
Ltac emits_steps :=
  repeat first
    [ apply emits_ret
    | apply emits_lift
    | apply emits_emit
    | apply emits_get
    | apply emits_invoke
    | apply emits_bind; [|intros ?]
    | apply emits_try; [|intros ?]
    | match goal with
      | |- emits _ (if ?c then _ else _) => destruct c
      | |- emits _ (let '(_, _) := ?x in _) => destruct x
      end ].

(** ** The loop over the repositories *)

Lemma total_of_app (l1 l2 : list IO.entry) : total_of (l1 ++ l2) = total_of l1 + total_of l2.
Proof.
  unfold total_of. induction l1 as [|x l1 IH]; cbn [foldr app]; [lia|]. rewrite IH. lia.
Qed.

(** Takes apart a hypothesis that says that a sequence of steps returns. *)
Ltac io_inv H :=
  lazymatch type of H with
  | mbind _ _ _ = (Ok _, _, _) =>
      let a := fresh "a" in let w := fresh "w" in
      let e1 := fresh "evs" in let e2 := fresh "evs" in
      let H1 := fresh "H" in let H2 := fresh "H" in let E := fresh "E" in
      apply bind_returns in H as (a & w & e1 & e2 & H1 & H2 & E);
      io_inv H1; io_inv H2
  | IO.lift _ _ _ = (Ok _, _, _) =>
      let E1 := fresh "E" in let E2 := fresh "E" in let E3 := fresh "E" in
      apply lift_returns in H as (E1 & E2 & E3)
  | IO.emit _ _ _ = (Ok _, _, _) =>
      let E2 := fresh "E" in let E3 := fresh "E" in
      apply emit_returns in H as (E2 & E3)
  | _ => idtac
  end.

Lemma analyze_loop_returns (S : services) (username : string) (headers : json)
    (llm : IO.model S) (jd : string) (repos : json) (rest : list json) (idx : Z)
    (results : list IO.entry) (total : Z) w out w' evs :
  IO.analyze_loop S username headers llm jd repos rest idx results total w = (Ok out, w', evs) ->
  exists new,
    fst out = results ++ new
    /\ snd out = total + total_of new
    /\ Forall scored new
    /\ Forall (analysed S jd llm) new
    /\ Forall2 named rest new.
Proof.
  revert idx results total w evs.
  induction rest as [|repo rest IH]; intros idx results total w evs H.
  - injection H as <- <- <-. exists []. cbn [fst snd total_of foldr]. rewrite app_nil_r.
    repeat split; try lia; constructor.
  - cbn [IO.analyze_loop] in H. io_inv H.
    destruct a1 as [[[readme commits] file_structure] languages]. io_inv H1.
    match goal with
    | Hn : getitem repo "name" = Ok ?name,
      Ha : IO.analyze_repo_and_jd_match S _ _ _ _ _ _ _ = (Ok ?analysis, _, _),
      Hs : calculate_repo_score ?analysis = Ok ?score,
      Hl : IO.analyze_loop _ _ _ _ _ _ _ _ _ _ _ = _ |- _ =>
        apply IH in Hl as (new & E1' & E2' & Hs' & Ha' & Hn');
        exists ((name, analysis, score) :: new);
        rewrite E1', E2', <- app_assoc; cbn [app];
        split; [reflexivity|];
        split; [unfold total_of; cbn [foldr snd]; lia|];
        split; [constructor; [exact Hs|exact Hs']|];
        split; [constructor; [|exact Ha']|constructor; [exact Hn|exact Hn']];
        unfold analysed; cbn [fst snd]; eauto 10
    end.
Qed.

(** ** Where the token goes *)

Lemma get_github_repos_to_github (S : services) (username : string) (headers : json) :
  emits (to_github_only headers) (IO.get_github_repos S username headers).
Proof.
  unfold IO.get_github_repos. emits_steps; cbn; auto.
  split; [reflexivity|]. eexists. reflexivity.
Qed.

Lemma get_repo_details_to_github (S : services) (username : string) (repo_name headers : json) :
  emits (to_github_only headers) (IO.get_repo_details S username repo_name headers).
Proof.
  unfold IO.get_repo_details. emits_steps; cbn; auto;
    (split; [reflexivity|]; eexists; reflexivity).
Qed.

Lemma analyze_to_github (S : services) (headers : json) (readme : string)
    (file_structure commits : list json) (languages : list string) (jd : string)
    (llm : IO.model S) :
  emits (to_github_only headers)
    (IO.analyze_repo_and_jd_match S readme file_structure commits languages jd llm).
Proof. unfold IO.analyze_repo_and_jd_match. emits_steps; exact I. Qed.

Lemma analyze_loop_to_github (S : services) (username : string) (headers : json)
    (llm : IO.model S) (jd : string) (repos : json) (rest : list json) (idx : Z)
    (results : list IO.entry) (total : Z) :
  emits (to_github_only headers)
    (IO.analyze_loop S username headers llm jd repos rest idx results total).
Proof.
  revert idx results total. induction rest as [|repo rest IH]; intros idx results total.
  - apply emits_ret.
  - cbn [IO.analyze_loop].
    apply emits_bind; [apply emits_lift|intros name].
    apply emits_bind; [apply emits_emit; exact I|intros _].
    apply emits_bind; [apply get_repo_details_to_github|intros [[[readme commits] fs] langs]].
    apply emits_bind; [apply analyze_to_github|intros analysis].
    emits_steps; try exact I. apply IH.
Qed.

(** X1: the headers with the token go with requests to
    [https://api.github.com/] and with no other request; the download of
    the README is a request without them. *)
Theorem token_goes_to_github_only (S : services) (username : string) (headers : json)
    (llm : IO.model S) (jd : string) (w : world S) (url h : json) :
  In (HttpGet url (Some h)) (snd (IO.analyze_github_repos S username headers llm jd w)) ->
  h = headers /\ exists path, url = JStr ("https://api.github.com/" +:+ path).
Proof.
  intros Hin.
  assert (emits (to_github_only headers)
            (IO.analyze_github_repos S username headers llm jd)) as H.
  { unfold IO.analyze_github_repos.
    apply emits_bind; [apply get_github_repos_to_github|intros repos].
    destruct (negb (truthy repos)); emits_steps; try exact I.
    apply analyze_loop_to_github. }
  specialize (H w). rewrite List.Forall_forall in H. exact (H _ Hin).
Qed.

Lemma token_goes_to_github_only_witness :
  demo_headers = demo_headers
  /\ exists path,
       JStr "https://api.github.com/repos/octocat/hello/languages"
       = JStr ("https://api.github.com/" +:+ path).
Proof.
  apply (token_goes_to_github_only demo "octocat" demo_headers demo_llm "jd" tt).
  vm_compute. do 7 right. left. reflexivity.
Defined.

(** ** What the analysis returns *)

Lemma loop_needs_records (rest : list json) (new : list IO.entry) (s : string) (tl : list json) :
  rest = JStr s :: tl -> Forall2 named rest new -> False.
Proof. intros -> H. inversion H as [|? ? ? ? Hn]. discriminate Hn. Qed.

Lemma analyze_github_repos_returns (S : services) (username : string) (headers : json)
    (llm : IO.model S) (jd : string) w a w' evs :
  IO.analyze_github_repos S username headers llm jd w = (Ok a, w', evs) ->
  exists repos w1 evs1,
    IO.get_github_repos S username headers w = (Ok repos, w1, evs1)
    /\ ((truthy repos = false /\ a = IO.Nothing /\ w' = w1
        /\ evs = evs1 ++ [StError "No repositories found or failed to fetch repositories."])
       \/ (exists items results total,
             repos = JList items /\ items <> [] /\ a = IO.Analysed results total
             /\ Forall2 named items results
             /\ Forall scored results
             /\ Forall (analysed S jd llm) results
             /\ total = total_of results)).
Proof.
  unfold IO.analyze_github_repos. intros H.
  apply bind_returns in H as (repos & w1 & evs1 & evs2 & Hg & H & ->).
  exists repos, w1, evs1. split; [exact Hg|].
  destruct (truthy repos) eqn:Et; cbn [negb] in H.
  - right. io_inv H.
    match goal with
    | Hl : IO.analyze_loop _ _ _ _ _ _ _ _ _ _ _ = _ |- _ =>
        apply analyze_loop_returns in Hl as (new & E1' & E2' & Hs & Ha & Hn)
    end.
    match goal with Hr : mret _ _ = (Ok a, _, _) |- _ => injection Hr as <- _ _ end.
    match goal with He : elements repos = Ok ?rest |- _ =>
      destruct repos as [| | | |s|l|items]; try discriminate He; cbn [elements] in He;
        injection He as <- end.
    + destruct s as [|c s]; [discriminate Et|].
      exact (False_ind _ (loop_needs_records _ _ _ _ eq_refl Hn)).
    + exists l, new, (total_of new). cbn [app] in E1'. rewrite E1', E2'.
      split; [reflexivity|]. split; [intros ->; discriminate Et|].
      split; [f_equal; lia|]. auto.
    + destruct items as [|[k v] items]; [discriminate Et|].
      exact (False_ind _ (loop_needs_records _ _ _ _ eq_refl Hn)).
  - left. io_inv H.
    match goal with Hr : mret _ _ = (Ok a, _, _) |- _ => injection Hr as <- <- <- end.
    subst. rewrite app_nil_r. auto.
Qed.

(** X2: when [analyze_github_repos] returns results, it has one entry for
    every repository GitHub listed, in the same order and under its name;
    the score of an entry is the score of its analysis, and the total is the
    sum of the scores.  No repository is skipped: a failure on one is a
    failure of the whole call. *)
Theorem analysis_covers_every_repository (S : services) (username : string)
    (headers : json) (llm : IO.model S) (jd : string) (w : world S)
    (results : list IO.entry) (total : Z) (w' : world S) (evs : list event) :
  IO.analyze_github_repos S username headers llm jd w
  = (Ok (IO.Analysed results total), w', evs) ->
  exists repos w1 evs1,
    IO.get_github_repos S username headers w = (Ok (JList repos), w1, evs1)
    /\ repos <> []
    /\ Forall2 (fun repo e => Api.getitem repo "name" = Ok (fst (fst e))) repos results
    /\ Forall (fun e => calculate_repo_score (snd (fst e)) = Ok (snd e)) results
    /\ total = foldr (fun e acc => snd e + acc) 0 results.
Proof.
  intros H. apply analyze_github_repos_returns in H as (repos & w1 & evs1 & Hg & H).
  destruct H as [(_ & [=] & _)|(items & results' & total' & -> & Hne & [= <- <-] & Hn & Hs & _ & ->)].
  exists items, w1, evs1. auto.
Qed.

Lemma analysis_covers_every_repository_witness :
  exists repos w1 evs1,
    IO.get_github_repos demo "octocat" demo_headers tt = (Ok (JList repos), w1, evs1)
    /\ repos <> []
    /\ Forall2 (fun repo e => Api.getitem repo "name" = Ok (fst (fst e))) repos
         [(JStr "hello", VDict scenario, 66)]
    /\ Forall (fun e => calculate_repo_score (snd (fst e)) = Ok (snd e))
         [(JStr "hello", VDict scenario, 66)]
    /\ 66 = foldr (fun e acc => snd e + acc) 0 [(JStr "hello", VDict scenario, 66)].
Proof.
  eapply (analysis_covers_every_repository demo "octocat" demo_headers demo_llm "jd" tt).
  vm_compute. reflexivity.
Defined.

(** ** The analysis in [main] *)

Lemma main_analysis_returns (S : services) (username : string) (headers : json)
    (llm : IO.model S) (jd : string) w o w' evs :
  IO.main_analysis S username headers llm jd w = (Ok o, w', evs) ->
  exists results total evs1 avg suit,
    IO.analyze_github_repos S username headers llm jd w
    = (Ok (IO.Analysed results total), w', evs1)
    /\ results <> []
    /\ IO.avg_score total (Z.of_nat (length results)) = Ok avg
    /\ evaluate_candidate (NInt total) (Z.of_nat (length results)) = Ok suit
    /\ o = Some {| IO.num_repos := Z.of_nat (length results); IO.average_score := avg;
                   IO.suitability := suit; IO.sorted_analysis := IO.sorted results |}
    /\ evs = StSpinner "Analyzing repositories..." :: evs1.
Proof.
  unfold IO.main_analysis. intros H.
  apply bind_returns in H as (u & w0 & e0 & e1 & H0 & H & ->).
  apply emit_returns in H0 as (-> & ->).
  apply bind_returns in H as (a & w1 & e2 & e3 & Ha & H & ->).
  apply bind_returns in H as ([results total] & w2 & e4 & e5 & Hu & H & ->).
  apply lift_returns in Hu as (Hu & -> & ->).
  destruct a as [|results' total']; [discriminate Hu|]. injection Hu as -> ->.
  pose proof Ha as Hr.
  apply analyze_github_repos_returns in Hr as (repos & w3 & evs3 & _ & Hr).
  destruct Hr as [(_ & [=] & _)|(items & r' & t' & -> & Hne & [= <- <-] & Hn & _)].
  destruct results as [|e results].
  { inversion Hn. subst. congruence. }
  io_inv H.
  match goal with Hr : mret _ _ = (Ok o, _, _) |- _ => injection Hr as <- <- <- end.
  subst. do 5 eexists. split; [exact Ha|].
  split; [discriminate|]. split; [eassumption|]. split; [eassumption|].
  split; [reflexivity|]. cbn [app]. rewrite !app_nil_r. reflexivity.
Qed.

Lemma evaluate_candidate_labels (total : number) (n : Z) (label : string) :
  evaluate_candidate total n = Ok label -> n <> 0 -> label <> unable_to_evaluate.
Proof.
  unfold evaluate_candidate. intros H Hn.
  rewrite (proj2 (Z.eqb_neq _ _) Hn) in H.
  destruct (truediv total n) as [avg|e]; [|discriminate H]. cbn in H.
  repeat match type of H with
         | (if ?c then _ else _) = _ => destruct c
         end; injection H as <-; discriminate.
Qed.

Lemma insert_by_score_length (x : IO.entry) (l : list IO.entry) :
  length (IO.insert_by_score x l) = Datatypes.S (length l).
Proof.
  induction l as [|y l IH]; [reflexivity|]. cbn [IO.insert_by_score].
  destruct (snd x <? snd y); cbn [length]; [rewrite IH|]; reflexivity.
Qed.

Lemma sorted_length (l : list IO.entry) : length (IO.sorted l) = length l.
Proof.
  induction l as [|x l IH]; [reflexivity|]. cbn [IO.sorted foldr].
  fold (IO.sorted l). rewrite insert_by_score_length, IH. reflexivity.
Qed.

(** X3: a summary in [main] always has at least one repository.  So the
    branch of [main] for an empty list of results is never taken,
    [evaluate_candidate] is never called with no repositories there, and
    its sentinel is never the suitability shown. *)
Theorem summary_has_repositories (S : services) (username : string) (headers : json)
    (llm : IO.model S) (jd : string) (w : world S) (o : option IO.summary)
    (w' : world S) (evs : list event) :
  IO.main_analysis S username headers llm jd w = (Ok o, w', evs) ->
  exists s,
    o = Some s
    /\ 0 < IO.num_repos s
    /\ IO.num_repos s = Z.of_nat (length (IO.sorted_analysis s))
    /\ IO.suitability s <> unable_to_evaluate.
Proof.
  intros H.
  apply main_analysis_returns in H
    as (results & total & evs1 & avg & suit & _ & Hne & _ & Hs & -> & _).
  eexists. split; [reflexivity|]. cbn [IO.num_repos IO.sorted_analysis IO.suitability].
  assert (0 < Z.of_nat (length results)).
  { destruct results; [congruence|]. cbn [length]. lia. }
  split; [assumption|]. split; [rewrite sorted_length; reflexivity|].
  eapply evaluate_candidate_labels; [exact Hs|lia].
Qed.

Lemma summary_has_repositories_witness :
  exists s,
    Some {| IO.num_repos := 1; IO.average_score := 66;
            IO.suitability := moderately_suitable;
            IO.sorted_analysis := [(JStr "hello", VDict scenario, 66)] |} = Some s
    /\ 0 < IO.num_repos s
    /\ IO.num_repos s = Z.of_nat (length (IO.sorted_analysis s))
    /\ IO.suitability s <> unable_to_evaluate.
Proof.
  eapply (summary_has_repositories demo "octocat" demo_headers demo_llm "jd" tt).
  vm_compute. reflexivity.
Defined.

(** X4: when GitHub lists no repository, or answers with a status other
    than 200, [analyze_github_repos] returns the empty list and not a pair,
    and the assignment in [main] that takes a pair from it raises
    [ValueError]. *)
Theorem no_repositories_raises_in_main (S : services) (username : string)
    (headers : json) (llm : IO.model S) (jd : string) (w : world S)
    (response : Api.response) (w1 : world S) :
  requests_get S (JStr ("https://api.github.com/users/" +:+ username +:+ "/repos"))
    (Some headers) w = (Ok response, w1) ->
  status_code response <> 200 \/ json_body response = Ok (JList []) ->
  fst (fst (IO.analyze_github_repos S username headers llm jd w)) = Ok IO.Nothing
  /\ fst (fst (IO.main_analysis S username headers llm jd w)) = Raise ValueError
  /\ In (StError "No repositories found or failed to fetch repositories.")
        (snd (IO.main_analysis S username headers llm jd w)).
Proof.
  intros Hr Hc.
  assert (exists evs,
            IO.get_github_repos S username headers w = (Ok (JList []), w1, evs)) as [evs Hg].
  { unfold IO.get_github_repos, mbind, IO.io_bind, IO.bind, IO.get. rewrite Hr.
    destruct (status_code response =? 200) eqn:E.
    - destruct Hc as [Hc|Hc]; [apply Z.eqb_eq in E; contradiction|].
      unfold IO.lift. rewrite Hc. eexists. reflexivity.
    - eexists. reflexivity. }
  assert (IO.analyze_github_repos S username headers llm jd w
          = (Ok IO.Nothing, w1,
             evs ++ [StError "No repositories found or failed to fetch repositories."])) as Ha.
  { unfold IO.analyze_github_repos. unfold mbind at 1. unfold IO.io_bind, IO.bind at 1.
    rewrite Hg. reflexivity. }
  split; [rewrite Ha; reflexivity|].
  unfold IO.main_analysis, mbind, IO.io_bind.
  rewrite (bind_step _ _ w tt w [StSpinner "Analyzing repositories..."]) by reflexivity.
  rewrite (bind_step _ _ _ _ _ _ Ha).
  unfold IO.bind, IO.lift, IO.unpack. cbn [fst snd].
  split; [reflexivity|]. rewrite !in_app_iff. cbn [In]. auto 10.
Qed.

Lemma no_repositories_raises_in_main_witness :
  fst (fst (IO.analyze_github_repos offline "octocat" demo_headers offline_llm "jd" tt))
  = Ok IO.Nothing
  /\ fst (fst (IO.main_analysis offline "octocat" demo_headers offline_llm "jd" tt))
     = Raise ValueError
  /\ In (StError "No repositories found or failed to fetch repositories.")
        (snd (IO.main_analysis offline "octocat" demo_headers offline_llm "jd" tt)).
Proof.
  apply (no_repositories_raises_in_main offline "octocat" demo_headers offline_llm "jd" tt
           (demo_answer 404 (Ok (JDict [("message", JStr "Not Found")]))) tt).
  - reflexivity.
  - left. simpl. lia.
Defined.

(** ** When the model does not answer *)

Lemma invoke_returns (S : services) (llm : IO.model S) (prompt : string) w r w' evs :
  IO.invoke S llm prompt w = (r, w', evs) -> llm prompt w = (r, w') /\ evs = [Invoke prompt].
Proof. unfold IO.invoke. destruct (llm prompt w). intros [= -> -> <-]. auto. Qed.

Lemma analyze_without_model (S : services) (readme : string)
    (file_structure commits : list json) (languages : list string) (jd : string)
    (llm : IO.model S) w a w' evs :
  (forall prompt w0, exists e w1, llm prompt w0 = (Raise e, w1)) ->
  IO.analyze_repo_and_jd_match S readme file_structure commits languages jd llm w
  = (Ok a, w', evs) ->
  a = default_analysis.
Proof.
  intros Hllm. unfold IO.analyze_repo_and_jd_match, IO.try_except.
  match goal with |- context [match ?b w with _ => _ end] => destruct (b w) as [[[x|e] w1] e1] eqn:Hb end.
  - exfalso. io_inv Hb.
    match goal with Hi : IO.invoke _ _ _ _ = _ |- _ =>
      apply invoke_returns in Hi as [Hi _];
      match type of Hi with llm ?p ?w0 = _ =>
        destruct (Hllm p w0) as (e' & w1' & He'); rewrite He' in Hi; discriminate Hi end end.
  - cbn. intros [= <- _ _]. reflexivity.
Qed.

Lemma Forall_insert_by_score (P : IO.entry -> Prop) (x : IO.entry) (l : list IO.entry) :
  P x -> Forall P l -> Forall P (IO.insert_by_score x l).
Proof.
  intros Hx Hl. induction Hl as [|y l Hy Hl IH]; cbn [IO.insert_by_score].
  - repeat constructor. exact Hx.
  - destruct (snd x <? snd y); repeat (constructor; try assumption).
Qed.

Lemma Forall_sorted (P : IO.entry -> Prop) (l : list IO.entry) :
  Forall P l -> Forall P (IO.sorted l).
Proof.
  intros H. induction H as [|x l Hx Hl IH]; [constructor|].
  cbn [IO.sorted foldr]. apply Forall_insert_by_score; assumption.
Qed.

Lemma total_of_zero (l : list IO.entry) : Forall (fun e => snd e = 0) l -> total_of l = 0.
Proof.
  unfold total_of. intros H. induction H as [|x l Hx Hl IH]; cbn [foldr]; [reflexivity|]. lia.
Qed.

(** X5: when every call of the model fails, the analysis does not fail:
    every repository gets the default analysis and the score 0, the
    average is 0 and the candidate is rated not suitable. *)
Theorem model_failure_rates_not_suitable (S : services) (username : string)
    (headers : json) (llm : IO.model S) (jd : string) (w : world S)
    (s : IO.summary) (w' : world S) (evs : list event) :
  (forall prompt w0, exists e w1, llm prompt w0 = (Raise e, w1)) ->
  IO.main_analysis S username headers llm jd w = (Ok (Some s), w', evs) ->
  Forall (fun e => snd (fst e) = default_analysis /\ snd e = 0) (IO.sorted_analysis s)
  /\ IO.average_score s = 0
  /\ IO.suitability s = not_suitable.
Proof.
  intros Hllm H.
  apply main_analysis_returns in H
    as (results & total & evs1 & avg & suit & Ha & Hne & Havg & Hs & [= ->] & _).
  cbn [IO.sorted_analysis IO.average_score IO.suitability].
  apply analyze_github_repos_returns in Ha as (repos & w1 & evs2 & _ & Ha).
  destruct Ha as [(_ & [=] & _)|(items & r' & t' & -> & _ & [= <- <-] & _ & Hsc & Han & ->)].
  assert (Forall (fun e : IO.entry => snd (fst e) = default_analysis /\ snd e = 0) results) as Hall.
  { rewrite List.Forall_forall in *. intros e He.
    destruct (Han e He) as (readme & fs & cs & ls & wa & wb & ev & Hr).
    pose proof (analyze_without_model _ _ _ _ _ _ _ _ _ _ _ Hllm Hr) as Ed.
    split; [exact Ed|]. specialize (Hsc e He). unfold scored in Hsc. rewrite Ed in Hsc.
    rewrite default_analysis_score in Hsc. congruence. }
  assert (total_of results = 0) as Et.
  { apply total_of_zero. eapply Forall_impl; [exact Hall|]. intros e [_ He]. exact He. }
  rewrite Et in *.
  assert (0 < Z.of_nat (length results)) as Hn.
  { destruct results; [congruence|]. cbn [length]. lia. }
  split; [apply Forall_sorted; exact Hall|].
  unfold IO.avg_score, evaluate_candidate, truediv, int_truediv in *.
  rewrite (proj2 (Z.ltb_lt _ _) Hn) in Havg.
  assert ((Z.of_nat (length results) =? 0) = false) as E0 by (apply Z.eqb_neq; lia).
  assert ((Z.of_nat (length results) <? 0) = false) as E1 by (apply Z.ltb_ge; lia).
  rewrite E0 in *. cbn in Havg, Hs. rewrite E1 in *. cbn in Havg, Hs.
  split; [congruence|].
  change (float_ge_int (S754_zero false) 75) with false in Hs.
  change (float_ge_int (S754_zero false) 50) with false in Hs.
  change (float_ge_int (S754_zero false) 25) with false in Hs.
  congruence.
Qed.

Lemma model_failure_rates_not_suitable_witness :
  Forall (fun e => snd (fst e) = default_analysis /\ snd e = 0)
    [(JStr "hello", default_analysis, 0)]
  /\ 0 = 0
  /\ not_suitable = not_suitable.
Proof.
  eapply (model_failure_rates_not_suitable demo "octocat" demo_headers mute_llm "jd" tt
            {| IO.num_repos := 1; IO.average_score := 0; IO.suitability := not_suitable;
               IO.sorted_analysis := [(JStr "hello", default_analysis, 0)] |}).
  - intros prompt w0. exists ExternalError, w0. reflexivity.
  - vm_compute. reflexivity.
Defined.

(** ** The branch of [main] for an empty list of results *)

Lemma analyze_github_repos_quiet (S : services) (username : string) (headers : json)
    (llm : IO.model S) (jd : string) :
  emits not_analysis_failed (IO.analyze_github_repos S username headers llm jd).
Proof.
  assert (forall repo_name, emits not_analysis_failed
            (IO.get_repo_details S username repo_name headers)) as Hd.
  { intros repo_name. unfold IO.get_repo_details. emits_steps; discriminate. }
  assert (forall readme fs cs ls, emits not_analysis_failed
            (IO.analyze_repo_and_jd_match S readme fs cs ls jd llm)) as Ha.
  { intros. unfold IO.analyze_repo_and_jd_match. emits_steps; discriminate. }
  assert (forall repos rest idx results total, emits not_analysis_failed
            (IO.analyze_loop S username headers llm jd repos rest idx results total)) as Hl.
  { intros repos rest. induction rest as [|repo rest IH]; intros idx results total.
    - apply emits_ret.
    - cbn [IO.analyze_loop].
      apply emits_bind; [apply emits_lift|intros name].
      apply emits_bind; [apply emits_emit; discriminate|intros _].
      apply emits_bind; [apply Hd|intros [[[readme commits] fs] langs]].
      apply emits_bind; [apply Ha|intros analysis].
      emits_steps; try discriminate. apply IH. }
  unfold IO.analyze_github_repos.
  apply emits_bind.
  - unfold IO.get_github_repos. emits_steps; discriminate.
  - intros repos. destruct (negb (truthy repos)); emits_steps; try discriminate.
    apply Hl.
Qed.

(** X6: the message of the branch of [main] for an empty list of results
    is never shown, whatever GitHub and the model answer: that branch is
    never taken. *)
Theorem empty_results_branch_is_dead (S : services) (username : string) (headers : json)
    (llm : IO.model S) (jd : string) (w : world S) :
  ~ In (StError "No repositories found or analysis failed.")
       (snd (IO.main_analysis S username headers llm jd w))
  /\ fst (fst (IO.main_analysis S username headers llm jd w)) <> Ok None.
Proof.
  split.
  - pose proof (analyze_github_repos_quiet S username headers llm jd w) as Hq.
    rewrite List.Forall_forall in Hq.
    destruct (IO.analyze_github_repos S username headers llm jd w) as [[r w1] evs1] eqn:Ha.
    cbn [snd] in Hq.
    unfold IO.main_analysis, mbind, IO.io_bind.
    rewrite (bind_step _ _ w tt w [StSpinner "Analyzing repositories..."]) by reflexivity.
    destruct r as [a|e].
    + rewrite (bind_step _ _ _ _ _ _ Ha).
      destruct a as [|results total].
      * unfold IO.bind, IO.lift, IO.unpack. cbn [snd]. rewrite !in_app_iff. cbn [In].
        intros H; repeat (match type of H with _ \/ _ => destruct H as [H|H] end);
          first [discriminate H | contradiction | exact (Hq _ H eq_refl)
                | rewrite app_nil_r in H; exact (Hq _ H eq_refl)].
      * apply analyze_github_repos_returns in Ha as (repos & w2 & evs2 & _ & Ha).
        destruct Ha as [(_ & [=] & _)|(items & r' & t' & -> & Hne & [= <- <-] & Hn & _)].
        destruct results as [|e results]; [inversion Hn; subst; congruence|].
        unfold IO.bind at 1. unfold IO.lift at 1. unfold IO.unpack.
        match goal with |- context [IO.bind S ?m ?k w1] =>
          destruct (IO.bind S m k w1) as [[r3 w3] e3] eqn:Hb end.
        cbn [snd]. rewrite !in_app_iff. cbn [In].
        assert (e3 = []) as ->.
        { unfold IO.bind, IO.lift in Hb.
          destruct (IO.avg_score _ _); [|injection Hb as _ _ <-; reflexivity].
          destruct (evaluate_candidate _ _); injection Hb as _ _ <-; reflexivity. }
        intros H; repeat (match type of H with _ \/ _ => destruct H as [H|H] end);
          first [discriminate H | contradiction | exact (Hq _ H eq_refl)
                | rewrite app_nil_r in H; exact (Hq _ H eq_refl)].
    + rewrite (bind_raises _ _ _ _ _ _ Ha). cbn [snd]. rewrite !in_app_iff. cbn [In].
      intros H; repeat (match type of H with _ \/ _ => destruct H as [H|H] end);
          first [discriminate H | contradiction | exact (Hq _ H eq_refl)
                | rewrite app_nil_r in H; exact (Hq _ H eq_refl)].
  - destruct (IO.main_analysis S username headers llm jd w) as [[r w1] evs1] eqn:Hm.
    cbn [fst]. intros ->.
    apply main_analysis_returns in Hm as (? & ? & ? & ? & ? & _ & _ & _ & _ & [=] & _).
Qed.

(** ** The details of a repository *)

Lemma get_returns (S : services) (url : json) (headers : option json) w r w' evs :
  IO.get S url headers w = (r, w', evs) ->
  requests_get S url headers w = (r, w') /\ evs = [HttpGet url headers].
Proof. unfold IO.get. destruct (requests_get S url headers w). intros [= -> -> <-]. auto. Qed.

Lemma ret_returns (S : services) {A} (a b : A) w w' evs :
  (mret a : IO.io S A) w = (Ok b, w', evs) -> b = a /\ w' = w /\ evs = [].
Proof. intros [= <- <- <-]. auto. Qed.

Lemma comprehension_length {A B} (f : A -> result B) (l : list A) (l' : list B) :
  comprehension f l = Ok l' -> length l' = length l.
Proof.
  revert l'. induction l as [|x l IH]; intros l' H; cbn [comprehension] in H.
  - injection H as <-. reflexivity.
  - destruct (f x) as [y|]; [|discriminate H]. cbn in H.
    destruct (comprehension f l) as [ys|]; [|discriminate H]. cbn in H.
    injection H as <-. cbn [length]. rewrite (IH ys eq_refl). reflexivity.
Qed.

Lemma substring_length_le (s : string) (n : nat) :
  (String.length (String.substring 0 n s) <= n)%nat.
Proof.
  revert s. induction n as [|n IH]; intros [|c s]; cbn; try lia. specialize (IH s). lia.
Qed.

Lemma list_ascii_length (s : string) : length (list_ascii_of_string s) = String.length s.
Proof. induction s as [|c s IH]; cbn; congruence. Qed.

Lemma latest_elements (body latest : json) (commits : list json) :
  slice_to body 5 = Ok latest -> elements latest = Ok commits -> (length commits <= 5)%nat.
Proof.
  destruct body; try discriminate; cbn [slice_to]; intros [= <-]; cbn [elements]; intros [= <-].
  - rewrite length_map, list_ascii_length. apply substring_length_le.
  - rewrite length_take. lia.
Qed.

(** X7: [get_repo_details] hands on at most five commit messages, however
    many commits GitHub lists. *)
Theorem at_most_five_commit_messages (S : services) (username : string)
    (repo_name headers : json) (w : world S) (readme : string)
    (commits files : list json) (languages : list string) (w' : world S)
    (evs : list event) :
  IO.get_repo_details S username repo_name headers w
  = (Ok (readme, commits, files, languages), w', evs) ->
  (length commits <= 5)%nat.
Proof.
  unfold IO.get_repo_details. intros H.
  apply bind_returns in H as (? & ? & ? & ? & _ & H & _).
  apply bind_returns in H as (? & ? & ? & ? & _ & H & _).
  apply bind_returns in H as (? & ? & ? & ? & _ & H & _).
  apply bind_returns in H as (commit_response & ? & ? & ? & _ & H & _).
  apply bind_returns in H as (commit_messages & ? & ? & ? & Hc & H & _).
  assert (length commit_messages <= 5)%nat as Hlen.
  { destruct (status_code commit_response =? 200).
    - io_inv Hc.
      lazymatch goal with
      | Hx : mbind _ _ = Ok commit_messages |- _ =>
          destruct (slice_to _ 5) as [latest|] eqn:Hslice; [|discriminate Hx];
          cbn in Hx;
          destruct (elements latest) as [cs|] eqn:Hcs; [|discriminate Hx];
          cbn in Hx; apply comprehension_length in Hx; rewrite Hx;
          exact (latest_elements _ _ _ Hslice Hcs)
      end.
    - apply ret_returns in Hc as (-> & _). cbn. lia. }
  io_inv H.
  match goal with Hr : mret _ _ = (Ok _, _, _) |- _ => apply ret_returns in Hr as ([= _ <- _ _] & _) end.
  exact Hlen.
Qed.

Lemma at_most_five_commit_messages_witness :
  (length [JStr "six"; JStr "five"; JStr "four"; JStr "three"; JStr "two"] <= 5)%nat.
Proof.
  eapply (at_most_five_commit_messages demo "octocat" (JStr "hello") demo_headers tt).
  vm_compute. reflexivity.
Defined.

(** X8: when GitHub answers every request, and none with the status 200,
    [get_repo_details] makes its four requests to the API, none for a
    download, and returns an empty README, no commit message, no file and no
    language. *)
Theorem details_default_without_200 (S : services) (username : string)
    (repo_name headers : json) (w : world S) :
  (forall url h w0, exists r w1,
      requests_get S url h w0 = (Ok r, w1) /\ status_code r <> 200) ->
  exists w',
    IO.get_repo_details S username repo_name headers w
    = (Ok ("", [], [], []), w',
       let repo := "https://api.github.com/repos/" +:+ username +:+ "/"
                   +:+ IO.fmt S repo_name in
       [StSpinner ("Fetching details for " +:+ IO.fmt S repo_name +:+ "...");
        HttpGet (JStr (repo +:+ "/readme")) (Some headers);
        HttpGet (JStr (repo +:+ "/commits")) (Some headers);
        HttpGet (JStr (repo +:+ "/contents")) (Some headers);
        HttpGet (JStr (repo +:+ "/languages")) (Some headers)]).
Proof.
  intros Hr. unfold IO.get_repo_details, mbind, IO.io_bind.
  rewrite (bind_step _ _ w tt w [StSpinner _]) by reflexivity.
  repeat match goal with
  | |- context [IO.bind S (IO.get S ?url ?h) ?k ?w0] =>
      let r := fresh "r" in let w1 := fresh "w" in let E := fresh "E" in
      let Hs := fresh "Hs" in
      destruct (Hr url h w0) as (r & w1 & E & Hs);
      rewrite (bind_step (IO.get S url h) k w0 r w1 [HttpGet url h])
        by (unfold IO.get; rewrite E; reflexivity);
      rewrite (proj2 (Z.eqb_neq _ _) Hs);
      unfold IO.bind at 1; cbn [mret IO.io_ret IO.ret]
  end.
  eexists. reflexivity.
Qed.

Lemma details_default_without_200_witness :
  exists w',
    IO.get_repo_details offline "octocat" (JStr "hello") demo_headers tt
    = (Ok ("", [], [], []), w',
       let repo := "https://api.github.com/repos/" +:+ "octocat" +:+ "/"
                   +:+ IO.fmt offline (JStr "hello") in
       [StSpinner ("Fetching details for " +:+ IO.fmt offline (JStr "hello") +:+ "...");
        HttpGet (JStr (repo +:+ "/readme")) (Some demo_headers);
        HttpGet (JStr (repo +:+ "/commits")) (Some demo_headers);
        HttpGet (JStr (repo +:+ "/contents")) (Some demo_headers);
        HttpGet (JStr (repo +:+ "/languages")) (Some demo_headers)]).
Proof.
  apply (details_default_without_200 offline "octocat" (JStr "hello") demo_headers tt).
  intros url h w0. eexists _, w0. split; [reflexivity|]. simpl. lia.
Defined.

(** ** The start: [initialize_api] *)


(** ** The order of the report *)

Lemma insert_by_score_perm (x : IO.entry) (l : list IO.entry) :
  IO.insert_by_score x l ≡ₚ x :: l.
Proof.
  induction l as [|y l IH]; [reflexivity|]. cbn [IO.insert_by_score].
  destruct (snd x <? snd y); [|reflexivity].
  rewrite IH. apply Permutation_swap.
Qed.

Lemma sorted_perm (l : list IO.entry) : IO.sorted l ≡ₚ l.
Proof.
  induction l as [|x l IH]; [reflexivity|]. cbn [IO.sorted foldr]. fold (IO.sorted l).
  rewrite insert_by_score_perm, IH. reflexivity.
Qed.

Lemma insert_by_score_descending (x : IO.entry) (l : list IO.entry) :
  descending l -> descending (IO.insert_by_score x l).
Proof.
  unfold descending. intros H. induction H as [|y l Hl IH Hy]; cbn [IO.insert_by_score].
  - repeat constructor.
  - destruct (snd x <? snd y) eqn:E.
    + constructor; [exact IH|].
      rewrite (insert_by_score_perm x l). constructor; [apply Z.ltb_lt in E; lia|exact Hy].
    + apply Z.ltb_ge in E. constructor; [constructor; assumption|].
      constructor; [exact E|]. eapply Forall_impl; [exact Hy|]. cbn. intros; lia.
Qed.

Lemma insert_by_score_filter (v : Z) (x : IO.entry) (l : list IO.entry) :
  descending l ->
  with_score v (IO.insert_by_score x l) = with_score v (x :: l).
Proof.
  unfold descending, with_score. intros H.
  induction H as [|y l Hl IH Hy]; cbn [IO.insert_by_score]; [reflexivity|].
  destruct (snd x <? snd y) eqn:E; [|reflexivity]. apply Z.ltb_lt in E.
  cbn [List.filter] in *. rewrite IH.
  destruct (snd x =? v) eqn:Ex, (snd y =? v) eqn:Ey; try reflexivity.
  apply Z.eqb_eq in Ex, Ey. lia.
Qed.

(** X10: the report lists the repositories from the highest score to the
    lowest; it has the entries of the analysis, each as often as there; and
    the entries of one score keep the order in which they were analysed. *)
Theorem report_is_sorted_by_score (repo_analysis : list IO.entry) :
  IO.sorted repo_analysis ≡ₚ repo_analysis
  /\ StronglySorted (fun a b => snd b <= snd a) (IO.sorted repo_analysis)
  /\ forall v,
       List.filter (fun e => snd e =? v) (IO.sorted repo_analysis)
       = List.filter (fun e => snd e =? v) repo_analysis.
Proof.
  split; [apply sorted_perm|].
  assert (descending (IO.sorted repo_analysis)) as Hd.
  { induction repo_analysis as [|x l IH]; [constructor|].
    cbn [IO.sorted foldr]. apply insert_by_score_descending. exact IH. }
  split; [exact Hd|]. intros v.
  induction repo_analysis as [|x l IH]; [reflexivity|].
  cbn [IO.sorted foldr]. fold (IO.sorted l).
  assert (descending (IO.sorted l)) as Hl.
  { clear. induction l as [|x l IH]; [constructor|].
    cbn [IO.sorted foldr]. apply insert_by_score_descending. exact IH. }
  pose proof (insert_by_score_filter v x (IO.sorted l) Hl) as E. unfold with_score in E.
  rewrite E. cbn [List.filter]. rewrite (IH Hl). reflexivity.
Qed.

(** ** The average that [main] shows *)

(** X11: the average that [main] shows goes with the suitability it shows,
    up to the rounding of the average: a candidate rated highly suitable
    has an average of at least 75, a moderately suitable one an average
    from 50 to 75, a potentially suitable one an average from 25 to 50, and
    one rated not suitable an average of at most 25. *)
Theorem average_goes_with_suitability (total_score num_repos avg : Z) (label : string) :
  IO.avg_score total_score num_repos = Ok avg ->
  evaluate_candidate (NInt total_score) num_repos = Ok label ->
  0 < num_repos ->
  (label = highly_suitable -> 75 <= avg)
  /\ (label = moderately_suitable -> 50 <= avg <= 75)
  /\ (label = potentially_suitable -> 25 <= avg <= 50)
  /\ (label = not_suitable -> avg <= 25).
Proof.
  unfold IO.avg_score, evaluate_candidate, truediv. intros Ha He Hn.
  rewrite (proj2 (Z.ltb_lt _ _) Hn) in Ha.
  rewrite (proj2 (Z.eqb_neq _ _) (Z.neq_sym _ _ (Z.lt_neq _ _ Hn))) in He.
  destruct (int_truediv total_score num_repos) as [q|e] eqn:Eq; [|discriminate Ha].
  cbn in Ha, He.
  destruct (int_truediv_valid _ _ _ Eq) as (V & N & F).
  rewrite (round_value q V F) in Ha. injection Ha as <-.
  rewrite !(float_ge_int_xval q _ V N) in He by (vm_compute; reflexivity).
  assert (forall c, c * 2 ^ 1074 <= xval q -> c <= round_val (xval q)) as Hge.
  { intros c Hc. apply Z.le_trans with (round_val (c * 2 ^ 1074));
      [rewrite round_val_int; apply Z.le_refl|apply round_val_mono; exact Hc]. }
  assert (forall c, xval q < c * 2 ^ 1074 -> round_val (xval q) <= c) as Hlt.
  { intros c Hc. apply Z.le_trans with (round_val (c * 2 ^ 1074));
      [apply round_val_mono; apply Z.lt_le_incl; exact Hc|rewrite round_val_int; apply Z.le_refl]. }
  generalize dependent (round_val (xval q)). intros v Hge Hlt.
  destruct (Z.leb_spec (75 * 2 ^ 1074) (xval q)) as [H75|H75].
  { injection He as <-. apply Hge in H75. clear Hge Hlt.
    split; [|split; [|split]]; intros E;
      first [lia|exfalso; revert E; clear; vm_compute; discriminate]. }
  destruct (Z.leb_spec (50 * 2 ^ 1074) (xval q)) as [H50|H50].
  { injection He as <-. apply Hge in H50. apply Hlt in H75. clear Hge Hlt.
    split; [|split; [|split]]; intros E;
      first [lia|exfalso; revert E; clear; vm_compute; discriminate]. }
  destruct (Z.leb_spec (25 * 2 ^ 1074) (xval q)) as [H25|H25].
  { injection He as <-. apply Hge in H25. apply Hlt in H50. clear Hge Hlt H75.
    split; [|split; [|split]]; intros E;
      first [lia|exfalso; revert E; clear; vm_compute; discriminate]. }
  injection He as <-. apply Hlt in H25. clear Hge Hlt H75 H50.
  split; [|split; [|split]]; intros E;
      first [lia|exfalso; revert E; clear; vm_compute; discriminate].
Qed.

Lemma average_goes_with_suitability_witness :
  (moderately_suitable = highly_suitable -> 75 <= 66)
  /\ (moderately_suitable = moderately_suitable -> 50 <= 66 <= 75)
  /\ (moderately_suitable = potentially_suitable -> 25 <= 66 <= 50)
  /\ (moderately_suitable = not_suitable -> 66 <= 25).
Proof.
  apply (average_goes_with_suitability 328 5 66 moderately_suitable).
  - vm_compute. reflexivity.
  - vm_compute. reflexivity.
  - lia.
Defined.

Lemma avg_score_bounds (total n : Z) :
  0 < n -> 0 <= total <= 100 * n ->
  exists v, IO.avg_score total n = Ok v /\ 0 <= v <= 100.
Proof.
  intros Hn Ht. unfold IO.avg_score. rewrite (proj2 (Z.ltb_lt _ _) Hn).
  destruct (Z.eq_dec total 0) as [->|H0].
  - exists 0. unfold int_truediv. rewrite (proj2 (Z.eqb_neq n 0)) by lia.
    cbn. split; [reflexivity|lia].
  - assert (0 < total) as Hp by lia.
    pose proof (quotient_le 100 total n ltac:(lia) Hp Hn ltac:(lia)) as Hle.
    pose proof (quotient_nonneg total n Hp Hn) as Hge.
    pose proof (round_quotient_valid false total n Hp Hn) as V.
    pose proof (round_quotient_not_nan false total n Hp Hn) as N.
    assert (is_finite (round_quotient false total n) = true) as F.
    { apply finite_of_bound; [exact N|].
      assert (100 * 2 ^ 1074 < 2 ^ 2098).
      { assert (2 ^ 2098 = 2 ^ 1024 * 2 ^ 1074) as -> by (rewrite <- Z.pow_add_r by lia; reflexivity).
        apply Z.mul_lt_mono_pos_r; [apply Z.pow_pos_nonneg; lia|].
        apply Z.lt_le_trans with (2 ^ 7); [lia|]. apply Z.pow_le_mono_r; lia. }
      lia. }
    assert (int_truediv total n = Ok (round_quotient false total n)) as Ed.
    { pose proof (int_truediv_finite total n H0 ltac:(lia)) as Hd.
      rewrite (proj2 (Z.ltb_ge total 0)), (proj2 (Z.ltb_ge n 0)) in Hd by lia.
      rewrite !Z.abs_eq in Hd by lia. exact (Hd F). }
    rewrite Ed. cbn. rewrite (round_value _ V F).
    eexists. split; [reflexivity|].
    pose proof (round_val_mono _ _ Hge) as H1. pose proof (round_val_mono _ _ Hle) as H2.
    rewrite round_val_int in H2. change 0 with (0 * 2 ^ 1074) in H1 at 1.
    rewrite round_val_int in H1. lia.
Qed.

Lemma total_of_bounds (l : list IO.entry) :
  Forall (fun e => 0 <= snd e <= 100) l -> 0 <= total_of l <= 100 * Z.of_nat (length l).
Proof.
  unfold total_of. intros H. induction H as [|x l Hx Hl IH]; cbn [foldr length]; lia.
Qed.

(** X12: when the score of every repository is from 0 to 100, the average
    that [main] shows is computed without an error and is from 0 to 100. *)
Theorem average_within_0_100 (results : list IO.entry) :
  results <> [] ->
  Forall (fun e => 0 <= snd e <= 100) results ->
  exists avg,
    IO.avg_score (foldr (fun e acc => snd e + acc) 0 results) (Z.of_nat (length results))
    = Ok avg
    /\ 0 <= avg <= 100.
Proof.
  intros Hne H. apply avg_score_bounds.
  - destruct results; [congruence|]. cbn [length]. lia.
  - exact (total_of_bounds results H).
Qed.

Lemma average_within_0_100_witness :
  exists avg,
    IO.avg_score
      (foldr (fun e acc => snd e + acc) 0
         [(JStr "hello", VDict scenario, 66); (JStr "world", default_analysis, 0)])
      (Z.of_nat (length [(JStr "hello", VDict scenario, 66); (JStr "world", default_analysis, 0)]))
    = Ok avg
    /\ 0 <= avg <= 100.
Proof.
  apply (average_within_0_100
           [(JStr "hello", VDict scenario, 66); (JStr "world", default_analysis, 0)]).
  - intros E. discriminate E.
  - repeat constructor; simpl; lia.
Defined.

(** ** The progress bar *)

Lemma emits_bind_lift {S : services} (P : event -> Prop) {A B} (r : result A)
    (k : A -> IO.io S B) :
  (forall a, r = Ok a -> emits P (k a)) -> emits P (IO.lift S r ≫= k).
Proof.
  intros Hk w. unfold mbind, IO.io_bind, IO.bind, IO.lift.
  destruct r as [a|e]; [|constructor].
  specialize (Hk a eq_refl w). destruct (k a w) as [[r w2] e2]. exact Hk.
Qed.

Lemma elements_len (v : json) (l : list json) :
  elements v = Ok l -> len v = Ok (Z.of_nat (length l)).
Proof.
  destruct v; cbn; try discriminate; intros [= <-].
  - unfold len_str. rewrite length_map, list_ascii_length. reflexivity.
  - reflexivity.
  - rewrite length_map. reflexivity.
Qed.

Lemma fraction_in_range (a n : Z) (f : float) :
  0 < a <= n -> int_truediv a n = Ok f -> between 0 1 f.
Proof.
  intros Ha Hf.
  pose proof (quotient_le 1 a n ltac:(split; [lia|apply (Z.pow_gt_1 2 53); lia])
                ltac:(lia) ltac:(lia) ltac:(lia)) as Hle.
  pose proof (quotient_nonneg a n ltac:(lia) ltac:(lia)) as Hge.
  pose proof (round_quotient_not_nan false a n ltac:(lia) ltac:(lia)) as N.
  assert (is_finite (round_quotient false a n) = true) as F.
  { apply finite_of_bound; [exact N|].
    assert (1 * 2 ^ 1074 < 2 ^ 2098) by (rewrite Z.mul_1_l; apply Z.pow_lt_mono_r; lia).
    lia. }
  pose proof (int_truediv_finite a n ltac:(lia) ltac:(lia)) as Hd.
  rewrite (proj2 (Z.ltb_ge a 0)), (proj2 (Z.ltb_ge n 0)) in Hd by lia.
  rewrite !Z.abs_eq in Hd by lia. rewrite (Hd F) in Hf. injection Hf as <-.
  unfold between, float_ge, float_le. rewrite Z.mul_0_l. auto.
Qed.

Lemma analyze_loop_progress (S : services) (username : string) (headers : json)
    (llm : IO.model S) (jd : string) (repos : json) (n : Z) (rest : list json) (idx : Z)
    (results : list IO.entry) (total : Z) :
  len repos = Ok n -> 0 <= idx -> idx + Z.of_nat (length rest) = n ->
  emits progress_in_range
    (IO.analyze_loop S username headers llm jd repos rest idx results total).
Proof.
  intros Hn. revert idx results total.
  induction rest as [|repo rest IH]; intros idx results total Hi Hl.
  - apply emits_ret.
  - cbn [IO.analyze_loop].
    apply emits_bind; [apply emits_lift|intros name].
    apply emits_bind; [apply emits_emit; exact I|intros _].
    apply emits_bind;
      [unfold IO.get_repo_details; emits_steps; exact I|intros [[[readme commits] fs] langs]].
    apply emits_bind;
      [unfold IO.analyze_repo_and_jd_match; emits_steps; exact I|intros analysis].
    apply emits_bind; [apply emits_lift|intros score].
    apply emits_bind_lift. intros f Hf. rewrite Hn in Hf. cbn in Hf.
    apply emits_bind.
    { apply emits_emit. cbn. apply (fraction_in_range (idx + 1) n); [|exact Hf].
      cbn [length] in Hl. lia. }
    intros _. apply emits_bind; [apply emits_emit; exact I|intros _].
    apply IH; [lia|]. cbn [length] in Hl. lia.
Qed.

(** X13: the progress bar is only ever given the integer 0 or a float from
    0 to 1, whatever GitHub and the model answer. *)
Theorem progress_stays_within_0_1 (S : services) (username : string) (headers : json)
    (llm : IO.model S) (jd : string) (w : world S) (v : number) :
  In (StProgress v) (snd (IO.analyze_github_repos S username headers llm jd w)) ->
  v = NInt 0 \/ exists f, v = NFloat f /\ between 0 1 f.
Proof.
  intros Hin.
  assert (emits progress_in_range (IO.analyze_github_repos S username headers llm jd)) as H.
  { unfold IO.analyze_github_repos.
    apply emits_bind; [unfold IO.get_github_repos; emits_steps; exact I|intros repos].
    destruct (negb (truthy repos)); [emits_steps; exact I|].
    apply emits_bind; [apply emits_emit; reflexivity|intros _].
    apply emits_bind_lift. intros rest Hr.
    apply emits_bind; [|intros out; emits_steps; exact I].
    apply (analyze_loop_progress S username headers llm jd repos (Z.of_nat (length rest)));
      [apply elements_len; exact Hr|lia|lia]. }
  specialize (H w). rewrite List.Forall_forall in H. specialize (H _ Hin).
  destruct v as [n|f]; cbn in H; [left; congruence|right; eauto].
Qed.

Lemma progress_stays_within_0_1_witness :
  NFloat (Spec.float_of 1) = NInt 0
  \/ exists f, NFloat (Spec.float_of 1) = NFloat f /\ between 0 1 f.
Proof.
  apply (progress_stays_within_0_1 demo "octocat" demo_headers demo_llm "jd" tt).
  vm_compute. do 9 right. left. reflexivity.
Defined.

(** ** The analyzer with its effects, and the analyzer as a function *)



(** ** How often the outside is called *)

Section AtMost.

Context {S : services}.
Variable p : event -> bool.

Lemma count_app (l1 l2 : list event) : count p (l1 ++ l2) = (count p l1 + count p l2)%nat.
Proof. unfold count. rewrite List.filter_app, length_app. reflexivity. Qed.

Lemma count_one (ev : event) : count p [ev] = if p ev then 1%nat else 0%nat.
Proof. unfold count. cbn. destruct (p ev); reflexivity. Qed.

Lemma at_most_weaken {A} (n n' : nat) (m : IO.io S A) :
  at_most p n m -> (n <= n')%nat -> at_most p n' m.
Proof. intros H Hn w. specialize (H w). lia. Qed.

Lemma at_most_ret {A} (a : A) : at_most p 0 (mret a : IO.io S A).
Proof. intros w. cbn. lia. Qed.

Lemma at_most_lift {A} (r : result A) : at_most p 0 (IO.lift S r).
Proof. intros w. cbn. lia. Qed.

Lemma at_most_emit (n : nat) (ev : event) :
  ((if p ev then 1 else 0) <= n)%nat -> at_most p n (IO.emit S ev).
Proof. intros H w. cbn [IO.emit snd]. rewrite count_one. exact H. Qed.

Lemma at_most_get (n : nat) (url : json) (headers : option json) :
  ((if p (HttpGet url headers) then 1 else 0) <= n)%nat ->
  at_most p n (IO.get S url headers).
Proof.
  intros H w. unfold IO.get. destruct (requests_get S url headers w). cbn [snd].
  rewrite count_one. exact H.
Qed.

Lemma at_most_invoke (n : nat) (llm : IO.model S) (prompt : string) :
  ((if p (Invoke prompt) then 1 else 0) <= n)%nat ->
  at_most p n (IO.invoke S llm prompt).
Proof.
  intros H w. unfold IO.invoke. destruct (llm prompt w). cbn [snd]. rewrite count_one.
  exact H.
Qed.

Lemma at_most_bind {A B} (n1 n2 : nat) (m : IO.io S A) (k : A -> IO.io S B) :
  at_most p n1 m -> (forall a, at_most p n2 (k a)) -> at_most p (n1 + n2) (m ≫= k).
Proof.
  intros Hm Hk w. unfold mbind, IO.io_bind, IO.bind. specialize (Hm w).
  destruct (m w) as [[[a|e] w1] e1]; cbn [snd] in *; [|lia].
  specialize (Hk a w1). destruct (k a w1) as [[r w2] e2]. cbn [snd] in *.
  rewrite count_app. lia.
Qed.

Lemma at_most_try {A} (n1 n2 : nat) (body : IO.io S A) (handler : exn -> IO.io S A) :
  at_most p n1 body -> (forall e, at_most p n2 (handler e)) ->
  at_most p (n1 + n2) (IO.try_except S body handler).
Proof.
  intros Hm Hk w. unfold IO.try_except. specialize (Hm w).
  destruct (body w) as [[[a|e] w1] e1]; cbn [snd] in *; [lia|].
  specialize (Hk e w1). destruct (handler e w1) as [[r w2] e2]. cbn [snd] in *.
  rewrite count_app. lia.
Qed.

Lemma count_bind_step {A B} (m : IO.io S A) (k : A -> IO.io S B) w a w1 e1 :
  m w = (Ok a, w1, e1) ->
  count p (snd (IO.bind S m k w)) = (count p e1 + count p (snd (k a w1)))%nat.
Proof.
  intros H. rewrite (bind_step _ _ _ _ _ _ H). destruct (k a w1) as [[r w2] e2].
  cbn [snd]. apply count_app.
Qed.

Lemma at_most_bind_lift {A B} (n : nat) (r : result A) (k : A -> IO.io S B) :
  (forall a, r = Ok a -> at_most p n (k a)) -> at_most p n (IO.lift S r ≫= k).
Proof.
  intros Hk w. unfold mbind, IO.io_bind, IO.bind, IO.lift.
  destruct r as [a|e]; [|cbn; lia].
  specialize (Hk a eq_refl w). destruct (k a w) as [[r w2] e2]. exact Hk.
Qed.

Lemma at_most_if {A} (n1 n2 : nat) (b : bool) (m1 m2 : IO.io S A) :
  at_most p n1 m1 -> at_most p n2 m2 -> at_most p (Nat.max n1 n2) (if b then m1 else m2).
Proof. intros H1 H2 w. specialize (H1 w). specialize (H2 w). destruct b; lia. Qed.

End AtMost.

(** Adds up what the steps of a computation produce. *)
Ltac at_most_steps :=
  repeat first
    [ apply at_most_ret
    | apply at_most_lift
    | eapply at_most_emit; cbn; apply le_n
    | eapply at_most_get; cbn; apply le_n
    | eapply at_most_invoke; cbn; apply le_n
    | eapply at_most_bind; [|intros ?]
    | eapply at_most_try; [|intros ?]
    | eapply at_most_if ].

Lemma get_repo_details_calls (S : services) (username : string) (repo_name headers : json) :
  at_most is_request 5 (IO.get_repo_details S username repo_name headers)
  /\ at_most is_model_call 0 (IO.get_repo_details S username repo_name headers)
  /\ at_most is_sleep 0 (IO.get_repo_details S username repo_name headers).
Proof.
  repeat split; (eapply at_most_weaken; [unfold IO.get_repo_details; at_most_steps|cbn; lia]).
Qed.

Lemma analyze_calls (S : services) (readme : string) (file_structure commits : list json)
    (languages : list string) (jd : string) (llm : IO.model S) :
  at_most is_request 0
    (IO.analyze_repo_and_jd_match S readme file_structure commits languages jd llm)
  /\ at_most is_model_call 1
       (IO.analyze_repo_and_jd_match S readme file_structure commits languages jd llm)
  /\ at_most is_sleep 0
       (IO.analyze_repo_and_jd_match S readme file_structure commits languages jd llm).
Proof.
  repeat split;
    (eapply at_most_weaken; [unfold IO.analyze_repo_and_jd_match; at_most_steps|cbn; lia]).
Qed.

Lemma analyze_loop_at_most (S : services) (username : string) (headers : json)
    (llm : IO.model S) (jd : string) (repos : json) (p : event -> bool) (cd ca cs : nat) :
  (forall repo_name, at_most p cd (IO.get_repo_details S username repo_name headers)) ->
  (forall readme files commits languages,
     at_most p ca (IO.analyze_repo_and_jd_match S readme files commits languages jd llm)) ->
  (forall msg, p (StSpinner msg) = false) ->
  (forall v, p (StProgress v) = false) ->
  ((if p (Sleep 1) then 1 else 0) <= cs)%nat ->
  forall (rest : list json) (idx : Z) (results : list IO.entry) (total : Z),
    at_most p ((cd + ca + cs) * length rest)
      (IO.analyze_loop S username headers llm jd repos rest idx results total).
Proof.
  intros Hd Ha Hs Hp Hz rest.
  induction rest as [|repo rest IH]; intros idx results total.
  - intros w. cbn. lia.
  - cbn [IO.analyze_loop]. eapply at_most_weaken.
    { eapply at_most_bind; [apply at_most_lift|intros name].
      eapply at_most_bind; [apply (at_most_emit p 0); rewrite Hs; apply le_n|intros _].
      eapply at_most_bind; [apply Hd|intros [[[readme commits] fs] langs]].
      eapply at_most_bind; [apply Ha|intros analysis].
      eapply at_most_bind; [apply at_most_lift|intros score].
      eapply at_most_bind; [apply at_most_lift|intros fraction].
      eapply at_most_bind; [apply (at_most_emit p 0); rewrite Hp; apply le_n|intros _].
      eapply at_most_bind; [apply (at_most_emit p cs); exact Hz|intros _].
      apply IH. }
    cbn [length]. lia.
Qed.

Lemma analyze_github_repos_at_most (S : services) (username : string) (headers : json)
    (llm : IO.model S) (jd : string) (p : event -> bool) (c0 c : nat) (w : world S)
    (repos : json) (w1 : world S) (evs1 : list event) (rest : list json) :
  at_most p c0 (IO.get_github_repos S username headers) ->
  (forall repos rest idx results total,
     at_most p (c * length rest)
       (IO.analyze_loop S username headers llm jd repos rest idx results total)) ->
  (forall msg, p (StError msg) = false) ->
  (forall v, p (StProgress v) = false) ->
  p ProgressEmpty = false ->
  IO.get_github_repos S username headers w = (Ok repos, w1, evs1) ->
  elements repos = Ok rest ->
  (count p (snd (IO.analyze_github_repos S username headers llm jd w))
   <= c0 + c * length rest)%nat.
Proof.
  intros H0 Hl He Hp Hq Hg Hr.
  pose proof (H0 w) as Hc. rewrite Hg in Hc. cbn [snd] in Hc.
  unfold IO.analyze_github_repos, mbind at 1, IO.io_bind.
  rewrite (count_bind_step p _ _ _ _ _ _ Hg).
  apply Nat.add_le_mono; [exact Hc|].
  destruct (negb (truthy repos)).
  - assert (at_most p 0
              (_ ← IO.emit S (StError "No repositories found or failed to fetch repositories.");
               (mret IO.Nothing : IO.io S IO.analysis))) as H.
    { eapply at_most_weaken.
      - eapply at_most_bind; [apply (at_most_emit p 0); rewrite He; apply le_n|intros _].
        apply at_most_ret.
      - lia. }
    apply Nat.le_trans with 0%nat; [exact (H w1)|apply Nat.le_0_l].
  - rewrite Hr.
    match goal with |- (count p (snd (?m w1)) <= _)%nat =>
      assert (at_most p (c * length rest) m) as H; [|exact (H w1)] end.
    eapply at_most_weaken.
    + eapply at_most_bind; [apply (at_most_emit p 0); rewrite Hp; apply le_n|intros _].
      apply at_most_bind_lift. intros l [= <-].
      eapply at_most_bind; [|intros out].
      * apply (Hl repos rest 0 [] 0).
      * eapply at_most_bind; [apply (at_most_emit p 0); rewrite Hq; apply le_n|intros _].
        apply at_most_ret.
    + cbn. lia.
Qed.

(** X15: an analysis makes at most one request for the list of the
    repositories and five for each repository (four to the API and one
    download), calls the model at most once for each repository, and pauses
    at most once for each, whether it returns or raises. *)
Theorem calls_are_bounded (S : services) (username : string) (headers : json)
    (llm : IO.model S) (jd : string) (w : world S) (repos : json) (w1 : world S)
    (evs1 : list event) (rest : list json) :
  IO.get_github_repos S username headers w = (Ok repos, w1, evs1) ->
  elements repos = Ok rest ->
  (count is_request (snd (IO.analyze_github_repos S username headers llm jd w))
   <= 1 + 5 * length rest)%nat
  /\ (count is_model_call (snd (IO.analyze_github_repos S username headers llm jd w))
      <= length rest)%nat
  /\ (count is_sleep (snd (IO.analyze_github_repos S username headers llm jd w))
      <= length rest)%nat.
Proof.
  intros Hg Hr.
  assert (forall p c0, at_most p c0 (IO.get_github_repos S username headers) ->
          forall cd ca cs,
          (forall repo_name, at_most p cd (IO.get_repo_details S username repo_name headers)) ->
          (forall readme files commits languages,
             at_most p ca
               (IO.analyze_repo_and_jd_match S readme files commits languages jd llm)) ->
          (forall msg, p (StSpinner msg) = false) ->
          (forall v, p (StProgress v) = false) ->
          (forall msg, p (StError msg) = false) ->
          p ProgressEmpty = false ->
          ((if p (Sleep 1) then 1 else 0) <= cs)%nat ->
          (count p (snd (IO.analyze_github_repos S username headers llm jd w))
           <= c0 + (cd + ca + cs) * length rest)%nat) as H.
  { intros p c0 H0 cd ca cs Hd Ha Hs Hp He Hq Hz.
    apply (analyze_github_repos_at_most S username headers llm jd p c0 (cd + ca + cs)
             w repos w1 evs1 rest); auto.
    intros. apply analyze_loop_at_most; auto. }
  split; [|split].
  - apply (H is_request 1%nat) with (cd := 5%nat) (ca := 0%nat) (cs := 0%nat);
      try reflexivity; try (cbn; lia).
    + eapply at_most_weaken; [unfold IO.get_github_repos; at_most_steps|cbn; lia].
    + intros. apply get_repo_details_calls.
    + intros. apply analyze_calls.
  - rewrite <- (Nat.mul_1_l (length rest)).
    apply (H is_model_call 0%nat) with (cd := 0%nat) (ca := 1%nat) (cs := 0%nat);
      try reflexivity; try (cbn; lia).
    + eapply at_most_weaken; [unfold IO.get_github_repos; at_most_steps|cbn; lia].
    + intros. apply get_repo_details_calls.
    + intros. apply analyze_calls.
  - rewrite <- (Nat.mul_1_l (length rest)).
    apply (H is_sleep 0%nat) with (cd := 0%nat) (ca := 0%nat) (cs := 1%nat);
      try reflexivity; try (cbn; lia).
    + eapply at_most_weaken; [unfold IO.get_github_repos; at_most_steps|cbn; lia].
    + intros. apply get_repo_details_calls.
    + intros. apply analyze_calls.
Qed.

Lemma calls_are_bounded_witness :
  (count is_request
     (snd (IO.analyze_github_repos demo "octocat" demo_headers demo_llm "jd" tt))
   <= 1 + 5 * 1)%nat
  /\ (count is_model_call
        (snd (IO.analyze_github_repos demo "octocat" demo_headers demo_llm "jd" tt))
      <= 1)%nat
  /\ (count is_sleep
        (snd (IO.analyze_github_repos demo "octocat" demo_headers demo_llm "jd" tt))
      <= 1)%nat.
Proof.
  eapply (calls_are_bounded demo "octocat" demo_headers demo_llm "jd" tt
            (JList [JDict [("id", JInt 1); ("name", JStr "hello")]]) tt
            _ [JDict [("id", JInt 1); ("name", JStr "hello")]]).
  - vm_compute. reflexivity.
  - reflexivity.
Defined.

(** ** The score in integers *)

Lemma exact_all : all_upto 101 exact_row = true.
Proof. vm_compute. reflexivity. Qed.

(** X16: for a job-match score that is an integer from 0 to 100 the score
    is the one of exact arithmetic: [(6 * base_score + 4 * jd_match_score
    + 5) / 10] rounded down, which is the integer nearest to
    [(6 * base_score + 4 * jd_match_score) / 10] (a tie cannot occur, the
    numerator being even).  The binary64 values of 0.6 and 0.4 and the
    roundings of the two products and of the sum never change it. *)
Theorem score_is_exact_on_integers (d : gmap string value)
    (ls ts als : list value) (c ca : string) (j : Z) :
  d !! k_languages = Some (VList ls) ->
  d !! k_tech_stack = Some (VList ts) ->
  d !! k_algorithms = Some (VList als) ->
  d !! k_complexity = Some (VStr c) ->
  d !! k_commit_activity = Some (VStr ca) ->
  d !! k_jd_match_score = Some (VInt j) ->
  0 <= j <= 100 ->
  calculate_repo_score (VDict d)
  = Ok ((6 * Spec.base_score ls ts als c ca + 4 * j + 5) / 10).
Proof.
  intros Hl Ht Ha Hc Hca Hj Hr.
  rewrite (score_of_fields d ls ts als c ca (VInt j) Hl Ht Ha Hc Hca Hj).
  cbn [to_float].
  pose proof (base_score_range ls ts als c ca) as Hb.
  set (b := Spec.base_score ls ts als c ca) in *.
  pose proof (all_upto_spec _ _ exact_all b ltac:(lia)) as Hrow.
  pose proof (all_upto_spec _ _ Hrow j ltac:(lia)) as H.
  unfold exact_ok, result_eqb in H.
  destruct (jd ← float_of_int j; Spec.score b jd) as [v|]; [|discriminate H].
  apply Z.eqb_eq in H. subst v. reflexivity.
Qed.

Lemma score_is_exact_on_integers_witness :
  calculate_repo_score (VDict scenario)
  = Ok ((6 * Spec.base_score [VStr "Python"; VStr "JS"] [VStr "Flask"] [] "medium" "active"
         + 4 * 80 + 5) / 10).
Proof.
  apply (score_is_exact_on_integers scenario); try reflexivity. lia.
Defined.
